(** * Crossword generator (crossword/generate.py): a shallow embedding

    The constraint solver of [CrosswordCreator] is modelled function by
    function.  Python sets are lists (the list order is the iteration order of
    the set), Python dicts are association lists in insertion order, and every
    operation that can raise ([s[i]], [d[k]], unpacking [None]) returns in an
    error monad. *)

From Stdlib Require Import List String Ascii Arith Bool ZArith Lia Permutation.
From Stdlib Require Import Sorted.
Import ListNotations.
Local Open Scope string_scope.
Local Open Scope list_scope.
Local Open Scope nat_scope.

Set Implicit Arguments.

(** ** Results of running Python code *)

Inductive exn : Type := IndexError | KeyError | TypeError.

(** [OutOfFuel] is produced only by the two unbounded constructs of the
    source: the [while queue] loop of [ac3] and the recursion of
    [backtrack]. *)
Inductive result (A : Type) : Type :=
| Ok (a : A)
| Raise (e : exn)
| OutOfFuel.

Arguments Ok {A} a.
Arguments Raise {A} e.
Arguments OutOfFuel {A}.

Definition bind {A B : Type} (m : result A) (k : A -> result B) : result B :=
  match m with
  | Ok a => k a
  | Raise e => Raise e
  | OutOfFuel => OutOfFuel
  end.

Declare Scope py_scope.
Delimit Scope py_scope with py.
Notation "x <- m ;; k" := (bind m (fun x => k))
  (at level 61, m at next level, right associativity) : py_scope.
Notation "' p <- m ;; k" := (bind m (fun x => let p := x in k))
  (at level 61, p pattern, m at next level, right associativity) : py_scope.
Local Open Scope py_scope.

(** [s[n]] on a string, for a non-negative index. *)
Definition index (s : string) (n : nat) : result ascii :=
  match String.get n s with
  | Some c => Ok c
  | None => Raise IndexError
  end.

(** ** Python dicts: association lists in insertion order *)

Section PyDict.
Context {K V : Type} (K_eq_dec : forall a b : K, {a = b} + {a <> b}).

Definition dict : Type := list (K * V).

Fixpoint get (d : dict) (k : K) : option V :=
  match d with
  | [] => None
  | (k', v) :: rest => if K_eq_dec k k' then Some v else get rest k
  end.

(** [d[k]] *)
Definition lookup (d : dict) (k : K) : result V :=
  match get d k with
  | Some v => Ok v
  | None => Raise KeyError
  end.

(** [d[k] = v]: an existing key keeps its place, a new one goes last. *)
Fixpoint set (d : dict) (k : K) (v : V) : dict :=
  match d with
  | [] => [(k, v)]
  | (k', v') :: rest =>
      if K_eq_dec k k' then (k', v) :: rest else (k', v') :: set rest k v
  end.

(** [del d[k]] for a key that is present. *)
Fixpoint del (d : dict) (k : K) : dict :=
  match d with
  | [] => []
  | (k', v') :: rest =>
      if K_eq_dec k k' then rest else (k', v') :: del rest k
  end.

Definition keys (d : dict) : list K := map fst d.

(** [k in d] *)
Definition contains (d : dict) (k : K) : bool :=
  match get d k with Some _ => true | None => false end.
End PyDict.

(** ** The grid model (crossword.py) *)

Inductive Direction : Type := ACROSS | DOWN.

(** The class [Variable] of the source ([Variable] is a reserved word here). *)
Module Var.
Record t : Type := mk {
  i : nat;
  j : nat;
  direction : Direction;
  length : nat
}.

Definition eq_dec (a b : t) : {a = b} + {a <> b}.
Proof. repeat decide equality. Defined.
End Var.

(** The [Crossword] object as the solver reads it (crossword.py is not part
    of the sources): the set of variables, the vocabulary, and the table
    [overlaps], where [None] is "no constraint". *)
Record Crossword : Type := {
  variables : list Var.t;
  words : list string;
  overlaps : Var.t -> Var.t -> option (nat * nat)
}.

(** Modelled from the spec: the construction of [overlaps] is not part of the
    sources.  Two distinct variables whose cell sets "intersect in exactly one
    cell" get the pair of positions of that cell in the two words; every other
    pair is "no overlap". *)
Definition cells (v : Var.t) : list (nat * nat) :=
  map (fun k =>
         (Var.i v + match Var.direction v with DOWN => k | ACROSS => 0 end,
          Var.j v + match Var.direction v with ACROSS => k | DOWN => 0 end))
      (seq 0 (Var.length v)).

Definition cell_eq_dec (a b : nat * nat) : {a = b} + {a <> b}.
Proof. repeat decide equality. Defined.

Fixpoint position (c : nat * nat) (l : list (nat * nat)) : nat :=
  match l with
  | [] => 0
  | c' :: rest => if cell_eq_dec c c' then 0 else S (position c rest)
  end.

Definition grid_overlaps (v1 v2 : Var.t) : option (nat * nat) :=
  if Var.eq_dec v1 v2 then None
  else
    match filter (fun c => if in_dec cell_eq_dec c (cells v2) then true else false)
                 (cells v1) with
    | [c] => Some (position c (cells v1), position c (cells v2))
    | _ => None
    end.

Definition grid_crossword (vars : list Var.t) (vocabulary : list string)
  : Crossword :=
  {| variables := vars; words := vocabulary; overlaps := grid_overlaps |}.

Definition is_some {A : Type} (o : option A) : bool :=
  match o with Some _ => true | None => false end.

(** Modelled from the spec: [Crossword.neighbors] is not part of the sources;
    the neighbour set of [var] is "the set of all other variables sharing a
    defined overlap with" [var]. *)
Definition neighbors (cw : Crossword) (var : Var.t) : list Var.t :=
  filter (fun v => if Var.eq_dec v var then false
                   else is_some (overlaps cw v var))
         (variables cw).

(** ** The domain store *)

Definition Domains : Type := @dict Var.t (list string).
Definition Assignment : Type := @dict Var.t string.

Definition domain_of (domains : Domains) (var : Var.t) : result (list string) :=
  lookup Var.eq_dec domains var.

(** [s.remove(value)] on a set.  Every call in the source removes a value that
    was just read from the same set, so the call never raises. *)
Definition set_remove (value : string) (s : list string) : list string :=
  remove string_dec value s.

(** [for value in toRemove: s.remove(value)] *)
Definition remove_each (toRemove : list string) (s : list string) : list string :=
  fold_left (fun acc value => set_remove value acc) toRemove s.

(** [CrosswordCreator.__init__] *)
Definition init_domains (cw : Crossword) : Domains :=
  map (fun var => (var, words cw)) (variables cw).

(** [enforce_node_consistency] *)
Definition enforce_node_consistency (domains : Domains) : Domains :=
  map (fun entry : Var.t * list string =>
         let (key, s) := entry in
         let toRemove :=
           filter (fun value =>
                     negb (Var.length key =? String.length value)) s in
         (key, remove_each toRemove s))
      domains.

(** ** revise *)

(** The inner loop of [revise]: is there a [valuey] with
    [valuey[iy] == letter]?  Stops at the first match. *)
Fixpoint has_support (letter : ascii) (iy : nat) (dy : list string) : result bool :=
  match dy with
  | [] => Ok false
  | valuey :: rest =>
      c <- index valuey iy ;;
      if Ascii.eqb c letter then Ok true else has_support letter iy rest
  end.

(** The outer loop of [revise]: the list [toRemove]. *)
Fixpoint unsupported (domains : Domains) (y : Var.t) (ix iy : nat)
         (dx : list string) : result (list string) :=
  match dx with
  | [] => Ok []
  | valuex :: rest =>
      letter <- index valuex ix ;;
      dy <- domain_of domains y ;;
      consistent <- has_support letter iy dy ;;
      toRemove <- unsupported domains y ix iy rest ;;
      Ok (if consistent then toRemove else valuex :: toRemove)
  end.

Definition revise (cw : Crossword) (domains : Domains) (x y : Var.t)
  : result (bool * Domains) :=
  match overlaps cw x y with
  | None => Ok (false, domains)
  | Some (ix, iy) =>
      dx <- domain_of domains x ;;
      toRemove <- unsupported domains y ix iy dx ;;
      let revised := negb (Nat.eqb (List.length toRemove) 0) in
      Ok (revised, set Var.eq_dec domains x (remove_each toRemove dx))
  end.

(** ** ac3 *)

Definition Arc : Type := (Var.t * Var.t)%type.

(** [queue] when [arcs is None]: all arcs of the problem, in append order. *)
Definition all_arcs (cw : Crossword) (domains : Domains) : list Arc :=
  flat_map (fun variable =>
              flat_map (fun neighbour =>
                          [(variable, neighbour); (neighbour, variable)])
                       (neighbors cw variable))
           (keys domains).

(** The arcs appended after [x] was revised, in append order. *)
Definition arcs_around (cw : Crossword) (x : Var.t) : list Arc :=
  flat_map (fun neighbour => [(neighbour, x); (x, neighbour)])
           (neighbors cw x).

(** [queue.append] for each element of [new], on a worklist that is kept with
    its last element first, so that [queue.pop()] is the head. *)
Definition push_all (new : list Arc) (queue : list Arc) : list Arc :=
  rev new ++ queue.

(** The [while queue] loop.  [queue] has the last element of the Python list
    first. *)
Fixpoint ac3_loop (cw : Crossword) (fuel : nat) (domains : Domains)
         (queue : list Arc) (changes : nat) : result (bool * Domains) :=
  match fuel with
  | 0 => OutOfFuel
  | S fuel' =>
      match queue with
      | [] => Ok (negb (changes =? 0), domains)
      | arc :: queue' =>
          '(revised, domains') <- revise cw domains (fst arc) (snd arc) ;;
          if (revised : bool) then
            dx <- domain_of domains' (fst arc) ;;
            if List.length dx =? 0 then Ok (false, domains')
            else ac3_loop cw fuel' domains'
                          (push_all (arcs_around cw (fst arc)) queue')
                          (changes + 1)
          else ac3_loop cw fuel' domains' queue' changes
      end
  end.

(** Number of candidate words over the whole store. *)
Definition total_size (domains : Domains) : nat :=
  list_sum (map (fun entry : Var.t * list string => List.length (snd entry)) domains).

(** Iterations that the loop can need: every pop either shortens the queue
    or removes a word and appends at most two arcs per variable. *)
Definition ac3_fuel (cw : Crossword) (domains : Domains) (queue : list Arc) : nat :=
  S (List.length queue + total_size domains * (2 * List.length (variables cw))).

Definition ac3 (cw : Crossword) (domains : Domains) (arcs : option (list Arc))
  : result (bool * Domains) :=
  let queue :=
    match arcs with
    | None => push_all (all_arcs cw domains) []
    | Some arcs => push_all arcs []
    end in
  ac3_loop cw (ac3_fuel cw domains queue) domains queue 0.

(** ** The search engine *)

(** [assignment_complete] *)
Definition assignment_complete (cw : Crossword) (assignment : Assignment) : bool :=
  List.length assignment =? List.length (variables cw).

(** [word in vals] *)
Definition mem (word : string) (vals : list string) : bool :=
  if in_dec string_dec word vals then true else false.

(** The loop over the neighbours of [key] in [consistent]. *)
Fixpoint check_neighbours (cw : Crossword) (assignment : Assignment)
         (key : Var.t) (word : string) (ns : list Var.t) : result bool :=
  match ns with
  | [] => Ok true
  | neighbour :: rest =>
      match get Var.eq_dec assignment neighbour with
      | None => check_neighbours cw assignment key word rest
      | Some word' =>
          match overlaps cw key neighbour with
          | None => Raise TypeError
          | Some (i, j) =>
              c <- index word i ;;
              c' <- index word' j ;;
              if Ascii.eqb c c'
              then check_neighbours cw assignment key word rest
              else Ok false
          end
      end
  end.

(** The loop over the keys of [assignment] in [consistent]; [vals] is the set
    of words seen so far. *)
Fixpoint consistent_loop (cw : Crossword) (assignment : Assignment)
         (entries : list (Var.t * string)) (vals : list string) : result bool :=
  match entries with
  | [] => Ok true
  | (key, word) :: rest =>
      if mem word vals then Ok false
      else if negb (Var.length key =? String.length word) then Ok false
      else
        ok <- check_neighbours cw assignment key word (neighbors cw key) ;;
        if (ok : bool) then consistent_loop cw assignment rest (word :: vals)
        else Ok false
  end.

Definition consistent (cw : Crossword) (assignment : Assignment) : result bool :=
  consistent_loop cw assignment assignment [].

(** Stable sort by the first component, as [counts.sort(key=...)]. *)
Fixpoint insert_by_count (c : nat * string) (sorted : list (nat * string))
  : list (nat * string) :=
  match sorted with
  | [] => [c]
  | d :: rest =>
      if fst c <=? fst d then c :: d :: rest
      else d :: insert_by_count c rest
  end.

Definition sort_by_count (counts : list (nat * string)) : list (nat * string) :=
  fold_right insert_by_count [] counts.

(** The inner loop of [order_domain_values]: how many of the given
    neighbours have [val] in their domain. *)
Fixpoint count_in_domains (domains : Domains) (val : string)
         (ns : list Var.t) : result nat :=
  match ns with
  | [] => Ok 0
  | neighbour :: rest =>
      d <- domain_of domains neighbour ;;
      n <- count_in_domains domains val rest ;;
      Ok (if mem val d then S n else n)
  end.

Fixpoint count_each (domains : Domains) (unassigned : list Var.t)
         (values : list string) : result (list (nat * string)) :=
  match values with
  | [] => Ok []
  | val :: rest =>
      n <- count_in_domains domains val unassigned ;;
      counts <- count_each domains unassigned rest ;;
      Ok ((n, val) :: counts)
  end.

(** [order_domain_values] *)
Definition order_domain_values (cw : Crossword) (domains : Domains)
           (var : Var.t) (assignment : Assignment) : result (list string) :=
  values <- domain_of domains var ;;
  let neighbours := neighbors cw var in
  let unassigned :=
    filter (fun n => negb (contains Var.eq_dec assignment n)) neighbours in
  counts <- count_each domains unassigned values ;;
  Ok (map snd (sort_by_count counts)).

(** The loop of [select_unassigned_variable] over [crossword.variables]; the
    state is [(minCount, listOfVars)]. *)
Fixpoint select_loop (domains : Domains) (assignment : Assignment)
         (vars : list Var.t) (minCount : Z) (listOfVars : list Var.t)
  : result (list Var.t) :=
  match vars with
  | [] => Ok listOfVars
  | var :: rest =>
      if contains Var.eq_dec assignment var
      then select_loop domains assignment rest minCount listOfVars
      else
        d <- domain_of domains var ;;
        let n := Z.of_nat (List.length d) in
        if (minCount <? 0)%Z
        then select_loop domains assignment rest n (listOfVars ++ [var])
        else if (n <? minCount)%Z
             then select_loop domains assignment rest n (listOfVars ++ [var])
             else select_loop domains assignment rest minCount listOfVars
  end.

(** [l[-1]] *)
Definition last_item {A : Type} (l : list A) : result A :=
  match rev l with
  | [] => Raise IndexError
  | a :: _ => Ok a
  end.

(** [select_unassigned_variable] *)
Definition select_unassigned_variable (cw : Crossword) (domains : Domains)
           (assignment : Assignment) : result Var.t :=
  listOfVars <- select_loop domains assignment (variables cw) (-1)%Z [] ;;
  last_item listOfVars.

(** The [for value in ...] loop of [backtrack], with the recursive call as a
    parameter.  The pair returned is [(found, assignment)]: [found = false]
    is the source's [None]; with [found = true] the source returns the dict
    [assignment] itself.  The second component is the state in which the
    call leaves the caller's dict. *)
Fixpoint try_values (cw : Crossword)
         (recur : Assignment -> result (bool * Assignment))
         (var : Var.t) (values : list string) (assignment : Assignment)
  : result (bool * Assignment) :=
  match values with
  | [] => Ok (false, assignment)
  | value :: rest =>
      let assignment := set Var.eq_dec assignment var value in
      ok <- consistent cw assignment ;;
      if (ok : bool) then
        '(found, assignment) <- recur assignment ;;
        if (found : bool) then Ok (true, assignment)
        else try_values cw recur var rest (del Var.eq_dec assignment var)
      else try_values cw recur var rest assignment
  end.

(** [backtrack] *)
Fixpoint backtrack (cw : Crossword) (domains : Domains) (fuel : nat)
         (assignment : Assignment) : result (bool * Assignment) :=
  match fuel with
  | 0 => OutOfFuel
  | S fuel' =>
      if assignment_complete cw assignment then Ok (true, assignment)
      else
        var <- select_unassigned_variable cw domains assignment ;;
        values <- order_domain_values cw domains var assignment ;;
        try_values cw (backtrack cw domains fuel') var values assignment
  end.

(** Each nested call has at least one more key, all of them variables. *)
Definition backtrack_fuel (cw : Crossword) : nat :=
  S (List.length (variables cw)).

(** What the caller of [backtrack] receives. *)
Definition returned (r : bool * Assignment) : option Assignment :=
  if fst r then Some (snd r) else None.

(** [solve]: the value returned, the dict that was passed to [backtrack] as
    the call left it, and the domain store afterwards. *)
Definition solve (cw : Crossword) (domains : Domains)
  : result (option Assignment * Assignment * Domains) :=
  let domains := enforce_node_consistency domains in
  '(_, domains) <- ac3 cw domains None ;;
  r <- backtrack cw domains (backtrack_fuel cw) [] ;;
  Ok (returned r, snd r, domains).

(** * Specification vocabulary *)

(** The words of [Domain[x]]; a variable that is not a key has none. *)
Definition domain (domains : Domains) (x : Var.t) : list string :=
  match get Var.eq_dec domains x with
  | Some s => s
  | None => []
  end.

(** Some word of [Domain[y]] has at position [iy] the character that [w] has
    at position [ix]. *)
Definition has_partner (domains : Domains) (y : Var.t) (ix iy : nat)
           (w : string) : Prop :=
  exists c w', String.get ix w = Some c /\ In w' (domain domains y)
               /\ String.get iy w' = Some c.

(** The precondition under which [revise x y] performs no out-of-range
    indexing. *)
Definition revise_safe (cw : Crossword) (domains : Domains) (x y : Var.t) : Prop :=
  forall ix iy, overlaps cw x y = Some (ix, iy) ->
    In x (keys domains) /\ In y (keys domains)
    /\ (forall w, In w (domain domains x) -> ix < String.length w)
    /\ (forall w, In w (domain domains y) -> iy < String.length w).

(** The scan of [Domain[y]] for [letter] stops at the first match, so it
    indexes a word only when no match precedes it.  Every word it indexes is
    longer than [iy]. *)
Definition scan_in_range (iy : nat) (letter : ascii) (dy : list string) : Prop :=
  forall pre w' post,
    dy = pre ++ w' :: post ->
    (forall p, In p pre -> String.get iy p <> Some letter) ->
    iy < String.length w'.

(** Every indexing that [revise x y] performs is in range: every word of
    [Domain[x]] is longer than [ix], and the scan of [Domain[y]] for its
    letter only meets words longer than [iy]. *)
Definition revise_in_range (domains : Domains) (x y : Var.t) (ix iy : nat)
  : Prop :=
  forall w, In w (domain domains x) ->
    exists c, String.get ix w = Some c
              /\ scan_in_range iy c (domain domains y).

(** Every word of every domain has the length of its variable. *)
Definition node_consistent (domains : Domains) : Prop :=
  forall x w, In w (domain domains x) -> String.length w = Var.length x.

(** Overlap indices lie within the lengths of the two variables. *)
Definition overlaps_in_range (cw : Crossword) : Prop :=
  forall x y ix iy, overlaps cw x y = Some (ix, iy) ->
    ix < Var.length x /\ iy < Var.length y.

(** An overlap is defined in both directions or in neither. *)
Definition overlaps_symmetric (cw : Crossword) : Prop :=
  forall x y, overlaps cw x y = None -> overlaps cw y x = None.

(** Propagation only removes: same keys, every domain a subset of the old. *)
Definition shrinks (before after : Domains) : Prop :=
  keys after = keys before
  /\ forall x w, In w (domain after x) -> In w (domain before x).


(** The arc [(x, y)] is consistent: every word of [Domain[x]] has a partner
    in [Domain[y]]. *)
Definition arc_consistent (cw : Crossword) (domains : Domains) (x y : Var.t)
  : Prop :=
  forall ix iy, overlaps cw x y = Some (ix, iy) ->
    forall w, In w (domain domains x) -> has_partner domains y ix iy w.

(** Every arc between a variable and a key is either waiting in the queue or
    consistent. *)
Definition covered (cw : Crossword) (d : Domains) (queue : list Arc) : Prop :=
  forall x y, In x (variables cw) -> In y (keys d) -> x <> y ->
              In (x, y) queue \/ arc_consistent cw d x y.

(** An arc between two distinct variables of the crossword. *)
Definition proper_arc (cw : Crossword) (arc : Arc) : Prop :=
  fst arc <> snd arc
  /\ In (fst arc) (variables cw) /\ In (snd arc) (variables cw).

(** No domain that had words has lost them all. *)
Definition none_emptied (before after : Domains) : Prop :=
  forall x, domain before x <> [] -> domain after x <> [].

(** Overlapping variables carry the same character in the shared cell. *)
Definition agree (cw : Crossword) (a : Assignment) : Prop :=
  forall x y ix iy wx wy,
    x <> y -> overlaps cw x y = Some (ix, iy) ->
    get Var.eq_dec a x = Some wx -> get Var.eq_dec a y = Some wy ->
    exists c, String.get ix wx = Some c /\ String.get iy wy = Some c.

(** A complete, consistent assignment: one word for every variable and for
    nothing else, of the variable's length, agreeing on every overlap, and no
    word used twice. *)
Definition complete_consistent (cw : Crossword) (a : Assignment) : Prop :=
  (forall x, In x (variables cw) -> exists w, get Var.eq_dec a x = Some w)
  /\ (forall x, In x (keys a) -> In x (variables cw))
  /\ (forall x w, get Var.eq_dec a x = Some w ->
                  String.length w = Var.length x)
  /\ agree cw a
  /\ (forall x y w, get Var.eq_dec a x = Some w ->
                    get Var.eq_dec a y = Some w -> x = y).

(** The shape of every dict that the search builds: its keys are distinct
    variables of the crossword. *)
Definition well_keyed (cw : Crossword) (a : Assignment) : Prop :=
  NoDup (keys a) /\ forall x, In x (keys a) -> In x (variables cw).

(** Every word that [a] uses is in the domain of its variable. *)
Definition within (domains : Domains) (a : Assignment) : Prop :=
  forall x w, get Var.eq_dec a x = Some w -> In w (domain domains x).

(** * Concrete crosswords *)

(** Scenario B of the specification: two crossing three-letter slots that
    share their middle cell. *)
Definition across_B : Var.t := Var.mk 1 0 ACROSS 3.
Definition down_B : Var.t := Var.mk 0 1 DOWN 3.

Definition scenario_B : Crossword :=
  grid_crossword [across_B; down_B] ["CAT"; "DOG"; "TIE"; "ACT"].

(** A store over the slots of scenario B in which one word of the across
    slot has no partner. *)
Definition pruned_B : Domains :=
  [(across_B, ["CAT"; "DOG"]); (down_B, ["TIE"; "BAT"])].

(** The same slots with an unfiltered vocabulary: ["A"] is too short to be
    indexed at the overlap position. *)
Definition raw_B : Crossword :=
  grid_crossword [across_B; down_B] ["CAT"; "A"].

(** An across slot through the last cell of the down slot, with an
    unfiltered vocabulary: ["BA"] is too short to be indexed at the down
    slot's overlap position, and ["AAA"], iterated first, matches. *)
Definition across_low : Var.t := Var.mk 2 0 ACROSS 3.

Definition short_partner : Crossword :=
  grid_crossword [across_low; down_B] ["AAA"; "BA"].

(** Two crossing slots of different lengths whose only candidates disagree
    on the shared cell. *)
Definition down_4 : Var.t := Var.mk 0 1 DOWN 4.

Definition clash : Crossword :=
  grid_crossword [across_B; down_4] ["CAT"; "DOGS"].

(** Two crossing slots of different lengths with one filling. *)
Definition mixed : Crossword :=
  grid_crossword [across_B; down_4] ["CAT"; "DOG"; "BATS"; "TINY"].

Definition mixed_solution : Assignment :=
  [(across_B, "CAT"); (down_4, "BATS")].

Definition mixed_propagated : Domains :=
  [(across_B, ["CAT"]); (down_4, ["BATS"])].

(** Four slots on the grid
<<
      _ # # #
      _ _ _ #
      _ # _ #
      # _ _ _
>>
    which can be filled: ODE down the left, DAD across, DEN down from the
    last letter of DAD, ONE across the bottom. *)
Definition slot_E : Var.t := Var.mk 0 0 DOWN 3.
Definition slot_B : Var.t := Var.mk 1 0 ACROSS 3.
Definition slot_C : Var.t := Var.mk 1 2 DOWN 3.
Definition slot_D : Var.t := Var.mk 3 1 ACROSS 3.

Definition four_slots : Crossword :=
  grid_crossword [slot_E; slot_B; slot_C; slot_D]
                 ["AHA"; "DAD"; "DEN"; "ODE"; "ONE"; "BAT"; "SAT"].

Definition four_slots_propagated : Domains :=
  [(slot_E, ["DAD"; "ODE"; "BAT"; "SAT"]);
   (slot_B, ["AHA"; "DAD"]);
   (slot_C, ["AHA"; "DAD"; "DEN"]);
   (slot_D, ["DAD"; "ODE"; "ONE"; "BAT"; "SAT"])].

Definition four_slots_solution : Assignment :=
  [(slot_E, "ODE"); (slot_B, "DAD"); (slot_C, "DEN"); (slot_D, "ONE")].

(** An H-shaped grid: two down slots joined by an across slot through their
    middle cells. *)
Definition h_left : Var.t := Var.mk 0 0 DOWN 3.
Definition h_bar : Var.t := Var.mk 1 0 ACROSS 3.
Definition h_right : Var.t := Var.mk 0 2 DOWN 3.

Definition h_shape : Crossword :=
  grid_crossword [h_left; h_bar; h_right] ["AHA"; "HAH"].

(** ** Iteration orders

    The order in which Python iterates over a set is not fixed.  The lists
    of a [Crossword] fix one order; the orders of a finite set are the
    permutations of the list. *)

Fixpoint inserts {A : Type} (a : A) (l : list A) : list (list A) :=
  match l with
  | [] => [[a]]
  | b :: rest => (a :: l) :: map (cons b) (inserts a rest)
  end.

Fixpoint orders {A : Type} (l : list A) : list (list A) :=
  match l with
  | [] => [[]]
  | a :: rest => flat_map (inserts a) (orders rest)
  end.

(** [solve] on a grid iterated in the given orders returns [None] and leaves
    entries in the dict that the root call of [backtrack] was given. *)
Definition fails_with_leftovers (vars : list Var.t) (vocabulary : list string)
  : bool :=
  let cw := grid_crossword vars vocabulary in
  match solve cw (init_domains cw) with
  | Ok (None, _ :: _, _) => true
  | _ => false
  end.

(** The crossword with another table of overlaps. *)
Definition with_overlaps (cw : Crossword)
           (table : Var.t -> Var.t -> option (nat * nat)) : Crossword :=
  {| variables := variables cw; words := words cw; overlaps := table |}.

(** * The presentation helper [letter_grid] *)

(** The 2D array [letters]: a list of rows, each cell [None] or a letter. *)
Definition Grid : Type := list (list (option ascii)).

(** [l[n] = a] on a list. *)
Fixpoint store {A : Type} (l : list A) (n : nat) (a : A) : result (list A) :=
  match l, n with
  | [], _ => Raise IndexError
  | _ :: rest, 0 => Ok (a :: rest)
  | b :: rest, S n' => rest' <- store rest n' a ;; Ok (b :: rest')
  end.

(** [l[n]] on a list. *)
Definition item {A : Type} (l : list A) (n : nat) : result A :=
  match nth_error l n with
  | Some a => Ok a
  | None => Raise IndexError
  end.

(** [letters[i][j] = c]: the row is fetched, then written in place. *)
Definition store_letter (letters : Grid) (i j : nat) (c : ascii) : result Grid :=
  row <- item letters i ;;
  row' <- store row j (Some c) ;;
  store letters i row'.

(** The cell of the [k]-th letter of a word placed at [variable]. *)
Definition cell_of (variable : Var.t) (k : nat) : nat * nat :=
  (Var.i variable + match Var.direction variable with DOWN => k | ACROSS => 0 end,
   Var.j variable + match Var.direction variable with ACROSS => k | DOWN => 0 end).

(** [for k in range(len(word))], over the remaining values of [k]. *)
Fixpoint write_word (letters : Grid) (variable : Var.t) (word : string)
         (ks : list nat) : result Grid :=
  match ks with
  | [] => Ok letters
  | k :: rest =>
      c <- index word k ;;
      letters <- store_letter letters (fst (cell_of variable k))
                              (snd (cell_of variable k)) c ;;
      write_word letters variable word rest
  end.

(** [for variable, word in assignment.items()] *)
Fixpoint write_words (letters : Grid) (entries : list (Var.t * string))
  : result Grid :=
  match entries with
  | [] => Ok letters
  | (variable, word) :: rest =>
      letters <- write_word letters variable word
                            (seq 0 (String.length word)) ;;
      write_words letters rest
  end.

(** [letter_grid]; [height] and [width] are [crossword.height] and
    [crossword.width]. *)
Definition letter_grid (height width : nat) (assignment : Assignment)
  : result Grid :=
  write_words (repeat (repeat None width) height) assignment.

(** ** Vocabulary for the further properties *)

(** What [letters[i][j]] holds; nothing outside the array. *)
Definition letter_at (letters : Grid) (cell : nat * nat) : option ascii :=
  match nth_error letters (fst cell) with
  | Some row =>
      match nth_error row (snd cell) with
      | Some content => content
      | None => None
      end
  | None => None
  end.

(** The array has [height] rows of [width] cells. *)
Definition rectangular (height width : nat) (letters : Grid) : Prop :=
  List.length letters = height
  /\ Forall (fun row => List.length row = width) letters.

(** Every letter of every assigned word falls inside the array. *)
Definition fits (height width : nat) (a : Assignment) : Prop :=
  forall v w k, In (v, w) a -> k < String.length w ->
                fst (cell_of v k) < height /\ snd (cell_of v k) < width.

(** Letters that land on the same cell are equal. *)
Definition letters_agree (a : Assignment) : Prop :=
  forall v w v' w' k k' c c',
    In (v, w) a -> In (v', w') a ->
    String.get k w = Some c -> String.get k' w' = Some c' ->
    cell_of v k = cell_of v' k' -> c = c'.

(** The number that [order_domain_values] attaches to [val]: how many
    unassigned neighbours of [var] have [val] in their domain. *)
Definition constraint_count (cw : Crossword) (domains : Domains)
           (a : Assignment) (var : Var.t) (val : string) : nat :=
  List.length
    (filter (fun n => mem val (domain domains n))
            (filter (fun n => negb (contains Var.eq_dec a n))
                    (neighbors cw var))).

(** Two lists hold the same elements. *)
Definition same_elements {A : Type} (l l' : list A) : Prop :=
  forall x, In x l <-> In x l'.

(** ** Further concrete inputs *)

(** Scenario B with its variables listed in the other order. *)
Definition scenario_B_reversed : Crossword :=
  grid_crossword [down_B; across_B] ["ACT"; "TIE"; "DOG"; "CAT"].

Definition pruned_B_reversed : Domains :=
  [(down_B, ["BAT"; "TIE"]); (across_B, ["DOG"; "CAT"])].

(** * Properties *)

Unset Implicit Arguments.

(** ** Strings and the error monad *)

Lemma get_in_range (s : string) (n : nat) :
  n < String.length s -> exists c, String.get n s = Some c.
Proof.
  revert n; induction s as [|a s IH]; intros n H; simpl in *.
  - lia.
  - destruct n as [|n]; [eauto|]. apply IH. lia.
Qed.

Lemma get_some_in_range (s : string) (n : nat) (c : ascii) :
  String.get n s = Some c -> n < String.length s.
Proof.
  revert n; induction s as [|a s IH]; intros n H; simpl in *.
  - discriminate.
  - destruct n as [|n]; [lia|]. apply IH in H. lia.
Qed.

Lemma index_ok (s : string) (n : nat) (c : ascii) :
  index s n = Ok c <-> String.get n s = Some c.
Proof.
  unfold index. destruct (String.get n s); split; intros H;
    try discriminate; inversion H; reflexivity.
Qed.

Lemma index_raises (s : string) (n : nat) :
  String.length s <= n -> index s n = Raise IndexError.
Proof.
  intros H. unfold index. destruct (String.get n s) eqn:E; [|reflexivity].
  apply get_some_in_range in E. lia.
Qed.

Lemma bind_ok {A B : Type} (m : result A) (k : A -> result B) (b : B) :
  bind m k = Ok b -> exists a, m = Ok a /\ k a = Ok b.
Proof. destruct m; simpl; intros H; try discriminate. eauto. Qed.

(** Splits a successful monadic computation into its steps. *)
Ltac ok_inv H :=
  repeat match type of H with
    | bind ?m _ = Ok _ =>
        let a := fresh "a" in
        let Hm := fresh "Hm" in
        apply bind_ok in H; destruct H as (a & Hm & H)
    | (let (_, _) := ?p in _) = Ok _ => destruct p
    | (let '(_, _) := ?p in _) = Ok _ => destruct p
    end.

(** ** Dicts *)

Section PyDictFacts.
Context {K V : Type} (K_eq_dec : forall a b : K, {a = b} + {a <> b}).
Implicit Types d : list (K * V).
Implicit Types k : K.
Implicit Types v : V.

Lemma get_set_eq d k v : get K_eq_dec (set K_eq_dec d k v) k = Some v.
Proof.
  induction d as [|[k' v'] d IH]; simpl.
  - destruct (K_eq_dec k k); congruence.
  - destruct (K_eq_dec k k') as [E|E]; simpl.
    + destruct (K_eq_dec k k'); congruence.
    + destruct (K_eq_dec k k'); congruence.
Qed.

Lemma get_set_neq d k k' v :
  k' <> k -> get K_eq_dec (set K_eq_dec d k v) k' = get K_eq_dec d k'.
Proof.
  intros N. induction d as [|[k0 v0] d IH]; simpl.
  - destruct (K_eq_dec k' k); congruence.
  - destruct (K_eq_dec k k0) as [E|E]; simpl.
    + subst. destruct (K_eq_dec k' k0); congruence.
    + destruct (K_eq_dec k' k0); congruence.
Qed.

Lemma get_in d k v : get K_eq_dec d k = Some v -> In (k, v) d.
Proof.
  induction d as [|[k0 v0] d IH]; simpl; [discriminate|].
  destruct (K_eq_dec k k0) as [E|E]; intros H.
  - inversion H; subst; auto.
  - auto.
Qed.

Lemma get_in_keys d k :
  In k (keys d) <-> exists v, get K_eq_dec d k = Some v.
Proof.
  unfold keys. induction d as [|[k0 v0] d IH]; simpl.
  - split; [tauto|intros [v H]; discriminate].
  - destruct (K_eq_dec k k0) as [E|E].
    + subst. split; eauto.
    + rewrite <- IH. split; [intros [H|H]; congruence || auto | auto].
Qed.


Lemma in_get d k v :
  NoDup (keys d) -> In (k, v) d -> get K_eq_dec d k = Some v.
Proof.
  unfold keys. induction d as [|[k0 v0] d IH]; simpl; [tauto|].
  intros ND [H|H].
  - inversion H; subst. destruct (K_eq_dec k k); congruence.
  - inversion ND as [|? ? Hn ND']; subst.
    destruct (K_eq_dec k k0) as [E|E]; [|auto].
    subst. exfalso. apply Hn. apply (in_map fst) in H. exact H.
Qed.

Lemma keys_set_present d k v :
  In k (keys d) -> keys (set K_eq_dec d k v) = keys d.
Proof.
  unfold keys. induction d as [|[k0 v0] d IH]; simpl; [tauto|].
  intros H. destruct (K_eq_dec k k0) as [E|E]; simpl.
  - reflexivity.
  - f_equal. apply IH. destruct H; congruence.
Qed.

Lemma keys_set_absent d k v :
  ~ In k (keys d) -> keys (set K_eq_dec d k v) = keys d ++ [k].
Proof.
  unfold keys. induction d as [|[k0 v0] d IH]; simpl; [reflexivity|].
  intros H. destruct (K_eq_dec k k0) as [E|E]; simpl.
  - exfalso; auto.
  - f_equal. apply IH. tauto.
Qed.

Lemma in_keys_set d k k' v :
  In k' (keys (set K_eq_dec d k v)) <-> k' = k \/ In k' (keys d).
Proof.
  rewrite !get_in_keys. destruct (K_eq_dec k' k) as [E|E].
  - subst. rewrite get_set_eq. split; eauto.
  - rewrite get_set_neq by assumption. split; [auto|].
    intros [H|H]; congruence.
Qed.

Lemma keys_del d k :
  NoDup (keys d) -> forall k', In k' (keys (del K_eq_dec d k)) <-> k' <> k /\ In k' (keys d).
Proof.
  unfold keys. induction d as [|[k0 v0] d IH]; simpl; intros ND k'.
  - tauto.
  - inversion ND as [|? ? Hn ND']; subst.
    destruct (K_eq_dec k k0) as [E|E]; simpl.
    + subst. split.
      * intros H. split; [|auto]. intros ->. auto.
      * intros [N [H|H]]; congruence.
    + rewrite IH by assumption. split.
      * intros [H|[N H]]; [subst; split; auto|split; auto].
      * intros [N [H|H]]; auto.
Qed.

Lemma NoDup_keys_set d k v :
  NoDup (keys d) -> NoDup (keys (set K_eq_dec d k v)).
Proof.
  intros ND. destruct (in_dec K_eq_dec k (keys d)) as [H|H].
  - rewrite keys_set_present; assumption.
  - rewrite keys_set_absent by assumption.
    apply NoDup_app; [assumption|constructor; [tauto|constructor]|].
    intros a Ha [Hb|[]]. congruence.
Qed.

Lemma NoDup_keys_del d k :
  NoDup (keys d) -> NoDup (keys (del K_eq_dec d k)).
Proof.
  unfold keys. induction d as [|[k0 v0] d IH]; simpl; intros ND; [constructor|].
  inversion ND as [|? ? Hn ND']; subst.
  destruct (K_eq_dec k k0) as [E|E]; simpl; [assumption|].
  constructor; [|auto].
  intros H. apply Hn. apply (keys_del d k ND') in H. tauto.
Qed.

Lemma contains_true d k :
  contains K_eq_dec d k = true <-> In k (keys d).
Proof.
  unfold contains. rewrite get_in_keys.
  destruct (get K_eq_dec d k); split; intros H; eauto; try discriminate.
  destruct H; discriminate.
Qed.
End PyDictFacts.

(** ** revise *)

Lemma domain_get (domains : Domains) (x : Var.t) (s : list string) :
  get Var.eq_dec domains x = Some s -> domain domains x = s.
Proof. unfold domain. intros ->. reflexivity. Qed.

Lemma domain_of_ok (domains : Domains) (x : Var.t) (s : list string) :
  domain_of domains x = Ok s <-> get Var.eq_dec domains x = Some s.
Proof.
  unfold domain_of, lookup. destruct (get Var.eq_dec domains x); split;
    intros H; try discriminate; inversion H; reflexivity.
Qed.

Lemma domain_of_key (domains : Domains) (x : Var.t) :
  In x (keys domains) -> domain_of domains x = Ok (domain domains x).
Proof.
  intros H. apply get_in_keys with (K_eq_dec := Var.eq_dec) in H.
  destruct H as [s H]. rewrite (domain_get _ _ _ H). apply domain_of_ok, H.
Qed.

Lemma domain_set_eq (domains : Domains) (x : Var.t) (s : list string) :
  domain (set Var.eq_dec domains x s) x = s.
Proof. unfold domain. rewrite get_set_eq. reflexivity. Qed.

Lemma domain_set_neq (domains : Domains) (x z : Var.t) (s : list string) :
  z <> x -> domain (set Var.eq_dec domains x s) z = domain domains z.
Proof. intros N. unfold domain. rewrite get_set_neq by assumption. reflexivity. Qed.

Lemma in_set_remove (value w : string) (s : list string) :
  In w (set_remove value s) <-> In w s /\ w <> value.
Proof.
  unfold set_remove. split.
  - intros H. apply in_remove in H. exact H.
  - intros [H N]. apply in_in_remove; assumption.
Qed.

Lemma in_remove_each (toRemove s : list string) (w : string) :
  In w (remove_each toRemove s) <-> In w s /\ ~ In w toRemove.
Proof.
  unfold remove_each. revert s.
  induction toRemove as [|v rest IH]; intros s; simpl.
  - tauto.
  - rewrite IH, in_set_remove. split.
    + intros [[H N] R]. split; [assumption|]. intros [E|E]; auto.
    + intros [H R]. repeat split; auto.
Qed.

Lemma remove_each_nil (s : list string) : remove_each [] s = s.
Proof. reflexivity. Qed.

Lemma has_support_true (letter : ascii) (iy : nat) (dy : list string) :
  has_support letter iy dy = Ok true ->
  exists w', In w' dy /\ String.get iy w' = Some letter.
Proof.
  induction dy as [|valuey rest IH]; simpl; intros H; [discriminate|].
  ok_inv H. apply index_ok in Hm.
  destruct (Ascii.eqb a letter) eqn:E.
  - apply Ascii.eqb_eq in E. subst. eauto.
  - destruct (IH H) as (w' & Hin & Hg). eauto.
Qed.

Lemma has_support_false (letter : ascii) (iy : nat) (dy : list string) :
  has_support letter iy dy = Ok false ->
  forall w', In w' dy -> String.get iy w' <> Some letter.
Proof.
  induction dy as [|valuey rest IH]; simpl; intros H w' Hin; [tauto|].
  ok_inv H. apply index_ok in Hm.
  destruct (Ascii.eqb a letter) eqn:E; [discriminate|].
  apply Ascii.eqb_neq in E.
  destruct Hin as [<-|Hin]; [congruence|auto].
Qed.

Lemma has_support_total (letter : ascii) (iy : nat) (dy : list string) :
  (forall w', In w' dy -> iy < String.length w') ->
  exists b, has_support letter iy dy = Ok b.
Proof.
  induction dy as [|valuey rest IH]; simpl; intros H; [eauto|].
  destruct (get_in_range valuey iy) as [c Hc]; [auto|].
  apply index_ok in Hc. rewrite Hc. simpl.
  destruct (Ascii.eqb c letter); eauto.
Qed.

(** What the outer loop of [revise] collects. *)
Lemma unsupported_spec (domains : Domains) (y : Var.t) (ix iy : nat)
      (dx toRemove : list string) :
  unsupported domains y ix iy dx = Ok toRemove ->
  (forall w, In w toRemove -> In w dx)
  /\ (forall w, In w dx ->
        (In w toRemove /\ ~ has_partner domains y ix iy w)
        \/ (~ In w toRemove /\ has_partner domains y ix iy w)).
Proof.
  revert toRemove. induction dx as [|valuex rest IH]; simpl; intros toRemove H.
  - inversion H; subst. split; simpl; tauto.
  - ok_inv H. apply index_ok in Hm. apply domain_of_ok in Hm0.
    destruct (IH _ Hm2) as [IH1 IH2]. clear IH.
    assert (Hv : if a1 then has_partner domains y ix iy valuex
                 else ~ has_partner domains y ix iy valuex).
    { destruct a1.
      - apply has_support_true in Hm1. destruct Hm1 as (w' & Hin & Hg).
        exists a, w'. rewrite (domain_get _ _ _ Hm0). auto.
      - intros (c & w' & Hc & Hin & Hg).
        rewrite (domain_get _ _ _ Hm0) in Hin.
        apply (has_support_false _ _ _ Hm1 w' Hin). congruence. }
    destruct a1; inversion H; subst; clear H.
    + split; [auto|]. intros w [<-|Hin].
      * right. split; [|assumption]. intros Hr.
        destruct (IH2 _ (IH1 _ Hr)) as [[_ N]|[N _]]; auto.
      * auto.
    + split.
      * intros w [<-|Hin]; auto.
      * intros w [<-|Hin]; [left; simpl; auto|].
        destruct (IH2 _ Hin) as [[R N]|[R P]]; [left; simpl; auto|].
        right. split; [|assumption]. intros [<-|Hr]; auto.
Qed.

Lemma unsupported_total (domains : Domains) (y : Var.t) (ix iy : nat)
      (dx : list string) :
  In y (keys domains) ->
  (forall w, In w dx -> ix < String.length w) ->
  (forall w, In w (domain domains y) -> iy < String.length w) ->
  exists toRemove, unsupported domains y ix iy dx = Ok toRemove.
Proof.
  intros Hy Hx Hdy. induction dx as [|valuex rest IH]; simpl; [eauto|].
  destruct (get_in_range valuex ix) as [c Hc]; [simpl in Hx; auto|].
  apply index_ok in Hc. rewrite Hc. simpl.
  rewrite (domain_of_key _ _ Hy). simpl.
  destruct (has_support_total c iy _ Hdy) as [b Hb]. rewrite Hb. simpl.
  destruct IH as [r Hr]; [intros; apply Hx; simpl; auto|].
  rewrite Hr. simpl. eauto.
Qed.

Lemma length_zero_nil {A : Type} (l : list A) :
  negb (List.length l =? 0) = true <-> l <> [].
Proof. destruct l; simpl; split; intros; congruence. Qed.

Lemma revise_no_overlap (cw : Crossword) (domains : Domains) (x y : Var.t) :
  overlaps cw x y = None -> revise cw domains x y = Ok (false, domains).
Proof. intros H. unfold revise. rewrite H. reflexivity. Qed.

(** The shape of every successful [revise] on a constrained arc. *)
Lemma revise_ok_inv (cw : Crossword) (domains domains' : Domains)
      (x y : Var.t) (ix iy : nat) (revised : bool) :
  overlaps cw x y = Some (ix, iy) ->
  revise cw domains x y = Ok (revised, domains') ->
  exists dx toRemove,
    get Var.eq_dec domains x = Some dx
    /\ unsupported domains y ix iy dx = Ok toRemove
    /\ revised = negb (List.length toRemove =? 0)
    /\ domains' = set Var.eq_dec domains x (remove_each toRemove dx).
Proof.
  intros Ho H. unfold revise in H. rewrite Ho in H.
  ok_inv H. apply domain_of_ok in Hm. inversion H; subst.
  exists a, a0. auto.
Qed.

Lemma revise_total (cw : Crossword) (domains : Domains) (x y : Var.t) :
  revise_safe cw domains x y ->
  exists revised domains', revise cw domains x y = Ok (revised, domains').
Proof.
  intros Hs. unfold revise.
  destruct (overlaps cw x y) as [[ix iy]|] eqn:Ho; [|eauto].
  destruct (Hs ix iy Ho) as (Hx & Hy & Hlx & Hly).
  rewrite (domain_of_key _ _ Hx). simpl.
  destruct (unsupported_total domains y ix iy (domain domains x) Hy Hlx Hly)
    as [r Hr].
  rewrite Hr. simpl. eauto.
Qed.

(** What a successful [revise] on a constrained arc does to the store. *)
Lemma revise_spec (cw : Crossword) (domains domains' : Domains)
      (x y : Var.t) (ix iy : nat) (revised : bool) :
  overlaps cw x y = Some (ix, iy) ->
  revise cw domains x y = Ok (revised, domains') ->
  (forall w, In w (domain domains' x) <->
             In w (domain domains x) /\ has_partner domains y ix iy w)
  /\ (forall z, z <> x ->
         get Var.eq_dec domains' z = get Var.eq_dec domains z)
  /\ keys domains' = keys domains
  /\ (revised = true <->
      exists w, In w (domain domains x)
                /\ ~ has_partner domains y ix iy w).
Proof.
  intros Ho H.
  destruct (revise_ok_inv _ _ _ _ _ _ _ _ Ho H) as (dx & rem & Hx & Hu & -> & ->).
  destruct (unsupported_spec _ _ _ _ _ _ Hu) as [Hsub Hcls].
  rewrite domain_set_eq, (domain_get _ _ _ Hx).
  repeat split.
  - apply in_remove_each in H0. tauto.
  - apply in_remove_each in H0. destruct H0 as [Hin Hn].
    destruct (Hcls _ Hin) as [[R _]|[_ P]]; tauto.
  - intros [Hin P]. apply in_remove_each. split; [assumption|].
    destruct (Hcls _ Hin) as [[_ N]|[R _]]; tauto.
  - intros z N. apply get_set_neq. assumption.
  - apply keys_set_present. apply (get_in_keys Var.eq_dec). eauto.
  - intros Hr. apply length_zero_nil in Hr.
    destruct rem as [|w rem]; [congruence|].
    exists w. assert (Hin : In w dx) by (apply Hsub; simpl; auto).
    split; [assumption|].
    destruct (Hcls _ Hin) as [[_ N]|[R _]]; [assumption|].
    exfalso; apply R; simpl; auto.
  - intros (w & Hin & N). apply length_zero_nil.
    destruct (Hcls _ Hin) as [[R _]|[_ P]]; [|tauto].
    intros ->. exact R.
Qed.

(** C6: on an arc with overlap [(ix, iy)], [revise x y] keeps in [Domain[x]]
    exactly the words that have a partner in [Domain[y]], changes no other
    domain (so not [Domain[y]]), and returns true iff some word was removed;
    without an overlap it returns false and changes nothing; under
    [revise_safe] it does return. *)
Theorem revise_removes_unsupported
        (cw : Crossword) (domains : Domains) (x y : Var.t) :
  (overlaps cw x y = None -> revise cw domains x y = Ok (false, domains))
  /\ (forall ix iy revised domains',
        overlaps cw x y = Some (ix, iy) ->
        revise cw domains x y = Ok (revised, domains') ->
        (forall w, In w (domain domains' x) <->
                   In w (domain domains x) /\ has_partner domains y ix iy w)
        /\ (forall z, z <> x ->
               get Var.eq_dec domains' z = get Var.eq_dec domains z)
        /\ keys domains' = keys domains
        /\ (revised = true <->
            exists w, In w (domain domains x)
                      /\ ~ has_partner domains y ix iy w))
  /\ (revise_safe cw domains x y ->
      exists revised domains', revise cw domains x y = Ok (revised, domains')).
Proof.
  split; [apply revise_no_overlap|]. split; [|apply revise_total].
  intros ix iy revised domains'. apply revise_spec.
Qed.

Lemma revise_removes_unsupported_witness :
  In "CAT" (domain [(across_B, ["CAT"]); (down_B, ["TIE"; "BAT"])] across_B)
  <-> In "CAT" (domain pruned_B across_B)
      /\ has_partner pruned_B down_B 1 1 "CAT".
Proof.
  apply (proj1 (proj1 (proj2 (revise_removes_unsupported
                                scenario_B pruned_B across_B down_B))
                      1 1 true
                      [(across_B, ["CAT"]); (down_B, ["TIE"; "BAT"])]
                      eq_refl eq_refl)).
Defined.

(** ** Node consistency *)

Lemma keys_enforce (domains : Domains) :
  keys (enforce_node_consistency domains) = keys domains.
Proof.
  unfold enforce_node_consistency, keys. rewrite map_map.
  apply map_ext. intros [key s]. reflexivity.
Qed.

Lemma get_enforce (domains : Domains) (x : Var.t) :
  get Var.eq_dec (enforce_node_consistency domains) x =
  option_map
    (fun s => remove_each
                (filter (fun value =>
                           negb (Var.length x =? String.length value)) s) s)
    (get Var.eq_dec domains x).
Proof.
  induction domains as [|[key s] rest IH]; simpl; [reflexivity|].
  destruct (Var.eq_dec x key) as [E|E]; [subst; reflexivity|exact IH].
Qed.

Lemma in_domain_enforce (domains : Domains) (x : Var.t) (w : string) :
  In w (domain (enforce_node_consistency domains) x) <->
  In w (domain domains x) /\ String.length w = Var.length x.
Proof.
  unfold domain. rewrite get_enforce.
  destruct (get Var.eq_dec domains x) as [s|]; simpl; [|tauto].
  rewrite in_remove_each, filter_In.
  destruct (Nat.eqb_spec (Var.length x) (String.length w)) as [E|E]; simpl.
  - split; [intros [H _]; auto|intros [H _]; split; [assumption|]].
    intros [_ F]; discriminate.
  - split; [intros [H N]; exfalso; apply N; auto|intros [_ F]; congruence].
Qed.

Lemma enforce_node_consistent (domains : Domains) :
  node_consistent (enforce_node_consistency domains).
Proof. intros x w H. apply in_domain_enforce in H. tauto. Qed.

Lemma enforce_shrinks (domains : Domains) :
  shrinks domains (enforce_node_consistency domains).
Proof.
  split; [apply keys_enforce|].
  intros x w H. apply in_domain_enforce in H. tauto.
Qed.

Lemma shrinks_refl (domains : Domains) : shrinks domains domains.
Proof. split; auto. Qed.

Lemma shrinks_trans (a b c : Domains) :
  shrinks a b -> shrinks b c -> shrinks a c.
Proof.
  intros [K1 S1] [K2 S2]. split; [congruence|]. intros x w H. auto.
Qed.

Lemma shrinks_node_consistent (before after : Domains) :
  shrinks before after -> node_consistent before -> node_consistent after.
Proof. intros [_ S] NC x w H. apply NC, S, H. Qed.

Lemma node_consistent_safe (cw : Crossword) (domains : Domains) (x y : Var.t) :
  overlaps_in_range cw -> node_consistent domains ->
  In x (keys domains) -> In y (keys domains) ->
  revise_safe cw domains x y.
Proof.
  intros Hr NC Hx Hy ix iy Ho. destruct (Hr _ _ _ _ Ho) as [Bx By].
  repeat split; try assumption.
  - intros w Hw. rewrite (NC _ _ Hw). assumption.
  - intros w Hw. rewrite (NC _ _ Hw). assumption.
Qed.

Lemma has_support_false_indexed (letter : ascii) (iy : nat)
      (dy : list string) :
  has_support letter iy dy = Ok false ->
  forall w', In w' dy -> iy < String.length w'.
Proof.
  induction dy as [|valuey rest IH]; simpl; intros H w' Hin; [tauto|].
  ok_inv H. apply index_ok in Hm.
  destruct (Ascii.eqb a letter); [discriminate|].
  destruct Hin as [<-|Hin]; [|auto].
  apply (get_some_in_range _ _ _ Hm).
Qed.

Lemma has_support_raises (letter : ascii) (iy : nat) (dy : list string) :
  has_support letter iy dy = Raise IndexError
  \/ exists b, has_support letter iy dy = Ok b.
Proof.
  induction dy as [|valuey dy IH]; simpl; [eauto|].
  unfold index. destruct (String.get iy valuey) as [c|]; simpl; [|auto].
  destruct (Ascii.eqb c letter); eauto.
Qed.

(** A word of [Domain[x]] that is too short for the overlap index makes
    [revise] raise. *)
Lemma unsupported_short_word (domains : Domains) (y : Var.t) (ix iy : nat)
      (dx : list string) (w : string) :
  In y (keys domains) -> In w dx -> String.length w <= ix ->
  unsupported domains y ix iy dx = Raise IndexError.
Proof.
  intros Hy. induction dx as [|valuex rest IH]; simpl; intros Hin Hlen; [tauto|].
  unfold index at 1. destruct (String.get ix valuex) as [c|] eqn:Hc; [|reflexivity].
  simpl. rewrite (domain_of_key _ _ Hy). simpl.
  assert (Hrest : In w rest).
  { destruct Hin as [<-|Hin]; [|assumption].
    apply get_some_in_range in Hc. lia. }
  destruct (has_support_raises c iy (domain domains y)) as [->|[b ->]];
    [reflexivity|].
  simpl. rewrite (IH Hrest Hlen). reflexivity.
Qed.

(** A word of [Domain[x]] without a partner makes [revise] index every word
    of [Domain[y]], so a too-short word there makes it raise. *)
Lemma unsupported_short_partner (domains : Domains) (y : Var.t) (ix iy : nat)
      (dx : list string) (w w' : string) :
  In y (keys domains) ->
  In w dx -> ~ has_partner domains y ix iy w ->
  In w' (domain domains y) -> String.length w' <= iy ->
  unsupported domains y ix iy dx = Raise IndexError.
Proof.
  intros Hy Hin Hnp Hw' Hlen.
  induction dx as [|valuex rest IH]; simpl; [destruct Hin|].
  unfold index at 1.
  destruct (String.get ix valuex) as [c|] eqn:Hc; [|reflexivity].
  simpl. rewrite (domain_of_key _ _ Hy). simpl.
  destruct (has_support_raises c iy (domain domains y)) as [->|[b Hb]];
    [reflexivity|].
  rewrite Hb. simpl.
  destruct Hin as [->|Hin].
  - exfalso. destruct b.
    + apply has_support_true in Hb. destruct Hb as (p & Hp & Hg).
      apply Hnp. exists c, p. auto.
    + pose proof (has_support_false_indexed _ _ _ Hb w' Hw'). lia.
  - rewrite (IH Hin). reflexivity.
Qed.

(** The inner loop returns exactly when every word it meets is long
    enough; otherwise it raises [IndexError]. *)
Lemma has_support_in_range (letter : ascii) (iy : nat) (dy : list string)
      (b : bool) :
  has_support letter iy dy = Ok b -> scan_in_range iy letter dy.
Proof.
  revert b. induction dy as [|valuey rest IH]; intros b H pre w' post E Hpre.
  - destruct pre; discriminate.
  - simpl in H. ok_inv H. apply index_ok in Hm.
    destruct pre as [|p pre].
    + simpl in E. inversion E; subst. apply (get_some_in_range _ _ _ Hm).
    + simpl in E. inversion E; subst p rest.
      destruct (Ascii.eqb a letter) eqn:Eq.
      * apply Ascii.eqb_eq in Eq. subst a.
        exfalso. apply (Hpre valuey); [left; reflexivity|exact Hm].
      * apply (IH b H pre w' post eq_refl).
        intros p Hp. apply Hpre. right. exact Hp.
Qed.

Lemma has_support_out_of_range (letter : ascii) (iy : nat) (dy : list string) :
  has_support letter iy dy = Raise IndexError -> ~ scan_in_range iy letter dy.
Proof.
  induction dy as [|valuey rest IH]; simpl; intros H Hscan; [discriminate|].
  unfold index in H. destruct (String.get iy valuey) as [c|] eqn:Hc.
  - simpl in H. destruct (Ascii.eqb c letter) eqn:Eq; [discriminate|].
    apply (IH H). intros pre w' post E Hpre.
    apply (Hscan (valuey :: pre) w' post); [rewrite E; reflexivity|].
    intros p [<-|Hp]; [|auto].
    rewrite Hc. intros F. inversion F; subst.
    rewrite Ascii.eqb_refl in Eq. discriminate.
  - pose proof (Hscan [] valuey rest eq_refl (fun _ F => match F with end))
      as Hlen.
    destruct (get_in_range valuey iy Hlen) as [c' Hc']. congruence.
Qed.

Lemma has_support_scan (letter : ascii) (iy : nat) (dy : list string) :
  scan_in_range iy letter dy -> exists b, has_support letter iy dy = Ok b.
Proof.
  intros Hscan.
  destruct (has_support_raises letter iy dy) as [H|H]; [|exact H].
  exfalso. exact (has_support_out_of_range _ _ _ H Hscan).
Qed.

(** The outer loop, likewise. *)
Lemma unsupported_raises (domains : Domains) (y : Var.t) (ix iy : nat)
      (dx : list string) :
  In y (keys domains) ->
  unsupported domains y ix iy dx = Raise IndexError
  \/ exists toRemove, unsupported domains y ix iy dx = Ok toRemove.
Proof.
  intros Hy. induction dx as [|valuex rest IH]; simpl; [eauto|].
  unfold index. destruct (String.get ix valuex) as [c|]; simpl; [|auto].
  rewrite (domain_of_key _ _ Hy). simpl.
  destruct (has_support_raises c iy (domain domains y)) as [->|[b ->]];
    simpl; [auto|].
  destruct IH as [->|[r ->]]; simpl; eauto.
Qed.

Lemma unsupported_in_range (domains : Domains) (y : Var.t) (ix iy : nat)
      (dx toRemove : list string) :
  In y (keys domains) ->
  unsupported domains y ix iy dx = Ok toRemove ->
  forall w, In w dx ->
            exists c, String.get ix w = Some c
                      /\ scan_in_range iy c (domain domains y).
Proof.
  intros Hy. revert toRemove.
  induction dx as [|valuex rest IH]; intros toRemove H w Hin; [destruct Hin|].
  simpl in H. rewrite (domain_of_key _ _ Hy) in H. ok_inv H.
  apply index_ok in Hm. inversion Hm0; subst a0.
  destruct Hin as [<-|Hin].
  - exists a. split; [exact Hm|]. apply (has_support_in_range _ _ _ _ Hm1).
  - apply (IH _ Hm2 w Hin).
Qed.

Lemma unsupported_scan (domains : Domains) (y : Var.t) (ix iy : nat)
      (dx : list string) :
  In y (keys domains) ->
  (forall w, In w dx ->
             exists c, String.get ix w = Some c
                       /\ scan_in_range iy c (domain domains y)) ->
  exists toRemove, unsupported domains y ix iy dx = Ok toRemove.
Proof.
  intros Hy. induction dx as [|valuex rest IH]; intros H; simpl; [eauto|].
  destruct (H valuex (or_introl eq_refl)) as (c & Hc & Hscan).
  rewrite (proj2 (index_ok valuex ix c) Hc). simpl.
  rewrite (domain_of_key _ _ Hy). simpl.
  destruct (has_support_scan c iy _ Hscan) as [b ->]. simpl.
  destruct IH as [r ->]; [intros w Hw; apply H; right; exact Hw|].
  simpl. eauto.
Qed.

(** When [revise] returns and when it raises, on a constrained arc between
    two keys of the store. *)
Lemma revise_exact (cw : Crossword) (domains : Domains) (x y : Var.t)
      (ix iy : nat) :
  overlaps cw x y = Some (ix, iy) ->
  In x (keys domains) -> In y (keys domains) ->
  ((exists revised domains', revise cw domains x y = Ok (revised, domains'))
   <-> revise_in_range domains x y ix iy)
  /\ (~ revise_in_range domains x y ix iy ->
      revise cw domains x y = Raise IndexError).
Proof.
  intros Ho Hx Hy.
  assert (Hok : revise_in_range domains x y ix iy ->
                exists revised domains',
                  revise cw domains x y = Ok (revised, domains')).
  { intros Hr. unfold revise. rewrite Ho, (domain_of_key _ _ Hx). simpl.
    destruct (unsupported_scan domains y ix iy _ Hy Hr) as [r ->].
    simpl. eauto. }
  assert (Hin : forall revised domains',
             revise cw domains x y = Ok (revised, domains') ->
             revise_in_range domains x y ix iy).
  { intros revised domains' H.
    destruct (revise_ok_inv _ _ _ _ _ _ _ _ Ho H) as (dx & rem & Hdx & Hu & _).
    rewrite <- (domain_get _ _ _ Hdx) in Hu.
    exact (unsupported_in_range _ _ _ _ _ _ Hy Hu). }
  split; [split; [intros (revised & domains' & H); eauto|exact Hok]|].
  intros Hn. unfold revise. rewrite Ho, (domain_of_key _ _ Hx). simpl.
  destruct (unsupported_raises domains y ix iy (domain domains x) Hy)
    as [->|[r Hr]]; [reflexivity|].
  exfalso. apply Hn. exact (unsupported_in_range _ _ _ _ _ _ Hy Hr).
Qed.

(** C10 as stated fails: the scan of [Domain[y]] stops at the first match.
    On the raw store of [short_partner] the word ["BA"] of [Domain[y]] is
    not longer than [iy = 2], so the stated precondition does not hold, and
    [revise] returns [False] without raising: ["AAA"] comes first and
    matches both words of [Domain[x]]. *)
Lemma revise_index_counterexample :
  overlaps short_partner across_low down_B = Some (1, 2)
  /\ In "BA" (domain (init_domains short_partner) down_B)
  /\ String.length "BA" <= 2
  /\ ~ revise_safe short_partner (init_domains short_partner)
                   across_low down_B
  /\ revise short_partner (init_domains short_partner) across_low down_B
     = Ok (false, init_domains short_partner).
Proof.
  split; [reflexivity|]. split; [simpl; auto|]. split; [simpl; lia|].
  split; [|reflexivity].
  intros Hs. destruct (Hs 1 2 eq_refl) as (_ & _ & _ & Hy).
  specialize (Hy "BA"). simpl in Hy.
  assert (2 < 2) by (apply Hy; auto). lia.
Qed.

(** C10 (amended): [revise] indexes without a bounds check.  It returns
    normally when every word of [Domain[x]] is longer than [ix] and every
    word of [Domain[y]] is longer than [iy]; node consistency (with overlap
    indices inside the variables' lengths) establishes that, and on the raw
    store of an unfiltered vocabulary the call can raise.  That precondition
    is sufficient, not necessary: the scan of [Domain[y]] stops at the first
    match.  A word of [Domain[x]] that is not longer than [ix] always makes
    the call raise [IndexError]; a word of [Domain[y]] that is not longer
    than [iy] does so when some word of [Domain[x]] has no partner.  Exactly:
    on an arc between two keys of the store, [revise] returns if and only if
    every word of [Domain[x]] is longer than [ix] and every word of
    [Domain[y]] that no match precedes is longer than [iy]; otherwise it
    raises [IndexError]. *)
Theorem revise_index_safety :
  (forall cw domains x y,
      revise_safe cw domains x y ->
      exists revised domains', revise cw domains x y = Ok (revised, domains'))
  /\ (forall cw domains x y ix iy w,
         overlaps cw x y = Some (ix, iy) ->
         In x (keys domains) -> In y (keys domains) ->
         In w (domain domains x) -> String.length w <= ix ->
         revise cw domains x y = Raise IndexError)
  /\ (forall cw domains x y ix iy w w',
         overlaps cw x y = Some (ix, iy) ->
         In x (keys domains) -> In y (keys domains) ->
         In w (domain domains x) -> ~ has_partner domains y ix iy w ->
         In w' (domain domains y) -> String.length w' <= iy ->
         revise cw domains x y = Raise IndexError)
  /\ (forall cw domains x y,
         overlaps_in_range cw ->
         In x (keys domains) -> In y (keys domains) ->
         revise_safe cw (enforce_node_consistency domains) x y)
  /\ revise raw_B (init_domains raw_B) across_B down_B = Raise IndexError
  /\ (forall cw domains x y ix iy,
         overlaps cw x y = Some (ix, iy) ->
         In x (keys domains) -> In y (keys domains) ->
         ((exists revised domains',
              revise cw domains x y = Ok (revised, domains'))
          <-> revise_in_range domains x y ix iy)
         /\ (~ revise_in_range domains x y ix iy ->
             revise cw domains x y = Raise IndexError)).
Proof.
  split; [exact revise_total|].
  split; [|split; [|split; [|split; [reflexivity|exact revise_exact]]]].
  - intros cw domains x y ix iy w Ho Hx Hy Hw Hlen.
    unfold revise. rewrite Ho. rewrite (domain_of_key _ _ Hx). simpl.
    rewrite (unsupported_short_word domains y ix iy _ w Hy Hw Hlen).
    reflexivity.
  - intros cw domains x y ix iy w w' Ho Hx Hy Hw Hnp Hw' Hlen.
    unfold revise. rewrite Ho. rewrite (domain_of_key _ _ Hx). simpl.
    rewrite (unsupported_short_partner domains y ix iy _ w w' Hy Hw Hnp Hw' Hlen).
    reflexivity.
  - intros cw domains x y Hr Hx Hy.
    apply node_consistent_safe; try assumption.
    + apply enforce_node_consistent.
    + rewrite keys_enforce. assumption.
    + rewrite keys_enforce. assumption.
Qed.

(** ** Size of the store and the effect of one revision *)

Lemma result_not_fuel_bind {A B : Type} (m : result A) (k : A -> result B) :
  m <> OutOfFuel -> (forall a, k a <> OutOfFuel) -> bind m k <> OutOfFuel.
Proof. destruct m; simpl; intros H K; [apply K|discriminate|congruence]. Qed.

Lemma index_not_fuel (s : string) (n : nat) : index s n <> OutOfFuel.
Proof. unfold index. destruct (String.get n s); discriminate. Qed.

Lemma domain_of_not_fuel (domains : Domains) (x : Var.t) :
  domain_of domains x <> OutOfFuel.
Proof.
  unfold domain_of, lookup. destruct (get Var.eq_dec domains x); discriminate.
Qed.

Lemma has_support_not_fuel (letter : ascii) (iy : nat) (dy : list string) :
  has_support letter iy dy <> OutOfFuel.
Proof.
  induction dy as [|valuey rest IH]; simpl; [discriminate|].
  apply result_not_fuel_bind; [apply index_not_fuel|].
  intros c. destruct (Ascii.eqb c letter); [discriminate|assumption].
Qed.

Lemma unsupported_not_fuel (domains : Domains) (y : Var.t) (ix iy : nat)
      (dx : list string) :
  unsupported domains y ix iy dx <> OutOfFuel.
Proof.
  induction dx as [|valuex rest IH]; simpl; [discriminate|].
  apply result_not_fuel_bind; [apply index_not_fuel|]. intros c.
  apply result_not_fuel_bind; [apply domain_of_not_fuel|]. intros dy.
  apply result_not_fuel_bind; [apply has_support_not_fuel|]. intros b.
  apply result_not_fuel_bind; [assumption|]. intros r. discriminate.
Qed.

Lemma revise_not_fuel (cw : Crossword) (domains : Domains) (x y : Var.t) :
  revise cw domains x y <> OutOfFuel.
Proof.
  unfold revise. destruct (overlaps cw x y) as [[ix iy]|]; [|discriminate].
  apply result_not_fuel_bind; [apply domain_of_not_fuel|]. intros dx.
  apply result_not_fuel_bind; [apply unsupported_not_fuel|]. intros r.
  discriminate.
Qed.

Lemma set_same (domains : Domains) (x : Var.t) (s : list string) :
  get Var.eq_dec domains x = Some s -> set Var.eq_dec domains x s = domains.
Proof.
  induction domains as [|[k v] rest IH]; simpl; [discriminate|].
  destruct (Var.eq_dec x k) as [E|E]; intros H.
  - inversion H; subst. reflexivity.
  - rewrite (IH H). reflexivity.
Qed.

Lemma total_size_set (domains : Domains) (x : Var.t) (s s' : list string) :
  get Var.eq_dec domains x = Some s ->
  total_size (set Var.eq_dec domains x s') + List.length s =
  total_size domains + List.length s'.
Proof.
  unfold total_size.
  induction domains as [|[k v] rest IH]; simpl; [discriminate|].
  destruct (Var.eq_dec x k) as [E|E]; intros H; simpl.
  - inversion H; subst. lia.
  - specialize (IH H). lia.
Qed.

Lemma length_set_remove (value : string) (s : list string) :
  List.length (set_remove value s) <= List.length s.
Proof. apply remove_length_le. Qed.

Lemma length_remove_each (toRemove s : list string) :
  List.length (remove_each toRemove s) <= List.length s.
Proof.
  unfold remove_each. revert s.
  induction toRemove as [|v rest IH]; intros s; simpl; [lia|].
  specialize (IH (set_remove v s)). pose proof (length_set_remove v s). lia.
Qed.

Lemma length_remove_each_lt (toRemove s : list string) (w : string) :
  In w toRemove -> In w s ->
  List.length (remove_each toRemove s) < List.length s.
Proof.
  intros Hr Hs.
  assert (H : ~ In w (remove_each toRemove s)).
  { rewrite in_remove_each. tauto. }
  unfold remove_each in *. revert s Hs H.
  induction toRemove as [|v rest IH]; intros s Hs H; simpl in *; [tauto|].
  destruct (string_dec v w) as [E|E].
  - subst v. pose proof (length_remove_each rest (set_remove w s)) as L.
    unfold remove_each in L.
    pose proof (remove_length_lt string_dec s w Hs) as L'.
    unfold set_remove in *. lia.
  - destruct Hr as [Hr|Hr]; [congruence|].
    pose proof (length_set_remove v s) as L.
    assert (Hs' : In w (set_remove v s)) by (apply in_set_remove; auto).
    specialize (IH Hr _ Hs' H). lia.
Qed.

(** One call of [revise]: nothing is added; [false] means the store is the
    same and the arc is consistent; [true] means a word was removed. *)
Lemma revise_effect (cw : Crossword) (domains domains' : Domains)
      (x y : Var.t) (revised : bool) :
  revise cw domains x y = Ok (revised, domains') ->
  shrinks domains domains'
  /\ (forall z, z <> x -> domain domains' z = domain domains z)
  /\ (if revised
      then total_size domains' < total_size domains
           /\ domain domains x <> [] /\ In x (keys domains)
      else domains' = domains).
Proof.
  intros H. destruct (overlaps cw x y) as [[ix iy]|] eqn:Ho.
  - destruct (revise_ok_inv _ _ _ _ _ _ _ _ Ho H)
      as (dx & rem & Hx & Hu & -> & ->).
    destruct (unsupported_spec _ _ _ _ _ _ Hu) as [Hsub _].
    assert (Hk : In x (keys domains)) by (apply (get_in_keys Var.eq_dec); eauto).
    split; [split|split].
    + apply keys_set_present. assumption.
    + intros z w. destruct (Var.eq_dec z x) as [->|N].
      * rewrite domain_set_eq, (domain_get _ _ _ Hx), in_remove_each. tauto.
      * rewrite domain_set_neq by assumption. auto.
    + intros z N. apply domain_set_neq. assumption.
    + destruct rem as [|w rem]; cbn [negb Nat.eqb List.length].
      * rewrite remove_each_nil. apply set_same. assumption.
      * assert (Hin : In w dx) by (apply Hsub; simpl; auto).
        pose proof (length_remove_each_lt (w :: rem) dx w
                      (or_introl eq_refl) Hin) as L.
        pose proof (total_size_set domains x dx
                      (remove_each (w :: rem) dx) Hx) as T.
        rewrite (domain_get _ _ _ Hx).
        repeat split; [lia| |assumption].
        intros ->. destruct Hin.
  - rewrite (revise_no_overlap _ _ _ _ Ho) in H. inversion H; subst.
    split; [apply shrinks_refl|]. split; auto.
Qed.

Lemma revise_shrinks (cw : Crossword) (domains domains' : Domains)
      (x y : Var.t) (revised : bool) :
  revise cw domains x y = Ok (revised, domains') -> shrinks domains domains'.
Proof. intros H. apply (revise_effect _ _ _ _ _ _ H). Qed.

(** ** The propagation loop *)

(** Induction over the successful runs of the [while queue] loop: the queue
    is empty; the arc needed no revision; the revision emptied a domain; the
    revision removed words and the neighbouring arcs were appended. *)
Lemma ac3_loop_ind (cw : Crossword)
      (P : Domains -> list Arc -> nat -> bool -> Domains -> Prop) :
  (forall d changes, P d [] changes (negb (changes =? 0)) d) ->
  (forall d arc queue changes ret d',
      revise cw d (fst arc) (snd arc) = Ok (false, d) ->
      P d queue changes ret d' -> P d (arc :: queue) changes ret d') ->
  (forall d arc queue changes d1,
      revise cw d (fst arc) (snd arc) = Ok (true, d1) ->
      In (fst arc) (keys d1) -> domain d1 (fst arc) = [] ->
      P d (arc :: queue) changes false d1) ->
  (forall d arc queue changes d1 ret d',
      revise cw d (fst arc) (snd arc) = Ok (true, d1) ->
      domain d1 (fst arc) <> [] ->
      P d1 (push_all (arcs_around cw (fst arc)) queue) (changes + 1) ret d' ->
      P d (arc :: queue) changes ret d') ->
  forall fuel d queue changes ret d',
    ac3_loop cw fuel d queue changes = Ok (ret, d') -> P d queue changes ret d'.
Proof.
  intros Hbase Hskip Hexit Hpush.
  induction fuel as [|fuel IH]; intros d queue changes ret d' H; simpl in H;
    [discriminate|].
  destruct queue as [|arc queue].
  - inversion H; subst. apply Hbase.
  - apply bind_ok in H. destruct H as ([revised d1] & Hrev & H).
    destruct revised.
    + apply bind_ok in H. destruct H as (dx & Hdx & H).
      apply domain_of_ok in Hdx.
      assert (Hk : In (fst arc) (keys d1))
        by (apply (get_in_keys Var.eq_dec); eauto).
      pose proof (domain_get _ _ _ Hdx) as Hd.
      destruct dx as [|w dx]; simpl in H.
      * inversion H; subst. apply Hexit; assumption.
      * apply (Hpush _ _ _ _ d1); [assumption| |apply IH; assumption].
        rewrite Hd. discriminate.
    + pose proof (revise_effect _ _ _ _ _ _ Hrev) as (_ & _ & E).
      simpl in E. subst d1. apply Hskip; [assumption|apply IH; assumption].
Qed.

Lemma length_neighbors (cw : Crossword) (x : Var.t) :
  List.length (neighbors cw x) <= List.length (variables cw).
Proof. unfold neighbors. apply filter_length_le. Qed.

Lemma length_arcs_around (cw : Crossword) (x : Var.t) :
  List.length (arcs_around cw x) <= 2 * List.length (variables cw).
Proof.
  unfold arcs_around. pose proof (length_neighbors cw x) as L.
  assert (E : forall ns : list Var.t,
             List.length (flat_map (fun n => [(n, x); (x, n)]) ns)
             = 2 * List.length ns).
  { induction ns as [|n ns IH]; simpl in *; lia. }
  rewrite E. lia.
Qed.

(** The fuel computed by [ac3_fuel] is never exhausted. *)
Lemma ac3_loop_fuel (cw : Crossword) :
  forall fuel d queue changes,
    List.length queue + total_size d * (2 * List.length (variables cw)) < fuel ->
    ac3_loop cw fuel d queue changes <> OutOfFuel.
Proof.
  induction fuel as [|fuel IH]; intros d queue changes Hf; [lia|].
  simpl. destruct queue as [|arc queue]; [discriminate|].
  destruct (revise cw d (fst arc) (snd arc)) as [[revised d1]| |] eqn:Hrev;
    simpl; [|discriminate|exfalso; exact (revise_not_fuel _ _ _ _ Hrev)].
  pose proof (revise_effect _ _ _ _ _ _ Hrev) as (_ & _ & E).
  destruct revised.
  - destruct E as (Hlt & _).
    apply result_not_fuel_bind; [apply domain_of_not_fuel|]. intros dx.
    destruct (List.length dx =? 0); [discriminate|].
    apply IH. unfold push_all. rewrite length_app, length_rev.
    pose proof (length_arcs_around cw (fst arc)). simpl in Hf. nia.
  - subst d1. apply IH. simpl in Hf. lia.
Qed.

Lemma ac3_not_fuel (cw : Crossword) (domains : Domains)
      (arcs : option (list Arc)) :
  ac3 cw domains arcs <> OutOfFuel.
Proof.
  unfold ac3. apply ac3_loop_fuel. unfold ac3_fuel. lia.
Qed.

Lemma ac3_loop_shrinks (cw : Crossword) :
  forall fuel d queue changes ret d',
    ac3_loop cw fuel d queue changes = Ok (ret, d') ->
    shrinks d d' /\ total_size d' <= total_size d.
Proof.
  apply (ac3_loop_ind cw (fun d _ _ _ d' =>
                            shrinks d d' /\ total_size d' <= total_size d)).
  - intros d _. split; [apply shrinks_refl|lia].
  - auto.
  - intros d arc queue _ d1 Hrev _ _.
    pose proof (revise_effect _ _ _ _ _ _ Hrev) as (S & _ & L & _).
    split; [assumption|lia].
  - intros d arc queue changes d1 ret d' Hrev _ [S' L'].
    pose proof (revise_effect _ _ _ _ _ _ Hrev) as (S & _ & L & _).
    split; [apply (shrinks_trans _ _ _ S S')|lia].
Qed.

Lemma ac3_shrinks (cw : Crossword) (domains domains' : Domains)
      (arcs : option (list Arc)) (ret : bool) :
  ac3 cw domains arcs = Ok (ret, domains') -> shrinks domains domains'.
Proof. intros H. apply (ac3_loop_shrinks _ _ _ _ _ _ _ H). Qed.

(** What the loop returns, in terms of the stores before and after. *)
Lemma ac3_loop_return (cw : Crossword) :
  forall fuel d queue changes ret d',
    ac3_loop cw fuel d queue changes = Ok (ret, d') ->
    total_size d' <= total_size d
    /\ (ret = true ->
        (0 < changes \/ total_size d' < total_size d) /\ none_emptied d d')
    /\ (ret = false ->
        (changes = 0 /\ d' = d) \/ ~ none_emptied d d').
Proof.
  apply (ac3_loop_ind cw (fun d _ changes ret d' =>
    total_size d' <= total_size d
    /\ (ret = true ->
        (0 < changes \/ total_size d' < total_size d) /\ none_emptied d d')
    /\ (ret = false ->
        (changes = 0 /\ d' = d) \/ ~ none_emptied d d'))).
  - intros d changes. split; [lia|]. split; intros H.
    + split; [|intros x Hx; exact Hx].
      left. destruct changes; [discriminate|lia].
    + left. split; [|reflexivity]. destruct changes; [reflexivity|discriminate].
  - auto.
  - intros d arc queue changes d1 Hrev _ Hempty.
    pose proof (revise_effect _ _ _ _ _ _ Hrev) as (_ & _ & L & Hne & _).
    split; [lia|]. split; [discriminate|]. intros _. right.
    intros Hn. exact (Hn _ Hne Hempty).
  - intros d arc queue changes d1 ret d' Hrev Hne1 (L' & Ht & Hf).
    pose proof (revise_effect _ _ _ _ _ _ Hrev) as ([_ S] & Hsame & L & _).
    split; [lia|]. split; intros Hret.
    + destruct (Ht Hret) as [_ Hn]. split; [right; lia|].
      intros x Hx. apply Hn.
      destruct (Var.eq_dec x (fst arc)) as [->|N]; [assumption|].
      rewrite Hsame; assumption.
    + destruct (Hf Hret) as [[F _]|Hn]; [lia|]. right.
      intros Hn'. apply Hn. intros x Hx. apply Hn'.
      destruct (domain d1 x) as [|w rest] eqn:E; [congruence|].
      intros E'. specialize (S x w). rewrite E, E' in S. apply S. simpl; auto.
Qed.

(** C7 as stated fails: on [clash] the first revision empties a domain, so a
    domain changed, and [ac3] returns false. *)
Lemma ac3_return_counterexample :
  ac3 clash (enforce_node_consistency (init_domains clash)) None
  = Ok (false, [(across_B, []); (down_4, ["DOGS"])])
  /\ [(across_B, []); (down_4, ["DOGS"])]
     <> enforce_node_consistency (init_domains clash).
Proof. split; [reflexivity|discriminate]. Qed.

(** C7 (amended): [ac3] always returns or raises; it returns true exactly
    when some domain changed and no domain was driven empty.  A run that
    empties a domain returns false although a domain changed, and a run that
    changes nothing returns false. *)
Theorem ac3_return_value (cw : Crossword) (domains : Domains)
        (arcs : option (list Arc)) :
  ac3 cw domains arcs <> OutOfFuel
  /\ forall ret domains',
      ac3 cw domains arcs = Ok (ret, domains') ->
      (ret = true <-> domains' <> domains /\ none_emptied domains domains').
Proof.
  split; [apply ac3_not_fuel|]. intros ret domains' H.
  destruct (ac3_loop_return _ _ _ _ _ _ _ H) as (_ & Ht & Hf).
  split.
  - intros Hret. destruct (Ht Hret) as [[F|L] Hn]; [lia|].
    split; [|assumption]. intros ->. lia.
  - intros [Hd Hn]. destruct ret; [reflexivity|].
    destruct (Hf eq_refl) as [[_ E]|N]; [congruence|tauto].
Qed.

Lemma ac3_return_value_witness :
  true = true <->
  [(across_B, ["CAT"]); (down_B, ["BAT"])] <> pruned_B
  /\ none_emptied pruned_B [(across_B, ["CAT"]); (down_B, ["BAT"])].
Proof.
  apply (proj2 (ac3_return_value scenario_B pruned_B None)).
  reflexivity.
Defined.

(** ** Arc consistency after propagation *)

Lemma in_push_all (new queue : list Arc) (arc : Arc) :
  In arc (push_all new queue) <-> In arc new \/ In arc queue.
Proof. unfold push_all. rewrite in_app_iff, <- in_rev. tauto. Qed.

Lemma in_neighbors (cw : Crossword) (x v : Var.t) :
  In v (neighbors cw x) <->
  In v (variables cw) /\ v <> x /\ overlaps cw v x <> None.
Proof.
  unfold neighbors. rewrite filter_In.
  destruct (Var.eq_dec v x) as [E|E].
  - split; [intros [_ F]; discriminate|tauto].
  - destruct (overlaps cw v x); simpl; split; intros H;
      repeat split; try tauto; try discriminate.
    destruct H as [_ F]. discriminate.
Qed.

Lemma in_arcs_around (cw : Crossword) (x : Var.t) (arc : Arc) :
  In arc (arcs_around cw x) <->
  exists n, In n (neighbors cw x) /\ (arc = (n, x) \/ arc = (x, n)).
Proof.
  unfold arcs_around. rewrite in_flat_map. split.
  - intros (n & Hn & [E|[E|[]]]); eauto.
  - intros (n & Hn & [E|E]); exists n; simpl; auto.
Qed.

Lemma in_all_arcs (cw : Crossword) (domains : Domains) (arc : Arc) :
  In arc (all_arcs cw domains) <->
  exists v n, In v (keys domains) /\ In n (neighbors cw v)
              /\ (arc = (v, n) \/ arc = (n, v)).
Proof.
  unfold all_arcs. rewrite in_flat_map. split.
  - intros (v & Hv & H). apply in_flat_map in H.
    destruct H as (n & Hn & [E|[E|[]]]); eauto 6.
  - intros (v & n & Hv & Hn & E). exists v. split; [assumption|].
    apply in_flat_map. exists n. simpl. intuition auto.
Qed.

Lemma ac3_loop_returns (cw : Crossword) :
  overlaps_in_range cw ->
  forall fuel d queue changes,
    node_consistent d ->
    (forall v, In v (variables cw) -> In v (keys d)) ->
    Forall (fun arc : Arc => In (fst arc) (keys d) /\ In (snd arc) (keys d))
           queue ->
    List.length queue + total_size d * (2 * List.length (variables cw)) < fuel ->
    exists ret d', ac3_loop cw fuel d queue changes = Ok (ret, d').
Proof.
  intros Hr. induction fuel as [|fuel IH]; intros d queue changes NC Hv Hq Hf;
    [lia|].
  simpl. destruct queue as [|arc queue]; [eauto|].
  inversion Hq as [|? ? [Hx Hy] Hq']; subst.
  destruct (revise_total cw d (fst arc) (snd arc)
              (node_consistent_safe cw d _ _ Hr NC Hx Hy))
    as (revised & d1 & Hrev).
  rewrite Hrev. simpl.
  pose proof (revise_effect _ _ _ _ _ _ Hrev) as (S & _ & E).
  assert (NC1 : node_consistent d1)
    by (apply (shrinks_node_consistent d); assumption).
  destruct S as [Hk _].
  destruct revised.
  - destruct E as (Hlt & _).
    rewrite (domain_of_key d1 (fst arc)) by (rewrite Hk; assumption). simpl.
    destruct (List.length (domain d1 (fst arc)) =? 0); [eauto|].
    apply IH; try assumption.
    + rewrite Hk. assumption.
    + rewrite Hk. unfold push_all. apply Forall_app. split; [|assumption].
      apply Forall_rev. apply Forall_forall. intros a Ha.
      apply in_arcs_around in Ha. destruct Ha as (n & Hn & Ea).
      apply in_neighbors in Hn. destruct Hn as (Hn & _).
      destruct Ea as [->| ->]; simpl; auto.
    + unfold push_all. rewrite length_app, length_rev.
      pose proof (length_arcs_around cw (fst arc)). simpl in Hf. nia.
  - subst d1. apply IH; try assumption. simpl in Hf. lia.
Qed.

(** On a store whose keys are the variables, [ac3] after
    [enforce_node_consistency] returns. *)
Lemma ac3_after_node_consistency_returns (cw : Crossword) (domains : Domains) :
  overlaps_in_range cw ->
  (forall v, In v (variables cw) -> In v (keys domains)) ->
  exists ret domains',
    ac3 cw (enforce_node_consistency domains) None = Ok (ret, domains').
Proof.
  intros Hr Hv. unfold ac3. apply ac3_loop_returns; try assumption.
  - apply enforce_node_consistent.
  - rewrite keys_enforce. assumption.
  - unfold push_all. rewrite app_nil_r. apply Forall_rev.
    apply Forall_forall. intros a Ha.
    apply in_all_arcs in Ha. destruct Ha as (v & n & Hk & Hn & Ea).
    apply in_neighbors in Hn. destruct Hn as (Hn & _).
    rewrite keys_enforce in *.
    destruct Ea as [->| ->]; simpl; auto.
  - unfold ac3_fuel. lia.
Qed.

Lemma has_partner_same_domain (d d' : Domains) (y : Var.t) (ix iy : nat)
      (w : string) :
  domain d' y = domain d y ->
  has_partner d y ix iy w -> has_partner d' y ix iy w.
Proof. intros E (c & w' & H1 & H2 & H3). exists c, w'. rewrite E. auto. Qed.

Lemma revise_makes_consistent (cw : Crossword) (d d' : Domains)
      (x y : Var.t) (revised : bool) :
  x <> y -> revise cw d x y = Ok (revised, d') -> arc_consistent cw d' x y.
Proof.
  intros N H ix iy Ho w Hw.
  destruct (revise_spec _ _ _ _ _ _ _ _ Ho H) as (Hin & Hsame & _).
  apply Hin in Hw. destruct Hw as [_ P].
  apply (has_partner_same_domain d); [|assumption].
  unfold domain. rewrite Hsame by auto. reflexivity.
Qed.

Lemma covered_seed (cw : Crossword) (d : Domains) :
  covered cw d (push_all (all_arcs cw d) []).
Proof.
  intros x y Hx Hy N.
  destruct (overlaps cw x y) as [[ix iy]|] eqn:Ho.
  - left. apply in_push_all. left. apply in_all_arcs.
    exists y, x. split; [assumption|]. split; [|auto].
    apply in_neighbors. repeat split; [assumption|assumption|congruence].
  - right. intros ix iy Ho'. congruence.
Qed.

Lemma covered_skip (cw : Crossword) (d : Domains) (arc : Arc)
      (queue : list Arc) :
  revise cw d (fst arc) (snd arc) = Ok (false, d) ->
  covered cw d (arc :: queue) -> covered cw d queue.
Proof.
  intros Hrev Hc x y Hx Hy N.
  destruct (Hc x y Hx Hy N) as [[E|Hin]|Hac]; auto.
  right. subst arc. simpl in Hrev.
  apply (revise_makes_consistent cw d d x y false N Hrev).
Qed.

Lemma covered_push (cw : Crossword) (d d1 : Domains) (arc : Arc)
      (queue : list Arc) :
  revise cw d (fst arc) (snd arc) = Ok (true, d1) ->
  covered cw d (arc :: queue) ->
  covered cw d1 (push_all (arcs_around cw (fst arc)) queue).
Proof.
  intros Hrev Hc x y Hx Hy N. destruct arc as [a b]. simpl in *.
  pose proof (revise_effect _ _ _ _ _ _ Hrev) as ([Hk S] & Hsame & _).
  rewrite Hk in Hy.
  destruct (Var.eq_dec y a) as [->|Nya].
  - (* an arc into the revised variable *)
    destruct (overlaps cw x a) as [[ix iy]|] eqn:Ho.
    + left. apply in_push_all. left. apply in_arcs_around.
      exists x. split; [|auto].
      apply in_neighbors. repeat split; [assumption|assumption|congruence].
    + right. intros ix iy Ho'. congruence.
  - destruct (Hc x y Hx Hy N) as [[E|Hin]|Hac].
    + (* the arc that was just revised *)
      inversion E; subst. right.
      apply (revise_makes_consistent cw d d1 x y true N Hrev).
    + left. apply in_push_all. auto.
    + right. intros ix iy Ho w Hw.
      apply (has_partner_same_domain d); [apply Hsame; assumption|].
      apply (Hac ix iy Ho). apply S. assumption.
Qed.

Lemma ac3_loop_arc_consistent (cw : Crossword) :
  forall fuel d queue changes ret d',
    ac3_loop cw fuel d queue changes = Ok (ret, d') ->
    covered cw d queue ->
    none_emptied d d' ->
    forall x y, In x (variables cw) -> In y (keys d) -> x <> y ->
                arc_consistent cw d' x y.
Proof.
  apply (ac3_loop_ind cw (fun d queue _ _ d' =>
    covered cw d queue ->
    none_emptied d d' ->
    forall x y, In x (variables cw) -> In y (keys d) -> x <> y ->
                arc_consistent cw d' x y)).
  - intros d _ Hc _ x y Hx Hy N.
    destruct (Hc x y Hx Hy N) as [[]|Hac]. assumption.
  - intros d arc queue _ _ d' Hrev IH Hc. apply IH.
    apply (covered_skip cw d arc queue Hrev Hc).
  - intros d arc queue _ d1 Hrev _ Hempty _ Hne. exfalso.
    pose proof (revise_effect _ _ _ _ _ _ Hrev) as (_ & _ & _ & Hhad & _).
    exact (Hne _ Hhad Hempty).
  - intros d arc queue _ d1 _ d' Hrev _ IH Hc Hne x y Hx Hy N.
    pose proof (revise_effect _ _ _ _ _ _ Hrev) as ([Hk S] & _).
    apply IH; try assumption.
    + apply (covered_push cw d d1 arc queue Hrev Hc).
    + intros z Hz. apply Hne. destruct (domain d1 z) as [|w rest] eqn:E;
        [congruence|].
      intros E'. specialize (S z w). rewrite E, E' in S. apply S. simpl; auto.
    + rewrite Hk. assumption.
Qed.

(** C4: when [ac3] with the default seed returns and has driven no domain
    empty, every word left in [Domain[x]] has, for every overlap [(ix, iy)]
    with another variable [y], a word in [Domain[y]] with the same character
    at [iy]. *)
Theorem ac3_arc_consistent (cw : Crossword) (domains domains' : Domains)
        (ret : bool) :
  ac3 cw domains None = Ok (ret, domains') ->
  none_emptied domains domains' ->
  forall x y ix iy,
    In x (variables cw) -> In y (keys domains) -> x <> y ->
    overlaps cw x y = Some (ix, iy) ->
    forall w, In w (domain domains' x) -> has_partner domains' y ix iy w.
Proof.
  intros H Hne x y ix iy Hx Hy N Ho.
  apply (ac3_loop_arc_consistent cw _ _ _ _ _ _ H (covered_seed cw domains)
           Hne x y Hx Hy N ix iy Ho).
Qed.

Lemma ac3_arc_consistent_witness :
  has_partner [(across_B, ["CAT"]); (down_B, ["BAT"])] down_B 1 1 "CAT".
Proof.
  apply (ac3_arc_consistent scenario_B pruned_B
           [(across_B, ["CAT"]); (down_B, ["BAT"])] true eq_refl)
    with (x := across_B).
  - intros v. unfold domain, pruned_B. simpl.
    destruct (Var.eq_dec v across_B); [discriminate|].
    destruct (Var.eq_dec v down_B); [discriminate|auto].
  - simpl; auto.
  - simpl; auto.
  - discriminate.
  - reflexivity.
  - simpl; auto.
Defined.

(** ** Propagation keeps every solution *)

Lemma revise_keeps_solution (cw : Crossword) (d d' : Domains)
      (sol : Assignment) (arc : Arc) (revised : bool) :
  complete_consistent cw sol -> within d sol -> proper_arc cw arc ->
  revise cw d (fst arc) (snd arc) = Ok (revised, d') -> within d' sol.
Proof.
  intros (Hall & _ & _ & Hag & _) Hw (N & Hx & Hy) Hrev z w Hz.
  destruct arc as [x y]. simpl in *.
  destruct (Var.eq_dec z x) as [->|Nz].
  - destruct (overlaps cw x y) as [[ix iy]|] eqn:Ho.
    + destruct (revise_spec _ _ _ _ _ _ _ _ Ho Hrev) as (Hin & _).
      apply Hin. split; [apply Hw; assumption|].
      destruct (Hall y Hy) as [w' Hw'].
      destruct (Hag x y ix iy w w' N Ho Hz Hw') as (c & Hc & Hc').
      exists c, w'. auto.
    + rewrite (revise_no_overlap _ _ _ _ Ho) in Hrev. inversion Hrev; subst.
      apply Hw; assumption.
  - pose proof (revise_effect _ _ _ _ _ _ Hrev) as (_ & Hsame & _).
    rewrite Hsame by assumption. apply Hw; assumption.
Qed.

Lemma proper_arcs_around (cw : Crossword) (x : Var.t) :
  In x (variables cw) -> Forall (proper_arc cw) (arcs_around cw x).
Proof.
  intros Hx. apply Forall_forall. intros arc H.
  apply in_arcs_around in H. destruct H as (n & Hn & E).
  apply in_neighbors in Hn. destruct Hn as (Hn & N & _).
  destruct E as [->| ->]; repeat split; simpl; auto.
Qed.

Lemma proper_all_arcs (cw : Crossword) (d : Domains) :
  (forall x, In x (keys d) -> In x (variables cw)) ->
  Forall (proper_arc cw) (all_arcs cw d).
Proof.
  intros Hk. apply Forall_forall. intros arc H.
  apply in_all_arcs in H. destruct H as (v & n & Hv & Hn & E).
  apply in_neighbors in Hn. destruct Hn as (Hn & N & _).
  destruct E as [->| ->]; repeat split; simpl; auto.
Qed.

Lemma proper_push_all (cw : Crossword) (new queue : list Arc) :
  Forall (proper_arc cw) new -> Forall (proper_arc cw) queue ->
  Forall (proper_arc cw) (push_all new queue).
Proof.
  intros Hn Hq. unfold push_all. apply Forall_app. split; [|assumption].
  apply Forall_rev. assumption.
Qed.

Lemma ac3_loop_keeps_solution (cw : Crossword) (sol : Assignment) :
  complete_consistent cw sol ->
  forall fuel d queue changes ret d',
    ac3_loop cw fuel d queue changes = Ok (ret, d') ->
    Forall (proper_arc cw) queue -> within d sol -> within d' sol.
Proof.
  intros Hsol.
  apply (ac3_loop_ind cw (fun d queue _ _ d' =>
    Forall (proper_arc cw) queue -> within d sol -> within d' sol)).
  - auto.
  - intros d arc queue _ _ d' _ IH Hq. inversion Hq; subst. auto.
  - intros d arc queue _ d1 Hrev _ _ Hq Hw. inversion Hq; subst.
    apply (revise_keeps_solution cw d d1 sol arc true); assumption.
  - intros d arc queue _ d1 _ d' Hrev _ IH Hq Hw. inversion Hq; subst.
    apply IH.
    + apply proper_push_all; [|assumption].
      apply proper_arcs_around. apply H1.
    + apply (revise_keeps_solution cw d d1 sol arc true); assumption.
Qed.

Lemma enforce_keeps_solution (cw : Crossword) (d : Domains) (sol : Assignment) :
  complete_consistent cw sol -> within d sol ->
  within (enforce_node_consistency d) sol.
Proof.
  intros (_ & _ & Hlen & _) Hw x w Hx.
  apply in_domain_enforce. auto.
Qed.

(** C5: a complete, consistent assignment whose words come from the
    original domains still has every word in the domain of its variable
    after [enforce_node_consistency] followed by [ac3]. *)
Theorem propagation_keeps_solutions (cw : Crossword) (domains domains' : Domains)
        (sol : Assignment) (ret : bool) :
  (forall x, In x (keys domains) -> In x (variables cw)) ->
  complete_consistent cw sol ->
  within domains sol ->
  ac3 cw (enforce_node_consistency domains) None = Ok (ret, domains') ->
  within domains' sol.
Proof.
  intros Hk Hsol Hw H.
  apply (ac3_loop_keeps_solution cw sol Hsol _ _ _ _ _ _ H).
  - apply proper_push_all; [|constructor].
    apply proper_all_arcs. rewrite keys_enforce. assumption.
  - apply enforce_keeps_solution with (cw := cw); assumption.
Qed.

(** ** The consistency check *)

Lemma check_neighbours_true (cw : Crossword) (a : Assignment) (key : Var.t)
      (word : string) (ns : list Var.t) :
  check_neighbours cw a key word ns = Ok true ->
  forall n word', In n ns -> get Var.eq_dec a n = Some word' ->
    exists i j c, overlaps cw key n = Some (i, j)
                  /\ String.get i word = Some c
                  /\ String.get j word' = Some c.
Proof.
  induction ns as [|neighbour rest IH]; simpl; intros H n word' Hin Hn;
    [tauto|].
  destruct (get Var.eq_dec a neighbour) as [w0|] eqn:Hg.
  - destruct (overlaps cw key neighbour) as [[i j]|] eqn:Ho; [|discriminate].
    ok_inv H. apply index_ok in Hm, Hm0.
    destruct (Ascii.eqb a0 a1) eqn:E; [|discriminate].
    apply Ascii.eqb_eq in E. subst a1.
    destruct Hin as [<-|Hin]; [|eauto].
    rewrite Hg in Hn. inversion Hn; subst. eauto 6.
  - destruct Hin as [<-|Hin]; [congruence|eauto].
Qed.

Lemma consistent_loop_true (cw : Crossword) (a : Assignment) :
  forall entries vals,
    consistent_loop cw a entries vals = Ok true ->
    Forall (fun e : Var.t * string =>
              Var.length (fst e) = String.length (snd e)
              /\ check_neighbours cw a (fst e) (snd e) (neighbors cw (fst e))
                 = Ok true) entries
    /\ NoDup (map snd entries)
    /\ forall w, In w (map snd entries) -> ~ In w vals.
Proof.
  induction entries as [|[key word] rest IH]; simpl; intros vals H.
  - repeat split; [constructor|constructor|tauto].
  - unfold mem in H. destruct (in_dec string_dec word vals) as [Hv|Hv];
      [discriminate|].
    destruct (Nat.eqb_spec (Var.length key) (String.length word)) as [El|El];
      simpl in H; [|discriminate].
    ok_inv H. destruct a0; [|discriminate].
    destruct (IH _ H) as (Hall & Hnd & Hnot).
    repeat split.
    + constructor; [split; assumption|assumption].
    + constructor; [|assumption]. intros Hin. apply (Hnot _ Hin). simpl; auto.
    + intros w [<-|Hin]; [assumption|].
      intros Hw. apply (Hnot _ Hin). simpl; auto.
Qed.

Lemma NoDup_snd_injective {A B : Type} (l : list (A * B)) (x y : A) (w : B) :
  NoDup (map snd l) -> In (x, w) l -> In (y, w) l -> x = y.
Proof.
  induction l as [|[k v] l IH]; simpl; intros ND Hx Hy; [tauto|].
  inversion ND as [|? ? Hn ND']; subst.
  destruct Hx as [Ex|Hx], Hy as [Ey|Hy].
  - congruence.
  - inversion Ex; subst. exfalso. apply Hn.
    apply (in_map snd) in Hy. exact Hy.
  - inversion Ey; subst. exfalso. apply Hn.
    apply (in_map snd) in Hx. exact Hx.
  - auto.
Qed.

(** What a successful consistency check establishes. *)
Lemma consistent_sound (cw : Crossword) (a : Assignment) :
  well_keyed cw a -> consistent cw a = Ok true ->
  (forall x w, get Var.eq_dec a x = Some w -> String.length w = Var.length x)
  /\ agree cw a
  /\ (forall x y w, get Var.eq_dec a x = Some w ->
                    get Var.eq_dec a y = Some w -> x = y).
Proof.
  intros [ND Hk] H. unfold consistent in H.
  destruct (consistent_loop_true cw a _ _ H) as (Hall & Hnd & _).
  rewrite Forall_forall in Hall.
  assert (Hchk : forall x w n w',
             get Var.eq_dec a x = Some w -> get Var.eq_dec a n = Some w' ->
             In n (variables cw) -> n <> x -> overlaps cw n x <> None ->
             exists i j c, overlaps cw x n = Some (i, j)
                           /\ String.get i w = Some c
                           /\ String.get j w' = Some c).
  { intros x w n w' Hx Hn Hv N Ho.
    destruct (Hall (x, w) (get_in Var.eq_dec _ _ _ Hx)) as [_ Hc].
    simpl in Hc.
    apply (check_neighbours_true _ _ _ _ _ Hc n w'); [|assumption].
    apply in_neighbors. auto. }
  repeat split.
  - intros x w Hx.
    destruct (Hall (x, w) (get_in Var.eq_dec _ _ _ Hx)) as [E _]. simpl in E.
    auto.
  - intros x y ix iy wx wy N Ho Hx Hy.
    assert (Hvx : In x (variables cw))
      by (apply Hk, (get_in_keys Var.eq_dec); eauto).
    assert (Hvy : In y (variables cw))
      by (apply Hk, (get_in_keys Var.eq_dec); eauto).
    (* at key [y] the neighbour [x] is unpacked, so the reverse entry exists *)
    destruct (Hchk y wy x wx Hy Hx Hvx N) as (i & j & c & Hyx & _);
      [congruence|].
    destruct (Hchk x wx y wy Hx Hy Hvy) as (i' & j' & c' & Hxy & Hc & Hc');
      [auto|congruence|].
    rewrite Ho in Hxy. inversion Hxy; subst. eauto.
  - intros x y w Hx Hy.
    apply (NoDup_snd_injective a x y w Hnd);
      apply (get_in Var.eq_dec); assumption.
Qed.

Lemma complete_covers (cw : Crossword) (a : Assignment) :
  NoDup (variables cw) -> well_keyed cw a ->
  assignment_complete cw a = true ->
  forall x, In x (variables cw) -> exists w, get Var.eq_dec a x = Some w.
Proof.
  intros NDv [ND Hk] Hc x Hx.
  apply (get_in_keys Var.eq_dec).
  unfold assignment_complete in Hc. apply Nat.eqb_eq in Hc.
  assert (Hl : List.length (variables cw) <= List.length (keys a)).
  { unfold keys. rewrite length_map. lia. }
  apply (NoDup_length_incl ND Hl); assumption.
Qed.

Lemma checked_complete_consistent (cw : Crossword) (a : Assignment) :
  NoDup (variables cw) -> well_keyed cw a ->
  assignment_complete cw a = true -> consistent cw a = Ok true ->
  complete_consistent cw a.
Proof.
  intros NDv Hwk Hc Hcons.
  destruct (consistent_sound cw a Hwk Hcons) as (Hlen & Hag & Hinj).
  split; [apply complete_covers; assumption|].
  split; [apply Hwk|]. auto.
Qed.

(** ** The search *)

Lemma select_loop_in (domains : Domains) (a : Assignment) :
  forall vars minCount listOfVars l,
    select_loop domains a vars minCount listOfVars = Ok l ->
    forall v, In v l ->
              In v listOfVars \/ (In v vars /\ ~ In v (keys a)).
Proof.
  induction vars as [|var rest IH]; simpl; intros minCount listOfVars l H v Hv.
  - inversion H; subst. auto.
  - destruct (contains Var.eq_dec a var) eqn:Hc.
    + destruct (IH _ _ _ H v Hv) as [?|[? ?]]; auto.
    + assert (Hn : ~ In var (keys a)).
      { intros Hin. apply (contains_true Var.eq_dec) in Hin. congruence. }
      ok_inv H.
      assert (Hadd : forall mc,
                 select_loop domains a rest mc (listOfVars ++ [var]) = Ok l ->
                 In v listOfVars \/ ((var = v \/ In v rest) /\ ~ In v (keys a))).
      { intros mc H'. destruct (IH _ _ _ H' v Hv) as [Hin|[? ?]]; [|auto].
        apply in_app_iff in Hin. destruct Hin as [?|[<-|[]]]; auto. }
      destruct (_ <? 0)%Z; [eauto|].
      destruct (_ <? minCount)%Z; [eauto|].
      destruct (IH _ _ _ H v Hv) as [?|[? ?]]; auto.
Qed.

Lemma last_item_in {A : Type} (l : list A) (a : A) :
  last_item l = Ok a -> In a l.
Proof.
  unfold last_item. destruct (rev l) as [|b r] eqn:E; intros H;
    [discriminate|].
  inversion H; subst. apply in_rev. rewrite E. simpl; auto.
Qed.

Lemma select_unassigned (cw : Crossword) (domains : Domains)
      (a : Assignment) (var : Var.t) :
  select_unassigned_variable cw domains a = Ok var ->
  In var (variables cw) /\ ~ In var (keys a).
Proof.
  unfold select_unassigned_variable. intros H. ok_inv H.
  apply last_item_in in H.
  destruct (select_loop_in _ _ _ _ _ _ Hm var H) as [[]|?]. assumption.
Qed.

Lemma well_keyed_set (cw : Crossword) (a : Assignment) (var : Var.t)
      (value : string) :
  In var (variables cw) -> well_keyed cw a ->
  well_keyed cw (set Var.eq_dec a var value).
Proof.
  intros Hv [ND Hk]. split; [apply NoDup_keys_set; assumption|].
  intros x Hx. apply in_keys_set in Hx. destruct Hx as [->|Hx]; auto.
Qed.

Lemma well_keyed_del (cw : Crossword) (a : Assignment) (var : Var.t) :
  well_keyed cw a -> well_keyed cw (del Var.eq_dec a var).
Proof.
  intros [ND Hk]. split; [apply NoDup_keys_del; assumption|].
  intros x Hx. apply (keys_del Var.eq_dec a var ND) in Hx. apply Hk, Hx.
Qed.

(** The loop over the candidate values returns only what the recursive call
    returned, and the recursive call is entered only after a successful
    consistency check. *)
Lemma try_values_sound (cw : Crossword)
      (recur : Assignment -> result (bool * Assignment)) (var : Var.t) :
  In var (variables cw) ->
  (forall a r, well_keyed cw a -> consistent cw a = Ok true ->
               recur a = Ok r ->
               well_keyed cw (snd r)
               /\ (fst r = true ->
                   assignment_complete cw (snd r) = true
                   /\ consistent cw (snd r) = Ok true)) ->
  forall values a r,
    well_keyed cw a ->
    try_values cw recur var values a = Ok r ->
    well_keyed cw (snd r)
    /\ (fst r = true ->
        assignment_complete cw (snd r) = true
        /\ consistent cw (snd r) = Ok true).
Proof.
  intros Hv Hrec.
  induction values as [|value rest IH]; simpl; intros a r Hwk H.
  - inversion H; subst. simpl. split; [assumption|discriminate].
  - pose proof (well_keyed_set cw a var value Hv Hwk) as Hwk1.
    ok_inv H. destruct a0.
    + ok_inv H. destruct (Hrec _ _ Hwk1 Hm Hm0) as [Hwk2 Hgood].
      simpl in *. destruct b.
      * inversion H; subst. simpl. auto.
      * apply (IH _ _ (well_keyed_del cw a0 var Hwk2) H).
    + apply (IH _ _ Hwk1 H).
Qed.

Lemma backtrack_sound (cw : Crossword) (domains : Domains) :
  forall fuel a r,
    well_keyed cw a ->
    (assignment_complete cw a = true -> consistent cw a = Ok true) ->
    backtrack cw domains fuel a = Ok r ->
    well_keyed cw (snd r)
    /\ (fst r = true ->
        assignment_complete cw (snd r) = true
        /\ consistent cw (snd r) = Ok true).
Proof.
  induction fuel as [|fuel IH]; simpl; intros a r Hwk Hpre H; [discriminate|].
  destruct (assignment_complete cw a) eqn:Hc.
  - inversion H; subst. simpl. auto.
  - ok_inv H. apply select_unassigned in Hm. destruct Hm as [Hv _].
    apply (try_values_sound cw (backtrack cw domains fuel) a0 Hv) with (2 := Hwk) (3 := H).
    intros a' r' Hwk' Hcons Hr. apply (IH a' r' Hwk'); auto.
Qed.

Lemma well_keyed_empty (cw : Crossword) : well_keyed cw [].
Proof. split; [constructor|intros x []]. Qed.

Lemma solve_inv (cw : Crossword) (domains domains' : Domains)
      (res : option Assignment) (a : Assignment) :
  solve cw domains = Ok (res, a, domains') ->
  exists ret r,
    ac3 cw (enforce_node_consistency domains) None = Ok (ret, domains')
    /\ backtrack cw domains' (backtrack_fuel cw) [] = Ok r
    /\ res = returned r /\ a = snd r.
Proof.
  unfold solve. intros H. apply bind_ok in H.
  destruct H as ([ret d2] & Hac & H). ok_inv H. inversion H; subst.
  exists ret, a0. auto.
Qed.

Lemma NoDup_mixed : NoDup (variables mixed).
Proof.
  repeat constructor; simpl; intuition discriminate.
Qed.

Lemma mixed_solution_checked : complete_consistent mixed mixed_solution.
Proof.
  apply checked_complete_consistent.
  - exact NoDup_mixed.
  - split; [repeat constructor; simpl; intuition discriminate|].
    intros x [<-|[<-|[]]]; simpl; auto.
  - reflexivity.
  - reflexivity.
Qed.

Lemma propagation_keeps_solutions_witness :
  In "CAT" (domain mixed_propagated across_B)
  /\ In "BATS" (domain mixed_propagated down_4).
Proof.
  assert (H : within mixed_propagated mixed_solution).
  { apply (propagation_keeps_solutions mixed (init_domains mixed)
             mixed_propagated mixed_solution true).
    - intros x H. exact H.
    - exact mixed_solution_checked.
    - intros x w. unfold mixed_solution. simpl.
      destruct (Var.eq_dec x across_B) as [->|N1].
      + intros H; inversion H; subst. simpl; auto.
      + destruct (Var.eq_dec x down_4) as [->|N2]; [|discriminate].
        intros H; inversion H; subst. simpl; auto.
    - reflexivity. }
  split; apply H; reflexivity.
Defined.

(** ** Domains only shrink *)

(** C9: after [enforce_node_consistency] every word of every domain has the
    length of its variable; [revise], [ac3] and the whole of [solve] (the
    search does not write the store) only remove words, so each domain
    afterwards is a subset of the domain before and the length invariant is
    kept. *)
Theorem domains_only_shrink :
  (forall domains,
      node_consistent (enforce_node_consistency domains)
      /\ shrinks domains (enforce_node_consistency domains))
  /\ (forall cw d x y revised d',
         revise cw d x y = Ok (revised, d') ->
         shrinks d d' /\ (node_consistent d -> node_consistent d'))
  /\ (forall cw d arcs ret d',
         ac3 cw d arcs = Ok (ret, d') ->
         shrinks d d' /\ (node_consistent d -> node_consistent d'))
  /\ (forall cw d res a d',
         solve cw d = Ok (res, a, d') ->
         shrinks d d' /\ node_consistent d').
Proof.
  repeat split.
  - apply enforce_node_consistent.
  - apply keys_enforce.
  - intros x w H. apply in_domain_enforce in H. tauto.
  - apply (revise_shrinks _ _ _ _ _ _ H).
  - apply (revise_shrinks _ _ _ _ _ _ H).
  - apply shrinks_node_consistent. apply (revise_shrinks _ _ _ _ _ _ H).
  - apply (ac3_shrinks _ _ _ _ _ H).
  - apply (ac3_shrinks _ _ _ _ _ H).
  - apply shrinks_node_consistent. apply (ac3_shrinks _ _ _ _ _ H).
  - destruct (solve_inv _ _ _ _ _ H) as (ret & r & Hac & _).
    rewrite (proj1 (ac3_shrinks _ _ _ _ _ Hac)). apply keys_enforce.
  - destruct (solve_inv _ _ _ _ _ H) as (ret & r & Hac & _).
    intros x w Hw. apply (proj2 (ac3_shrinks _ _ _ _ _ Hac)) in Hw.
    apply in_domain_enforce in Hw. tauto.
  - destruct (solve_inv _ _ _ _ _ H) as (ret & r & Hac & _).
    apply (shrinks_node_consistent _ _ (ac3_shrinks _ _ _ _ _ Hac)).
    apply enforce_node_consistent.
Qed.

Lemma domains_only_shrink_witness :
  shrinks (init_domains mixed) mixed_propagated
  /\ node_consistent mixed_propagated.
Proof.
  apply (proj2 (proj2 (proj2 domains_only_shrink))
           mixed (init_domains mixed) (Some mixed_solution) mixed_solution
           mixed_propagated).
  reflexivity.
Defined.

(** ** The recursion of the search is bounded *)

Lemma check_neighbours_not_fuel (cw : Crossword) (a : Assignment)
      (key : Var.t) (word : string) (ns : list Var.t) :
  check_neighbours cw a key word ns <> OutOfFuel.
Proof.
  induction ns as [|n rest IH]; simpl; [discriminate|].
  destruct (get Var.eq_dec a n); [|assumption].
  destruct (overlaps cw key n) as [[i j]|]; [|discriminate].
  apply result_not_fuel_bind; [apply index_not_fuel|]. intros c.
  apply result_not_fuel_bind; [apply index_not_fuel|]. intros c'.
  destruct (Ascii.eqb c c'); [assumption|discriminate].
Qed.

Lemma consistent_not_fuel (cw : Crossword) (a : Assignment) :
  consistent cw a <> OutOfFuel.
Proof.
  unfold consistent. generalize (@nil string). generalize a at 2.
  induction a0 as [|[key word] rest IH]; simpl; intros vals; [discriminate|].
  destruct (mem word vals); [discriminate|].
  destruct (negb _); [discriminate|].
  apply result_not_fuel_bind; [apply check_neighbours_not_fuel|].
  intros ok. destruct ok; [apply IH|discriminate].
Qed.

Lemma select_not_fuel (cw : Crossword) (domains : Domains) (a : Assignment) :
  select_unassigned_variable cw domains a <> OutOfFuel.
Proof.
  unfold select_unassigned_variable.
  apply result_not_fuel_bind.
  - generalize (-1)%Z. generalize (@nil Var.t).
    induction (variables cw) as [|var rest IH]; simpl; intros l mc;
      [discriminate|].
    destruct (contains Var.eq_dec a var); [apply IH|].
    apply result_not_fuel_bind; [apply domain_of_not_fuel|]. intros d.
    destruct (_ <? 0)%Z; [apply IH|]. destruct (_ <? mc)%Z; apply IH.
  - intros l. unfold last_item. destruct (rev l); discriminate.
Qed.

Lemma count_in_domains_not_fuel (domains : Domains) (val : string)
      (ns : list Var.t) :
  count_in_domains domains val ns <> OutOfFuel.
Proof.
  induction ns as [|n ns IHn]; simpl; [discriminate|].
  apply result_not_fuel_bind; [apply domain_of_not_fuel|]. intros d.
  apply result_not_fuel_bind; [assumption|]. discriminate.
Qed.

Lemma order_not_fuel (cw : Crossword) (domains : Domains) (var : Var.t)
      (a : Assignment) :
  order_domain_values cw domains var a <> OutOfFuel.
Proof.
  unfold order_domain_values.
  apply result_not_fuel_bind; [apply domain_of_not_fuel|]. intros values.
  apply result_not_fuel_bind; [|discriminate].
  generalize (filter (fun n => negb (contains Var.eq_dec a n))
                     (neighbors cw var)) as ns. intros ns.
  induction values as [|val rest IH]; simpl; [discriminate|].
  apply result_not_fuel_bind; [apply count_in_domains_not_fuel|].
  intros n. apply result_not_fuel_bind; [assumption|]. discriminate.
Qed.

Lemma well_keyed_length (cw : Crossword) (a : Assignment) :
  well_keyed cw a -> List.length a <= List.length (variables cw).
Proof.
  intros [ND Hk]. pose proof (NoDup_incl_length ND Hk) as L.
  unfold keys in L. rewrite length_map in L. exact L.
Qed.

Lemma length_set_new (cw : Crossword) (base s : Assignment) (var : Var.t)
      (value : string) :
  well_keyed cw base -> ~ In var (keys base) -> incl (keys base) (keys s) ->
  List.length base < List.length (set Var.eq_dec s var value).
Proof.
  intros [ND _] Hv Hincl.
  assert (ND' : NoDup (var :: keys base)) by (constructor; assumption).
  assert (Hi : incl (var :: keys base) (keys (set Var.eq_dec s var value))).
  { intros x [<-|Hx]; apply in_keys_set; auto. }
  pose proof (NoDup_incl_length ND' Hi) as L.
  simpl in L. unfold keys in L. rewrite !length_map in L. lia.
Qed.

(** The value loop: it returns or raises when the recursive call does on
    every larger dict, and the dict it leaves keeps the keys it was entered
    with. *)
Lemma try_values_bounded (cw : Crossword)
      (recur : Assignment -> result (bool * Assignment))
      (base : Assignment) (var : Var.t) :
  well_keyed cw base -> In var (variables cw) -> ~ In var (keys base) ->
  (forall a, well_keyed cw a -> List.length base < List.length a ->
             recur a <> OutOfFuel
             /\ forall r, recur a = Ok r ->
                          well_keyed cw (snd r) /\ incl (keys a) (keys (snd r))) ->
  forall values s,
    well_keyed cw s -> incl (keys base) (keys s) ->
    try_values cw recur var values s <> OutOfFuel
    /\ forall r, try_values cw recur var values s = Ok r ->
                 well_keyed cw (snd r) /\ incl (keys base) (keys (snd r)).
Proof.
  intros Hb Hv Hnb Hrec.
  induction values as [|value rest IH]; simpl; intros s Hs Hincl.
  - split; [discriminate|]. intros r H. inversion H; subst. auto.
  - pose proof (well_keyed_set cw s var value Hv Hs) as Hs1.
    pose proof (length_set_new cw base s var value Hb Hnb Hincl) as Hlen.
    assert (Hincl1 : incl (keys base) (keys (set Var.eq_dec s var value))).
    { intros x Hx. apply in_keys_set. auto. }
    destruct (consistent cw (set Var.eq_dec s var value)) as [ok| |] eqn:Hc;
      simpl; [|split; [discriminate|intros r H; discriminate]
             |exfalso; exact (consistent_not_fuel _ _ Hc)].
    destruct ok; [|apply IH; assumption].
    destruct (Hrec _ Hs1 Hlen) as [Hnf Hok].
    destruct (recur (set Var.eq_dec s var value)) as [[found a2]| |];
      simpl; [|split; [discriminate|intros r H; discriminate]|congruence].
    destruct (Hok _ eq_refl) as [Hwk2 Hincl2]. simpl in *.
    destruct found.
    + split; [discriminate|]. intros r H. inversion H; subst. simpl.
      split; [assumption|]. intros x Hx. apply Hincl2, Hincl1, Hx.
    + apply IH; [apply well_keyed_del; assumption|].
      intros x Hx. apply (keys_del Var.eq_dec a2 var (proj1 Hwk2)).
      split; [intros ->; auto|apply Hincl2, Hincl1, Hx].
Qed.

Lemma backtrack_bounded (cw : Crossword) (domains : Domains) :
  forall fuel a,
    well_keyed cw a ->
    List.length (variables cw) < fuel + List.length a ->
    backtrack cw domains fuel a <> OutOfFuel
    /\ forall r, backtrack cw domains fuel a = Ok r ->
                 well_keyed cw (snd r) /\ incl (keys a) (keys (snd r)).
Proof.
  induction fuel as [|fuel IH]; intros a Hwk Hf.
  - pose proof (well_keyed_length cw a Hwk). simpl in Hf. lia.
  - simpl. destruct (assignment_complete cw a).
    + split; [discriminate|]. intros r H. inversion H; subst. simpl.
      split; [assumption|apply incl_refl].
    + destruct (select_unassigned_variable cw domains a) as [var| |] eqn:Hsel;
        simpl; [|split; [discriminate|intros r H; discriminate]
               |exfalso; exact (select_not_fuel _ _ _ Hsel)].
      destruct (select_unassigned _ _ _ _ Hsel) as [Hv Hn].
      destruct (order_domain_values cw domains var a) as [values| |] eqn:Hord;
        simpl; [|split; [discriminate|intros r H; discriminate]
               |exfalso; exact (order_not_fuel _ _ _ _ Hord)].
      apply (try_values_bounded cw (backtrack cw domains fuel) a var Hwk Hv Hn);
        [|assumption|apply incl_refl].
      intros a' Hwk' Hlen. apply IH; [assumption|lia].
Qed.

(** [solve] returns or raises: neither loop runs out of fuel. *)
Lemma solve_not_fuel (cw : Crossword) (domains : Domains) :
  solve cw domains <> OutOfFuel.
Proof.
  unfold solve. apply result_not_fuel_bind; [apply ac3_not_fuel|].
  intros [ret d]. apply result_not_fuel_bind; [|discriminate].
  apply backtrack_bounded; [apply well_keyed_empty|].
  unfold backtrack_fuel. simpl. lia.
Qed.

(** C3: every assignment that [backtrack] returns, when started on a
    consistent partial assignment, and every assignment that [solve] returns
    gives one word to every variable of the crossword and to nothing else,
    each of its variable's length, with equal characters at every overlap and
    no word used for two variables; and [solve] does return or raise. *)
Theorem returned_assignment_valid (cw : Crossword) (domains : Domains) :
  NoDup (variables cw) ->
  (forall fuel a r sol,
      well_keyed cw a -> consistent cw a = Ok true ->
      backtrack cw domains fuel a = Ok r -> returned r = Some sol ->
      complete_consistent cw sol)
  /\ (forall sol a domains',
         solve cw domains = Ok (Some sol, a, domains') ->
         complete_consistent cw sol)
  /\ solve cw domains <> OutOfFuel.
Proof.
  intros NDv.
  assert (Hbt : forall d fuel a r sol,
             well_keyed cw a ->
             (assignment_complete cw a = true -> consistent cw a = Ok true) ->
             backtrack cw d fuel a = Ok r -> returned r = Some sol ->
             complete_consistent cw sol).
  { intros d fuel a r sol Hwk Hpre H Hret.
    destruct (backtrack_sound cw d fuel a r Hwk Hpre H) as [Hwk' Hgood].
    unfold returned in Hret. destruct (fst r); [|discriminate].
    inversion Hret; subst. destruct (Hgood eq_refl).
    apply checked_complete_consistent; assumption. }
  split; [|split; [|apply solve_not_fuel]].
  - intros fuel a r sol Hwk Hcons. apply Hbt; auto.
  - intros sol a domains' H.
    destruct (solve_inv _ _ _ _ _ H) as (ret & r & _ & Hr & Hres & _).
    apply (Hbt domains' (backtrack_fuel cw) [] r sol (well_keyed_empty cw));
      auto.
Qed.

Lemma returned_assignment_valid_witness : complete_consistent mixed mixed_solution.
Proof.
  apply (proj1 (proj2 (returned_assignment_valid
                         mixed (init_domains mixed) NoDup_mixed))
               mixed_solution mixed_solution mixed_propagated).
  reflexivity.
Defined.

(** ** The search does not raise on a well-formed crossword *)

Lemma select_loop_returns (domains : Domains) (a : Assignment) :
  forall vars minCount listOfVars,
    (forall v, In v vars -> In v (keys domains)) ->
    exists l,
      select_loop domains a vars minCount listOfVars = Ok l
      /\ (listOfVars <> []
          \/ ((minCount < 0)%Z /\ exists v, In v vars /\ ~ In v (keys a)) ->
          l <> []).
Proof.
  induction vars as [|var rest IH]; simpl; intros minCount listOfVars Hk.
  - exists listOfVars. split; [reflexivity|].
    intros [H|[_ (v & [] & _)]]. assumption.
  - assert (Hk' : forall v, In v rest -> In v (keys domains)) by auto.
    destruct (contains Var.eq_dec a var) eqn:Hc.
    + destruct (IH minCount listOfVars Hk') as (l & Hl & Hne).
      exists l. split; [assumption|]. intros H. apply Hne.
      destruct H as [H|[Hm (v & [<-|Hv] & Hn)]]; auto.
      * apply (contains_true Var.eq_dec) in Hc. tauto.
      * right. eauto.
    + rewrite (domain_of_key domains var) by auto. simpl.
      assert (Happ : forall mc,
                 exists l, select_loop domains a rest mc (listOfVars ++ [var])
                           = Ok l /\ l <> []).
      { intros mc. destruct (IH mc (listOfVars ++ [var]) Hk') as (l & Hl & Hne).
        exists l. split; [assumption|]. apply Hne. left.
        destruct listOfVars; discriminate. }
      destruct (Z.ltb_spec minCount 0) as [Hneg|Hpos].
      * destruct (Happ (Z.of_nat (List.length (domain domains var))))
          as (l & Hl & Hne). eauto.
      * destruct (_ <? minCount)%Z.
        -- destruct (Happ (Z.of_nat (List.length (domain domains var))))
             as (l & Hl & Hne). eauto.
        -- destruct (IH minCount listOfVars Hk') as (l & Hl & Hne).
           exists l. split; [assumption|]. intros H. apply Hne.
           destruct H as [H|[Hm _]]; [auto|lia].
Qed.

Lemma incomplete_has_unassigned (cw : Crossword) (a : Assignment) :
  NoDup (variables cw) -> well_keyed cw a ->
  assignment_complete cw a = false ->
  exists v, In v (variables cw) /\ ~ In v (keys a).
Proof.
  intros NDv Hwk Hc.
  destruct (forallb (contains Var.eq_dec a) (variables cw)) eqn:Hall.
  - exfalso. rewrite forallb_forall in Hall.
    assert (Hincl : incl (variables cw) (keys a)).
    { intros v Hv. apply (contains_true Var.eq_dec). auto. }
    pose proof (NoDup_incl_length NDv Hincl) as L.
    pose proof (well_keyed_length cw a Hwk) as L'.
    unfold keys in L. rewrite length_map in L.
    unfold assignment_complete in Hc. apply Nat.eqb_neq in Hc. lia.
  - assert (Hex : existsb (fun v => negb (contains Var.eq_dec a v))
                          (variables cw) = true).
    { clear -Hall. induction (variables cw) as [|v rest IH]; simpl in *;
        [discriminate|].
      destruct (contains Var.eq_dec a v); simpl in *; auto. }
    apply existsb_exists in Hex. destruct Hex as (v & Hv & Hn).
    exists v. split; [assumption|]. intros Hin.
    apply (contains_true Var.eq_dec) in Hin. rewrite Hin in Hn. discriminate.
Qed.

Lemma select_returns (cw : Crossword) (domains : Domains) (a : Assignment) :
  NoDup (variables cw) -> well_keyed cw a ->
  (forall v, In v (variables cw) -> In v (keys domains)) ->
  assignment_complete cw a = false ->
  exists var, select_unassigned_variable cw domains a = Ok var.
Proof.
  intros NDv Hwk Hk Hc. unfold select_unassigned_variable.
  destruct (select_loop_returns domains a (variables cw) (-1)%Z [] Hk)
    as (l & Hl & Hne).
  rewrite Hl. simpl. unfold last_item.
  destruct (rev l) as [|v r] eqn:E; [|eauto].
  exfalso. apply Hne.
  - right. split; [lia|]. apply incomplete_has_unassigned; assumption.
  - apply (f_equal (@rev Var.t)) in E. rewrite rev_involutive in E. exact E.
Qed.

Lemma in_insert_by_count (c x : nat * string) (sorted : list (nat * string)) :
  In x (insert_by_count c sorted) <-> x = c \/ In x sorted.
Proof.
  induction sorted as [|d rest IH]; simpl.
  - intuition auto.
  - destruct (fst c <=? fst d); simpl; [intuition auto|].
    rewrite IH. intuition auto.
Qed.

Lemma in_sort_by_count (x : nat * string) (counts : list (nat * string)) :
  In x (sort_by_count counts) <-> In x counts.
Proof.
  unfold sort_by_count. induction counts as [|c rest IH]; simpl; [tauto|].
  rewrite in_insert_by_count, IH. intuition auto.
Qed.

Lemma count_in_domains_returns (domains : Domains) (val : string)
      (ns : list Var.t) :
  (forall n, In n ns -> In n (keys domains)) ->
  exists k, count_in_domains domains val ns = Ok k.
Proof.
  induction ns as [|n rest IH]; simpl; intros Hk; [eauto|].
  rewrite (domain_of_key domains n) by auto. simpl.
  destruct IH as [k Hk']; [auto|]. rewrite Hk'. simpl. eauto.
Qed.

Lemma count_each_returns (domains : Domains) (ns : list Var.t)
      (values : list string) :
  (forall n, In n ns -> In n (keys domains)) ->
  exists counts, count_each domains ns values = Ok counts
                 /\ map snd counts = values.
Proof.
  intros Hk. induction values as [|val rest IH]; simpl; [eauto|].
  destruct (count_in_domains_returns domains val ns Hk) as [k Hc].
  rewrite Hc. simpl. destruct IH as (counts & Hr & Hm). rewrite Hr. simpl.
  exists ((k, val) :: counts). simpl. rewrite Hm. auto.
Qed.

Lemma order_returns (cw : Crossword) (domains : Domains) (var : Var.t)
      (a : Assignment) :
  (forall v, In v (variables cw) -> In v (keys domains)) ->
  In var (variables cw) ->
  exists values,
    order_domain_values cw domains var a = Ok values
    /\ forall value, In value values -> In value (domain domains var).
Proof.
  intros Hk Hv. unfold order_domain_values.
  rewrite (domain_of_key domains var) by auto. simpl.
  destruct (count_each_returns domains
              (filter (fun n => negb (contains Var.eq_dec a n))
                      (neighbors cw var))
              (domain domains var)) as (counts & Hc & Hm).
  { intros n Hn. apply filter_In in Hn. destruct Hn as [Hn _].
    apply in_neighbors in Hn. apply Hk, Hn. }
  rewrite Hc. simpl. eexists. split; [reflexivity|].
  intros value Hin. apply in_map_iff in Hin.
  destruct Hin as ([k w] & <- & Hin).
  apply (proj1 (in_sort_by_count _ _)) in Hin.
  rewrite <- Hm. apply (in_map snd) in Hin. exact Hin.
Qed.

Lemma check_neighbours_returns (cw : Crossword) (a : Assignment)
      (key : Var.t) (word : string) (ns : list Var.t) :
  overlaps_in_range cw -> overlaps_symmetric cw ->
  String.length word = Var.length key ->
  (forall n word', get Var.eq_dec a n = Some word' ->
                   String.length word' = Var.length n) ->
  (forall n, In n ns -> overlaps cw n key <> None) ->
  exists b, check_neighbours cw a key word ns = Ok b.
Proof.
  intros Hr Hsym Hlen Hlens. induction ns as [|n rest IH]; simpl; intros Hns;
    [eauto|].
  assert (IH' : exists b, check_neighbours cw a key word rest = Ok b)
    by (apply IH; auto).
  destruct (get Var.eq_dec a n) as [word'|] eqn:Hg; [|assumption].
  destruct (overlaps cw key n) as [[i j]|] eqn:Ho.
  - destruct (Hr _ _ _ _ Ho) as [Bi Bj].
    destruct (get_in_range word i) as [c Hc]; [lia|].
    destruct (get_in_range word' j) as [c' Hc'];
      [rewrite (Hlens _ _ Hg); assumption|].
    apply index_ok in Hc, Hc'. rewrite Hc. simpl. rewrite Hc'. simpl.
    destruct (Ascii.eqb c c'); eauto.
  - exfalso. apply (Hns n); [simpl; auto|]. apply Hsym. assumption.
Qed.

Lemma consistent_returns (cw : Crossword) (a : Assignment) :
  overlaps_in_range cw -> overlaps_symmetric cw ->
  (forall n word', get Var.eq_dec a n = Some word' ->
                   String.length word' = Var.length n) ->
  exists b, consistent cw a = Ok b.
Proof.
  intros Hr Hsym Hlens. unfold consistent.
  generalize (@nil string). generalize a at 2.
  induction a0 as [|[key word] rest IH]; simpl; intros vals; [eauto|].
  destruct (mem word vals); [eauto|].
  destruct (Nat.eqb_spec (Var.length key) (String.length word)) as [E|E];
    simpl; [|eauto].
  destruct (check_neighbours_returns cw a key word (neighbors cw key)
              Hr Hsym (eq_sym E) Hlens) as [b Hb].
  { intros n Hn. apply in_neighbors in Hn. tauto. }
  rewrite Hb. simpl. destruct b; [apply IH|eauto].
Qed.

Lemma within_lengths (d : Domains) (a : Assignment) :
  node_consistent d -> within d a ->
  forall n word', get Var.eq_dec a n = Some word' ->
                  String.length word' = Var.length n.
Proof. intros NC Hw n word' Hg. apply NC, Hw, Hg. Qed.

Lemma within_set (d : Domains) (a : Assignment) (var : Var.t)
      (value : string) :
  within d a -> In value (domain d var) ->
  within d (set Var.eq_dec a var value).
Proof.
  intros Hw Hin x w. destruct (Var.eq_dec x var) as [->|N].
  - rewrite get_set_eq. intros H. inversion H; subst. assumption.
  - rewrite get_set_neq by assumption. apply Hw.
Qed.

Lemma in_del {K V : Type} (K_eq_dec : forall a b : K, {a = b} + {a <> b})
      (d : list (K * V)) (k : K) (e : K * V) :
  In e (del K_eq_dec d k) -> In e d.
Proof.
  induction d as [|[k0 v0] d IH]; simpl; [tauto|].
  destruct (K_eq_dec k k0); simpl; intuition auto.
Qed.

Lemma within_del (d : Domains) (a : Assignment) (var : Var.t) :
  NoDup (keys a) -> within d a -> within d (del Var.eq_dec a var).
Proof.
  intros ND Hw x w Hg. apply Hw. apply (in_get Var.eq_dec); [assumption|].
  apply (in_del Var.eq_dec a var). apply (get_in Var.eq_dec). assumption.
Qed.

Lemma try_values_returns (cw : Crossword) (d : Domains)
      (recur : Assignment -> result (bool * Assignment))
      (base : Assignment) (var : Var.t) :
  overlaps_in_range cw -> overlaps_symmetric cw -> node_consistent d ->
  well_keyed cw base -> In var (variables cw) -> ~ In var (keys base) ->
  (forall a, well_keyed cw a -> within d a ->
             List.length base < List.length a ->
             exists r, recur a = Ok r
                       /\ well_keyed cw (snd r)
                       /\ incl (keys a) (keys (snd r))
                       /\ within d (snd r)) ->
  forall values s,
    (forall value, In value values -> In value (domain d var)) ->
    well_keyed cw s -> incl (keys base) (keys s) -> within d s ->
    exists r, try_values cw recur var values s = Ok r
              /\ well_keyed cw (snd r)
              /\ incl (keys base) (keys (snd r))
              /\ within d (snd r).
Proof.
  intros Hr Hsym NC Hb Hv Hnb Hrec.
  induction values as [|value rest IH]; simpl; intros s Hvals Hs Hincl Hw.
  - eexists. split; [reflexivity|]. simpl. auto.
  - assert (Hvals' : forall v, In v rest -> In v (domain d var)) by auto.
    pose proof (well_keyed_set cw s var value Hv Hs) as Hs1.
    pose proof (length_set_new cw base s var value Hb Hnb Hincl) as Hlen.
    pose proof (within_set d s var value Hw (Hvals value (or_introl eq_refl)))
      as Hw1.
    assert (Hincl1 : incl (keys base) (keys (set Var.eq_dec s var value))).
    { intros x Hx. apply in_keys_set. auto. }
    destruct (consistent_returns cw (set Var.eq_dec s var value) Hr Hsym
                (within_lengths d _ NC Hw1)) as [ok Hok].
    rewrite Hok. simpl. destruct ok; [|apply IH; assumption].
    destruct (Hrec _ Hs1 Hw1 Hlen) as ([found a2] & Hrc & Hwk2 & Hincl2 & Hw2).
    rewrite Hrc. simpl in *. destruct found.
    + eexists. split; [reflexivity|]. simpl.
      repeat split; try assumption; try apply Hwk2.
      intros x Hx. apply Hincl2, Hincl1, Hx.
    + apply IH; try assumption.
      * apply well_keyed_del; assumption.
      * intros x Hx. apply (keys_del Var.eq_dec a2 var (proj1 Hwk2)).
        split; [intros ->; auto|apply Hincl2, Hincl1, Hx].
      * apply within_del; [apply Hwk2|assumption].
Qed.

Lemma backtrack_returns (cw : Crossword) (d : Domains) :
  NoDup (variables cw) ->
  overlaps_in_range cw -> overlaps_symmetric cw -> node_consistent d ->
  (forall v, In v (variables cw) -> In v (keys d)) ->
  forall fuel a,
    well_keyed cw a -> within d a ->
    List.length (variables cw) < fuel + List.length a ->
    exists r, backtrack cw d fuel a = Ok r
              /\ well_keyed cw (snd r)
              /\ incl (keys a) (keys (snd r))
              /\ within d (snd r).
Proof.
  intros NDv Hr Hsym NC Hk.
  induction fuel as [|fuel IH]; intros a Hwk Hw Hf.
  - pose proof (well_keyed_length cw a Hwk). simpl in Hf. lia.
  - simpl. destruct (assignment_complete cw a) eqn:Hc.
    + eexists. split; [reflexivity|]. simpl.
      repeat split; try assumption; try apply Hwk. apply incl_refl.
    + destruct (select_returns cw d a NDv Hwk Hk Hc) as [var Hsel].
      rewrite Hsel. simpl.
      destruct (select_unassigned _ _ _ _ Hsel) as [Hv Hn].
      destruct (order_returns cw d var a Hk Hv) as (values & Hord & Hvals).
      rewrite Hord. simpl.
      apply (try_values_returns cw d (backtrack cw d fuel) a var
               Hr Hsym NC Hwk Hv Hn); try assumption; [|apply incl_refl].
      intros a' Hwk' Hw' Hlen. apply IH; [assumption|assumption|lia].
Qed.

(** On a well-formed crossword [solve] returns: with [Some] assignment or
    with [None]. *)
Lemma solve_returns (cw : Crossword) :
  NoDup (variables cw) -> overlaps_in_range cw -> overlaps_symmetric cw ->
  exists res a domains',
    solve cw (init_domains cw) = Ok (res, a, domains').
Proof.
  intros NDv Hr Hsym.
  assert (Hk : forall v, In v (variables cw) -> In v (keys (init_domains cw))).
  { intros v Hv. unfold init_domains, keys. rewrite map_map. simpl.
    rewrite map_id. assumption. }
  destruct (ac3_after_node_consistency_returns cw (init_domains cw) Hr Hk)
    as (ret & d' & Hac).
  unfold solve. rewrite Hac. cbn [bind].
  pose proof (ac3_shrinks _ _ _ _ _ Hac) as S.
  destruct (backtrack_returns cw d' NDv Hr Hsym) with (fuel := backtrack_fuel cw)
                                                      (a := @nil (Var.t * string))
    as (r & Hbt & _).
  - apply (shrinks_node_consistent _ _ S). apply enforce_node_consistent.
  - intros v Hv. rewrite (proj1 S), keys_enforce. auto.
  - apply well_keyed_empty.
  - intros x w H. discriminate.
  - unfold backtrack_fuel. simpl. lia.
  - rewrite Hbt. cbn [bind]. eauto.
Qed.

(** ** Overlaps computed from the grid *)

Lemma position_lt (c : nat * nat) (l : list (nat * nat)) :
  In c l -> position c l < List.length l.
Proof.
  induction l as [|c' rest IH]; simpl; [tauto|].
  intros H. destruct (cell_eq_dec c c') as [E|E]; [lia|].
  destruct H as [H|H]; [congruence|]. specialize (IH H). lia.
Qed.

Lemma length_cells (v : Var.t) : List.length (cells v) = Var.length v.
Proof. unfold cells. rewrite length_map, length_seq. reflexivity. Qed.

Lemma grid_overlaps_in_range (vars : list Var.t) (vocabulary : list string) :
  overlaps_in_range (grid_crossword vars vocabulary).
Proof.
  intros x y ix iy. simpl. unfold grid_overlaps.
  destruct (Var.eq_dec x y) as [E|E]; [discriminate|].
  destruct (filter _ (cells x)) as [|c [|c' rest]] eqn:F; try discriminate.
  intros H. inversion H; subst. clear H.
  assert (Hin : In c (filter
                        (fun c => if in_dec cell_eq_dec c (cells y)
                                  then true else false) (cells x)))
    by (rewrite F; simpl; auto).
  apply filter_In in Hin. destruct Hin as [Hx Hy].
  destruct (in_dec cell_eq_dec c (cells y)) as [Hy'|]; [|discriminate].
  rewrite <- (length_cells x), <- (length_cells y).
  split; apply position_lt; assumption.
Qed.

Lemma NoDup_cells (v : Var.t) : NoDup (cells v).
Proof.
  unfold cells. apply NoDup_map_NoDup_ForallPairs; [|apply seq_NoDup].
  intros k k' _ _ H. destruct (Var.direction v); inversion H; lia.
Qed.

Lemma length_common {A : Type} (A_eq_dec : forall a b : A, {a = b} + {a <> b})
      (l1 l2 : list A) :
  NoDup l1 -> NoDup l2 ->
  List.length (filter (fun c => if in_dec A_eq_dec c l2 then true else false) l1)
  = List.length (filter (fun c => if in_dec A_eq_dec c l1 then true else false) l2).
Proof.
  intros N1 N2. apply Permutation_length.
  apply NoDup_Permutation; [apply NoDup_filter, N1|apply NoDup_filter, N2|].
  intros x. rewrite !filter_In.
  destruct (in_dec A_eq_dec x l1), (in_dec A_eq_dec x l2);
    intuition discriminate.
Qed.

Lemma grid_overlaps_symmetric (vars : list Var.t) (vocabulary : list string) :
  overlaps_symmetric (grid_crossword vars vocabulary).
Proof.
  intros x y. simpl. unfold grid_overlaps.
  destruct (Var.eq_dec x y) as [E|E];
    destruct (Var.eq_dec y x) as [E'|E']; try congruence.
  pose proof (length_common cell_eq_dec (cells x) (cells y)
                (NoDup_cells x) (NoDup_cells y)) as L.
  destruct (filter _ (cells x)) as [|c [|c' rest]];
    destruct (filter _ (cells y)) as [|d [|d' rest']];
    simpl in L; try discriminate; auto.
Qed.

(** On every grid [solve] returns: with an assignment or with [None]. *)
Lemma grid_solve_returns (vars : list Var.t) (vocabulary : list string) :
  NoDup vars ->
  exists res a domains',
    solve (grid_crossword vars vocabulary)
          (init_domains (grid_crossword vars vocabulary))
    = Ok (res, a, domains').
Proof.
  intros ND. apply solve_returns.
  - exact ND.
  - apply grid_overlaps_in_range.
  - apply grid_overlaps_symmetric.
Qed.

(** On the raw store of [short_partner] every indexing of [revise] is in
    range, although ["BA"] is too short for the overlap position. *)
Lemma short_partner_in_range :
  revise_in_range (init_domains short_partner) across_low down_B 1 2.
Proof.
  assert (Hscan : scan_in_range 2 "A" ["AAA"; "BA"]).
  { intros pre w' post E Hpre. destruct pre as [|p pre].
    - inversion E; subst. simpl. lia.
    - inversion E; subst. exfalso.
      apply (Hpre "AAA"); [left; reflexivity|reflexivity]. }
  intros w Hw. change (In w ["AAA"; "BA"]) in Hw.
  change (domain (init_domains short_partner) down_B) with ["AAA"; "BA"].
  destruct Hw as [<-|[<-|[]]]; exists "A"%char; split;
    try reflexivity; exact Hscan.
Qed.

Lemma revise_index_safety_witness :
  (exists revised domains',
      revise scenario_B (enforce_node_consistency (init_domains scenario_B))
             across_B down_B
      = Ok (revised, domains'))
  /\ (exists revised domains',
         revise short_partner (init_domains short_partner) across_low down_B
         = Ok (revised, domains')).
Proof.
  split.
  - apply (proj1 revise_index_safety).
    apply (proj1 (proj2 (proj2 (proj2 revise_index_safety)))).
    + apply grid_overlaps_in_range.
    + simpl; auto.
    + simpl; auto.
  - apply (proj2 (proj2 (proj2 (proj2 (proj2 revise_index_safety))))
             short_partner (init_domains short_partner)
             across_low down_B 1 2).
    + reflexivity.
    + simpl; auto.
    + simpl; auto.
    + exact short_partner_in_range.
Defined.

(** ** Where the search departs from its documentation *)

Lemma in_inserts {A : Type} (a : A) (l1 l2 : list A) :
  In (l1 ++ a :: l2) (inserts a (l1 ++ l2)).
Proof.
  induction l1 as [|b l1 IH]; simpl.
  - destruct l2; simpl; auto.
  - right. apply in_map. exact IH.
Qed.

Lemma in_orders {A : Type} (l l' : list A) :
  Permutation l l' -> In l' (orders l).
Proof.
  revert l'. induction l as [|a rest IH]; intros l' P; simpl.
  - apply Permutation_nil in P. subst. auto.
  - destruct (Permutation_vs_cons_inv (Permutation_sym P)) as (l1 & l2 & ->).
    apply Permutation_cons_app_inv in P.
    apply in_flat_map. exists (l1 ++ l2). split; [apply IH, P|].
    apply in_inserts.
Qed.

Lemma forallb_orders {A : Type} (f : list A -> bool) (l l' : list A) :
  forallb f (orders l) = true -> Permutation l l' -> f l' = true.
Proof.
  intros H P. rewrite forallb_forall in H. apply H, in_orders, P.
Qed.

(** C1: on scenario B of the specification, which has no solution, the root
    call of [backtrack] returns [None] and leaves two entries in the dict it
    was given.  A value that [consistent] rejects is never deleted: the value
    loop, on a last candidate that is rejected, ends with that candidate
    still assigned. *)
Theorem backtrack_leaves_rejected_values :
  solve scenario_B (init_domains scenario_B)
  = Ok (None, [(down_B, "ACT"); (across_B, "ACT")], init_domains scenario_B)
  /\ (forall cw recur var value a,
         consistent cw (set Var.eq_dec a var value) = Ok false ->
         try_values cw recur var [value] a
         = Ok (false, set Var.eq_dec a var value)).
Proof.
  split; [reflexivity|].
  intros cw recur var value a H. simpl. rewrite H. reflexivity.
Qed.

(** On scenario B the outcome does not depend on the order in which the
    variables and the vocabulary are iterated. *)
Lemma scenario_B_any_order (vars : list Var.t) (vocabulary : list string) :
  Permutation [across_B; down_B] vars ->
  Permutation ["CAT"; "DOG"; "TIE"; "ACT"] vocabulary ->
  fails_with_leftovers vars vocabulary = true.
Proof.
  intros Pv Pw.
  apply (forallb_orders (fun vs => fails_with_leftovers vs vocabulary)
                        [across_B; down_B]); [|assumption].
  apply forallb_forall. intros vs Hvs.
  apply (forallb_orders (fun ws => fails_with_leftovers vs ws)
                        ["CAT"; "DOG"; "TIE"; "ACT"]); [|assumption].
  revert vs Hvs. apply forallb_forall. vm_compute. reflexivity.
Qed.

(** C2: the slots of [four_slots] can be filled from the propagated domains,
    yet [solve] returns [None]: the entry left behind for [slot_C] makes every
    later candidate of [slot_B] fail the consistency check. *)
Theorem search_misses_solution :
  solve four_slots (init_domains four_slots)
  = Ok (None, [(slot_C, "DAD"); (slot_B, "DAD")], four_slots_propagated)
  /\ complete_consistent four_slots four_slots_solution
  /\ within four_slots_propagated four_slots_solution.
Proof.
  split; [reflexivity|]. split.
  - apply checked_complete_consistent.
    + repeat constructor; simpl; intuition discriminate.
    + split; [repeat constructor; simpl; intuition discriminate|].
      intros x [<-|[<-|[<-|[<-|[]]]]]; simpl; auto.
    + reflexivity.
    + reflexivity.
  - intros x w. unfold four_slots_solution. simpl.
    repeat match goal with
           | |- context [Var.eq_dec x ?v] =>
               destruct (Var.eq_dec x v) as [->|?]
           end;
      intros H; inversion H; subst; simpl; auto 10.
Qed.

Lemma last_item_snoc {A : Type} (l : list A) (a : A) :
  last_item (l ++ [a]) = Ok a.
Proof. unfold last_item. rewrite rev_app_distr. reflexivity. Qed.

(** The loop of [select_unassigned_variable] keeps in [minCount] the domain
    size of the last variable it appended, and that size is the least seen. *)
Lemma select_loop_minimal (domains : Domains) (a : Assignment) :
  forall vars minCount listOfVars l var,
    select_loop domains a vars minCount listOfVars = Ok l ->
    last_item l = Ok var ->
    (forall u, last_item listOfVars = Ok u ->
               minCount = Z.of_nat (List.length (domain domains u))) ->
    (listOfVars = [] -> (minCount < 0)%Z) ->
    (forall v, In v vars -> ~ In v (keys a) ->
               List.length (domain domains var)
               <= List.length (domain domains v))
    /\ (forall u, last_item listOfVars = Ok u ->
                  List.length (domain domains var)
                  <= List.length (domain domains u)).
Proof.
  induction vars as [|x rest IH]; simpl;
    intros minCount listOfVars l var H Hlast Hmc Hnil.
  - inversion H; subst. split; [tauto|].
    intros u Hu. rewrite Hlast in Hu. inversion Hu; subst. lia.
  - destruct (contains Var.eq_dec a x) eqn:Hc.
    + destruct (IH _ _ _ _ H Hlast Hmc Hnil) as [Hmin Hle].
      split; [|assumption]. intros v [<-|Hv] Hn; [|auto].
      apply (contains_true Var.eq_dec) in Hc. tauto.
    + ok_inv H. apply domain_of_ok in Hm.
      rewrite <- (domain_get _ _ _ Hm) in H.
      assert (Happ : select_loop domains a rest
                       (Z.of_nat (List.length (domain domains x)))
                       (listOfVars ++ [x]) = Ok l ->
                     (forall u, last_item listOfVars = Ok u ->
                                List.length (domain domains x)
                                <= List.length (domain domains u)) ->
                     (forall v, x = v \/ In v rest -> ~ In v (keys a) ->
                                List.length (domain domains var)
                                <= List.length (domain domains v))
                     /\ (forall u, last_item listOfVars = Ok u ->
                                   List.length (domain domains var)
                                   <= List.length (domain domains u))).
      { intros H' Hx.
        destruct (IH _ _ _ _ H' Hlast) as [Hmin Hle].
        - intros u Hu. rewrite last_item_snoc in Hu. inversion Hu; subst.
          reflexivity.
        - intros E. destruct listOfVars; discriminate.
        - specialize (Hle x (last_item_snoc _ _)). split.
          + intros v [<-|Hv] Hn; auto.
          + intros u Hu. specialize (Hx u Hu). lia. }
      destruct (Z.ltb_spec minCount 0) as [Hneg|Hpos].
      * apply Happ; [assumption|]. intros u Hu.
        specialize (Hmc u Hu). lia.
      * destruct (Z.ltb_spec (Z.of_nat (List.length (domain domains x)))
                             minCount) as [Hlt|Hge].
        -- apply Happ; [assumption|]. intros u Hu.
           specialize (Hmc u Hu). lia.
        -- destruct (IH _ _ _ _ H Hlast Hmc Hnil) as [Hmin Hle].
           split; [|assumption]. intros v [<-|Hv] Hn; [|auto].
           destruct listOfVars as [|u0 us] eqn:El; [specialize (Hnil eq_refl); lia|].
           destruct (last_item (u0 :: us)) as [u| |] eqn:Hu.
           ++ specialize (Hle u eq_refl). specialize (Hmc u eq_refl). lia.
           ++ unfold last_item in Hu. destruct (rev (u0 :: us)) eqn:Er;
                [|discriminate].
              apply (f_equal (@rev Var.t)) in Er.
              rewrite rev_involutive in Er. discriminate.
           ++ unfold last_item in Hu. destruct (rev (u0 :: us)); discriminate.
Qed.

(** The part of the selection rule that the code does implement: the
    variable returned is unassigned and no unassigned variable has a smaller
    domain. *)
Lemma select_minimal_domain (cw : Crossword) (domains : Domains)
      (a : Assignment) (var : Var.t) :
  select_unassigned_variable cw domains a = Ok var ->
  In var (variables cw) /\ ~ In var (keys a)
  /\ forall v, In v (variables cw) -> ~ In v (keys a) ->
               List.length (domain domains var)
               <= List.length (domain domains v).
Proof.
  intros H. destruct (select_unassigned _ _ _ _ H) as [Hv Hn].
  repeat split; try assumption.
  unfold select_unassigned_variable in H. ok_inv H.
  apply (select_loop_minimal domains a (variables cw) (-1)%Z [] a0 var Hm H).
  - intros u Hu. discriminate.
  - intros _. lia.
Qed.

(** C8: on [h_shape] all three domains have two words after propagation;
    [select_unassigned_variable] returns the left down slot, which has one
    neighbour, although the across slot, with two neighbours, ties with it.
    The degree is never consulted: the choice is the same under any other
    table of overlaps. *)
Theorem select_ignores_degree :
  ac3 h_shape (enforce_node_consistency (init_domains h_shape)) None
  = Ok (false, init_domains h_shape)
  /\ select_unassigned_variable h_shape (init_domains h_shape) [] = Ok h_left
  /\ List.length (domain (init_domains h_shape) h_left)
     = List.length (domain (init_domains h_shape) h_bar)
  /\ List.length (neighbors h_shape h_left)
     < List.length (neighbors h_shape h_bar)
  /\ (forall cw table domains a,
         select_unassigned_variable (with_overlaps cw table) domains a
         = select_unassigned_variable cw domains a).
Proof. repeat split. simpl. lia. Qed.

(** On [four_slots] the outcome is the same for every iteration order of the
    variables and for every iteration order of the vocabulary. *)
Lemma four_slots_any_order :
  (forall vars,
      Permutation [slot_E; slot_B; slot_C; slot_D] vars ->
      fails_with_leftovers vars (words four_slots) = true)
  /\ (forall vocabulary,
         Permutation (words four_slots) vocabulary ->
         fails_with_leftovers (variables four_slots) vocabulary = true).
Proof.
  split.
  - intros vars.
    apply (forallb_orders
             (fun vs => fails_with_leftovers vs (words four_slots))).
    vm_compute. reflexivity.
  - intros vocabulary.
    apply (forallb_orders
             (fun ws => fails_with_leftovers (variables four_slots) ws)).
    vm_compute. reflexivity.
Qed.


(** * Further properties of the solver *)

(** ** Node consistency is a filter *)

Lemma set_remove_filter (value : string) (s : list string) :
  set_remove value s = filter (fun w => negb (mem w [value])) s.
Proof.
  unfold set_remove, mem. induction s as [|w s IH]; simpl; [reflexivity|].
  destruct (string_dec value w) as [E|E];
    destruct (in_dec string_dec w [value]) as [H|H]; simpl.
  - exact IH.
  - exfalso. apply H. simpl; auto.
  - exfalso. destruct H as [H|[]]. congruence.
  - rewrite IH. reflexivity.
Qed.

Lemma filter_filter {A : Type} (f g : A -> bool) (l : list A) :
  filter f (filter g l) = filter (fun x => g x && f x) l.
Proof.
  induction l as [|a l IH]; simpl; [reflexivity|].
  destruct (g a); simpl; [destruct (f a); rewrite IH; reflexivity|exact IH].
Qed.

Lemma remove_each_filter (toRemove s : list string) :
  remove_each toRemove s = filter (fun w => negb (mem w toRemove)) s.
Proof.
  unfold remove_each. revert s.
  induction toRemove as [|v rest IH]; intros s; simpl.
  - induction s as [|w s IHs]; simpl; [reflexivity|]. rewrite <- IHs.
    reflexivity.
  - rewrite IH, set_remove_filter, filter_filter.
    apply filter_ext. intros w. unfold mem.
    destruct (in_dec string_dec w [v]) as [H1|H1];
      destruct (in_dec string_dec w rest) as [H3|H3];
      destruct (in_dec string_dec w (v :: rest)) as [H2|H2];
      simpl in *; try reflexivity; exfalso; intuition auto.
Qed.

Lemma enforce_is_filter (domains : Domains) :
  enforce_node_consistency domains
  = map (fun entry : Var.t * list string =>
           (fst entry,
            filter (fun w => Var.length (fst entry) =? String.length w)
                   (snd entry)))
        domains.
Proof.
  unfold enforce_node_consistency. apply map_ext. intros [key s]. simpl.
  f_equal. rewrite remove_each_filter. apply filter_ext_in. intros w Hw.
  unfold mem.
  destruct (in_dec string_dec w
              (filter (fun value => negb (Var.length key =? String.length value)) s))
    as [H|H].
  - apply filter_In in H. destruct H as [_ H].
    destruct (Var.length key =? String.length w); [discriminate|reflexivity].
  - destruct (Var.length key =? String.length w) eqn:E; [reflexivity|].
    exfalso. apply H. apply filter_In. split; [assumption|].
    rewrite E. reflexivity.
Qed.

Lemma filter_twice {A : Type} (f : A -> bool) (l : list A) :
  filter f (filter f l) = filter f l.
Proof.
  induction l as [|a l IH]; simpl; [reflexivity|].
  destruct (f a) eqn:E; simpl; [rewrite E, IH; reflexivity|exact IH].
Qed.

(** X1: [enforce_node_consistency] keeps in every domain exactly the words
    of the variable's length, in their order, and so running it a second time
    changes nothing. *)
Theorem enforce_node_consistency_idempotent (domains : Domains) :
  (forall x,
      domain (enforce_node_consistency domains) x
      = filter (fun w => Var.length x =? String.length w) (domain domains x))
  /\ enforce_node_consistency (enforce_node_consistency domains)
     = enforce_node_consistency domains.
Proof.
  split.
  - intros x. unfold domain. rewrite enforce_is_filter.
    induction domains as [|[key s] rest IH]; simpl; [reflexivity|].
    destruct (Var.eq_dec x key) as [->|N]; [reflexivity|exact IH].
  - rewrite !enforce_is_filter. rewrite map_map. apply map_ext.
    intros [key s]. simpl. rewrite filter_twice. reflexivity.
Qed.

(** ** Completeness and consistency of an assignment *)

(** X2: for a dict whose keys are distinct variables of a crossword without
    duplicate variables, [assignment_complete] holds exactly when every
    variable has an entry. *)
Theorem assignment_complete_iff (cw : Crossword) (a : Assignment) :
  NoDup (variables cw) -> well_keyed cw a ->
  (assignment_complete cw a = true <->
   forall x, In x (variables cw) -> In x (keys a)).
Proof.
  intros NDv Hwk. split.
  - intros Hc x Hx. apply (get_in_keys Var.eq_dec).
    apply (complete_covers cw a NDv Hwk Hc x Hx).
  - intros Hall. unfold assignment_complete. apply Nat.eqb_eq.
    pose proof (NoDup_incl_length NDv Hall) as L.
    pose proof (well_keyed_length cw a Hwk) as L'.
    unfold keys in L. rewrite length_map in L. lia.
Qed.

Lemma assignment_complete_iff_witness :
  assignment_complete mixed mixed_solution = true <->
  forall x, In x (variables mixed) -> In x (keys mixed_solution).
Proof.
  apply (assignment_complete_iff mixed mixed_solution NoDup_mixed).
  split; [repeat constructor; simpl; intuition discriminate|].
  intros x H. exact H.
Defined.

Lemma check_neighbours_complete (cw : Crossword) (a : Assignment)
      (key : Var.t) (word : string) (ns : list Var.t) :
  overlaps_symmetric cw -> agree cw a ->
  get Var.eq_dec a key = Some word ->
  (forall n, In n ns -> n <> key /\ overlaps cw n key <> None) ->
  check_neighbours cw a key word ns = Ok true.
Proof.
  intros Hsym Hag Hkey. induction ns as [|n rest IH]; simpl; intros Hns;
    [reflexivity|].
  assert (IH' : check_neighbours cw a key word rest = Ok true)
    by (apply IH; auto).
  destruct (get Var.eq_dec a n) as [word'|] eqn:Hn; [|assumption].
  destruct (Hns n (or_introl eq_refl)) as [N Ho].
  destruct (overlaps cw key n) as [[i j]|] eqn:Hkn.
  - destruct (Hag key n i j word word' (not_eq_sym N) Hkn Hkey Hn)
      as (c & Hc & Hc').
    apply index_ok in Hc, Hc'. rewrite Hc. simpl. rewrite Hc'. simpl.
    rewrite Ascii.eqb_refl. assumption.
  - exfalso. apply Ho, Hsym, Hkn.
Qed.

Lemma consistent_loop_complete (cw : Crossword) (a : Assignment) :
  overlaps_symmetric cw -> agree cw a ->
  forall entries vals,
    (forall key word, In (key, word) entries ->
                      get Var.eq_dec a key = Some word
                      /\ String.length word = Var.length key) ->
    NoDup (map snd entries) ->
    (forall w, In w (map snd entries) -> ~ In w vals) ->
    consistent_loop cw a entries vals = Ok true.
Proof.
  intros Hsym Hag. induction entries as [|[key word] rest IH]; simpl;
    intros vals Hent Hnd Hvals; [reflexivity|].
  unfold mem. destruct (in_dec string_dec word vals) as [Hin|_];
    [exfalso; apply (Hvals word); auto|].
  destruct (Hent key word (or_introl eq_refl)) as [Hg Hlen].
  rewrite <- Hlen, Nat.eqb_refl. simpl.
  rewrite (check_neighbours_complete cw a key word _ Hsym Hag Hg).
  - simpl. inversion Hnd as [|? ? Hn Hnd']; subst.
    apply IH; [auto|assumption|].
    intros w Hw [<-|Hv]; [contradiction|]. apply (Hvals w); auto.
  - intros n Hn. apply in_neighbors in Hn. tauto.
Qed.

Lemma distinct_values_NoDup (a : Assignment) :
  NoDup (keys a) ->
  (forall x y w, get Var.eq_dec a x = Some w ->
                 get Var.eq_dec a y = Some w -> x = y) ->
  NoDup (map snd a).
Proof.
  intros ND Hinj.
  assert (H : forall l, incl l a -> NoDup (map fst l) -> NoDup (map snd l)).
  { induction l as [|[k v] l IH]; simpl; intros Hincl NDl; [constructor|].
    inversion NDl as [|? ? Hn NDl']; subst.
    constructor.
    - intros Hin. apply in_map_iff in Hin. destruct Hin as ([k' v'] & E & Hin).
      simpl in E. subst v'.
      assert (k = k').
      { apply (Hinj k k' v); apply (in_get Var.eq_dec); try assumption;
          apply Hincl; simpl; auto. }
      subst k'. apply Hn. apply (in_map fst) in Hin. exact Hin.
    - apply IH; [|assumption]. intros e He. apply Hincl. simpl; auto. }
  apply H; [apply incl_refl|exact ND].
Qed.

(** X3: on a dict whose keys are distinct variables, with overlaps defined
    in both directions or in neither, [consistent] returns true exactly when
    every assigned word has the length of its variable, assigned variables
    that overlap carry the same character in the shared cell, and no word is
    assigned to two variables. *)
Theorem consistent_iff (cw : Crossword) (a : Assignment) :
  well_keyed cw a -> overlaps_symmetric cw ->
  (consistent cw a = Ok true <->
   (forall x w, get Var.eq_dec a x = Some w -> String.length w = Var.length x)
   /\ agree cw a
   /\ (forall x y w, get Var.eq_dec a x = Some w ->
                     get Var.eq_dec a y = Some w -> x = y)).
Proof.
  intros Hwk Hsym. split; [apply consistent_sound; assumption|].
  intros (Hlen & Hag & Hinj). unfold consistent.
  apply consistent_loop_complete; try assumption.
  - intros key word Hin.
    assert (Hg : get Var.eq_dec a key = Some word)
      by (apply (in_get Var.eq_dec); [apply Hwk|assumption]).
    auto.
  - apply distinct_values_NoDup; [apply Hwk|assumption].
  - intros w _ [].
Qed.

Lemma consistent_iff_witness :
  consistent mixed mixed_solution = Ok true <->
  (forall x w, get Var.eq_dec mixed_solution x = Some w ->
               String.length w = Var.length x)
  /\ agree mixed mixed_solution
  /\ (forall x y w, get Var.eq_dec mixed_solution x = Some w ->
                    get Var.eq_dec mixed_solution y = Some w -> x = y).
Proof.
  apply (consistent_iff mixed mixed_solution).
  - split; [repeat constructor; simpl; intuition discriminate|].
    intros x H. exact H.
  - apply grid_overlaps_symmetric.
Defined.

(** ** The order of the candidate values *)

Lemma count_in_domains_ok (domains : Domains) (val : string)
      (ns : list Var.t) (k : nat) :
  count_in_domains domains val ns = Ok k ->
  k = List.length (filter (fun n => mem val (domain domains n)) ns).
Proof.
  revert k. induction ns as [|n rest IH]; simpl; intros k H.
  - inversion H; reflexivity.
  - ok_inv H. apply domain_of_ok in Hm. rewrite (domain_get _ _ _ Hm).
    inversion H; subst. rewrite (IH _ Hm0).
    destruct (mem val a); reflexivity.
Qed.

Lemma count_each_ok (domains : Domains) (ns : list Var.t)
      (values : list string) (counts : list (nat * string)) :
  count_each domains ns values = Ok counts ->
  counts
  = map (fun val =>
           (List.length (filter (fun n => mem val (domain domains n)) ns), val))
        values.
Proof.
  revert counts. induction values as [|val rest IH]; simpl; intros counts H.
  - inversion H; reflexivity.
  - ok_inv H. inversion H; subst.
    rewrite (count_in_domains_ok _ _ _ _ Hm), (IH _ Hm0). reflexivity.
Qed.

Lemma insert_by_count_perm (c : nat * string) (sorted : list (nat * string)) :
  Permutation (insert_by_count c sorted) (c :: sorted).
Proof.
  induction sorted as [|d rest IH]; simpl; [reflexivity|].
  destruct (fst c <=? fst d); [reflexivity|].
  rewrite IH. apply perm_swap.
Qed.

Lemma sort_by_count_perm (counts : list (nat * string)) :
  Permutation (sort_by_count counts) counts.
Proof.
  unfold sort_by_count. induction counts as [|c rest IH]; simpl; [reflexivity|].
  rewrite insert_by_count_perm, IH. reflexivity.
Qed.

Lemma insert_by_count_sorted (c : nat * string) (sorted : list (nat * string)) :
  StronglySorted (fun x y => fst x <= fst y) sorted ->
  StronglySorted (fun x y => fst x <= fst y) (insert_by_count c sorted).
Proof.
  induction sorted as [|d rest IH]; simpl; intros H.
  - constructor; constructor.
  - inversion H as [|? ? Hs Hall]; subst.
    destruct (Nat.leb_spec (fst c) (fst d)) as [L|L].
    + constructor; [assumption|]. constructor; [assumption|].
      apply Forall_forall. intros x Hx. rewrite Forall_forall in Hall.
      specialize (Hall x Hx). lia.
    + constructor; [apply IH; assumption|].
      apply Forall_forall. intros x Hx.
      apply (Permutation_in _ (insert_by_count_perm c rest)) in Hx.
      destruct Hx as [<-|Hx]; [lia|].
      rewrite Forall_forall in Hall. apply Hall, Hx.
Qed.

Lemma sort_by_count_sorted (counts : list (nat * string)) :
  StronglySorted (fun x y => fst x <= fst y) (sort_by_count counts).
Proof.
  unfold sort_by_count. induction counts as [|c rest IH]; simpl;
    [constructor|apply insert_by_count_sorted, IH].
Qed.

Lemma insert_by_count_stable (k : nat) (c : nat * string)
      (sorted : list (nat * string)) :
  filter (fun x => fst x =? k) (insert_by_count c sorted)
  = filter (fun x => fst x =? k) (c :: sorted).
Proof.
  induction sorted as [|d rest IH]; simpl; [reflexivity|].
  destruct (Nat.leb_spec (fst c) (fst d)) as [L|L]; [reflexivity|].
  simpl. rewrite IH. simpl.
  destruct (Nat.eqb_spec (fst c) k) as [Ec|Ec]; [|reflexivity].
  destruct (Nat.eqb_spec (fst d) k) as [Ed|Ed]; [lia|reflexivity].
Qed.

Lemma sort_by_count_stable (k : nat) (counts : list (nat * string)) :
  filter (fun x => fst x =? k) (sort_by_count counts)
  = filter (fun x => fst x =? k) counts.
Proof.
  unfold sort_by_count. induction counts as [|c rest IH]; simpl; [reflexivity|].
  rewrite insert_by_count_stable. simpl. rewrite IH. reflexivity.
Qed.

(** The pairs that [order_domain_values] sorts. *)
Lemma order_domain_values_inv (cw : Crossword) (domains : Domains)
      (var : Var.t) (a : Assignment) (values : list string) :
  order_domain_values cw domains var a = Ok values ->
  values
  = map snd (sort_by_count
               (map (fun val => (constraint_count cw domains a var val, val))
                    (domain domains var))).
Proof.
  unfold order_domain_values. intros H. ok_inv H.
  apply domain_of_ok in Hm. rewrite (domain_get _ _ _ Hm).
  apply count_each_ok in Hm0. inversion H; subst. reflexivity.
Qed.

Lemma map_snd_counted {A : Type} (f : A -> nat) (l : list A) :
  map snd (map (fun x => (f x, x)) l) = l.
Proof. rewrite map_map. simpl. apply map_id. Qed.

(** X4: the list that [order_domain_values] returns is a rearrangement of
    the domain of [var]: no candidate is lost, added or repeated. *)
Theorem order_domain_values_permutation (cw : Crossword) (domains : Domains)
        (var : Var.t) (a : Assignment) (values : list string) :
  order_domain_values cw domains var a = Ok values ->
  Permutation values (domain domains var).
Proof.
  intros H. rewrite (order_domain_values_inv _ _ _ _ _ H).
  rewrite sort_by_count_perm, map_snd_counted. reflexivity.
Qed.

Lemma order_domain_values_permutation_witness :
  Permutation ["AHA"; "DAD"] (domain four_slots_propagated slot_B).
Proof.
  apply (order_domain_values_permutation four_slots four_slots_propagated
           slot_B [] ["AHA"; "DAD"]).
  reflexivity.
Defined.

Lemma counted_pairs (f : string -> nat) (l : list string)
      (sorted : list (nat * string)) :
  Permutation sorted (map (fun x => (f x, x)) l) ->
  Forall (fun p => fst p = f (snd p)) sorted.
Proof.
  intros P. apply Forall_forall. intros p Hp.
  apply (Permutation_in _ P) in Hp. apply in_map_iff in Hp.
  destruct Hp as (x & <- & _). reflexivity.
Qed.

Lemma sorted_by_snd (f : string -> nat) (sorted : list (nat * string)) :
  Forall (fun p => fst p = f (snd p)) sorted ->
  StronglySorted (fun x y => fst x <= fst y) sorted ->
  StronglySorted (fun v v' => f v <= f v') (map snd sorted).
Proof.
  intros Hf Hs. induction Hs as [|p rest Hs IH Hall]; simpl; [constructor|].
  inversion Hf as [|? ? Hp Hf']; subst.
  constructor; [apply IH; assumption|].
  apply Forall_forall. intros v Hv. apply in_map_iff in Hv.
  destruct Hv as (q & <- & Hq). rewrite Forall_forall in Hall, Hf'.
  specialize (Hall q Hq). rewrite <- Hp, <- (Hf' q Hq). assumption.
Qed.

Lemma filter_map_snd (f : string -> nat) (k : nat)
      (pairs : list (nat * string)) :
  Forall (fun p => fst p = f (snd p)) pairs ->
  filter (fun v => f v =? k) (map snd pairs)
  = map snd (filter (fun p => fst p =? k) pairs).
Proof.
  induction pairs as [|p rest IH]; simpl; intros H; [reflexivity|].
  inversion H as [|? ? Hp H']; subst. rewrite <- Hp.
  destruct (fst p =? k); simpl; rewrite IH by assumption; reflexivity.
Qed.

(** X5: [order_domain_values] returns the candidates in ascending order of
    the number of unassigned neighbours whose domain holds the candidate, and
    candidates with the same number keep the order they have in the
    domain. *)
Theorem order_domain_values_sorted (cw : Crossword) (domains : Domains)
        (var : Var.t) (a : Assignment) (values : list string) :
  order_domain_values cw domains var a = Ok values ->
  StronglySorted (fun v v' => constraint_count cw domains a var v
                              <= constraint_count cw domains a var v')
                 values
  /\ forall k,
      filter (fun v => constraint_count cw domains a var v =? k) values
      = filter (fun v => constraint_count cw domains a var v =? k)
               (domain domains var).
Proof.
  intros H. rewrite (order_domain_values_inv _ _ _ _ _ H).
  set (f := constraint_count cw domains a var).
  set (pairs := map (fun val => (f val, val)) (domain domains var)).
  assert (Hf : Forall (fun p => fst p = f (snd p)) (sort_by_count pairs)).
  { apply (counted_pairs f (domain domains var)). apply sort_by_count_perm. }
  assert (Hp : Forall (fun p => fst p = f (snd p)) pairs).
  { apply (counted_pairs f (domain domains var)). reflexivity. }
  split.
  - apply sorted_by_snd; [assumption|apply sort_by_count_sorted].
  - intros k. rewrite (filter_map_snd f k _ Hf), sort_by_count_stable.
    rewrite <- (filter_map_snd f k _ Hp). unfold pairs.
    rewrite map_snd_counted. reflexivity.
Qed.

Lemma order_domain_values_sorted_witness :
  StronglySorted (fun v v' =>
                    constraint_count four_slots four_slots_propagated
                                     [(slot_B, "AHA")]
                                     slot_C v
                    <= constraint_count four_slots four_slots_propagated
                                     [(slot_B, "AHA")]
                                        slot_C v')
                 ["AHA"; "DEN"; "DAD"]
  /\ forall k,
      filter (fun v => constraint_count four_slots four_slots_propagated
                                     [(slot_B, "AHA")]
                                        slot_C v =? k)
             ["AHA"; "DEN"; "DAD"]
      = filter (fun v => constraint_count four_slots four_slots_propagated
                                     [(slot_B, "AHA")]
                                          slot_C v =? k)
               (domain four_slots_propagated slot_C).
Proof.
  apply (order_domain_values_sorted four_slots four_slots_propagated slot_C
           [(slot_B, "AHA")]
           ["AHA"; "DEN"; "DAD"]).
  reflexivity.
Defined.

(** ** The choice of the next variable *)

Lemma select_loop_first (domains : Domains) (a : Assignment) :
  forall vars minCount listOfVars l var,
    select_loop domains a vars minCount listOfVars = Ok l ->
    last_item l = Ok var ->
    (last_item listOfVars = Ok var
     /\ forall v, In v vars -> ~ In v (keys a) ->
                  (minCount <= Z.of_nat (List.length (domain domains v)))%Z)
    \/ exists before after,
        vars = before ++ var :: after
        /\ ~ In var (keys a)
        /\ (forall v, In v before -> ~ In v (keys a) ->
                      List.length (domain domains var)
                      < List.length (domain domains v))
        /\ ((0 <= minCount)%Z ->
            (Z.of_nat (List.length (domain domains var)) < minCount)%Z).
Proof.
  induction vars as [|x rest IH]; simpl; intros minCount listOfVars l var H Hl.
  - inversion H; subst. left. split; [assumption|tauto].
  - destruct (contains Var.eq_dec a x) eqn:Hc.
    + assert (Hx : In x (keys a)) by (apply (contains_true Var.eq_dec); assumption).
      destruct (IH _ _ _ _ H Hl) as [[Hlast Hmin]|(before & after & E & Hn & Hb & Hm)].
      * left. split; [assumption|]. intros v [<-|Hv] Hv'; [tauto|auto].
      * right. exists (x :: before), after. subst rest.
        repeat split; try assumption.
        intros v [<-|Hv] Hv'; [tauto|auto].
    + assert (Hx : ~ In x (keys a)).
      { intros Hin. apply (contains_true Var.eq_dec) in Hin. congruence. }
      ok_inv H. apply domain_of_ok in Hm.
      rewrite <- (domain_get _ _ _ Hm) in H.
      assert (Happ : select_loop domains a rest
                       (Z.of_nat (List.length (domain domains x)))
                       (listOfVars ++ [x]) = Ok l ->
                     ((0 <= minCount)%Z ->
                      (Z.of_nat (List.length (domain domains x)) < minCount)%Z) ->
                     exists before after,
                       x :: rest = before ++ var :: after
                       /\ ~ In var (keys a)
                       /\ (forall v, In v before -> ~ In v (keys a) ->
                                     List.length (domain domains var)
                                     < List.length (domain domains v))
                       /\ ((0 <= minCount)%Z ->
                           (Z.of_nat (List.length (domain domains var))
                            < minCount)%Z)).
      { intros H' Hlt.
        destruct (IH _ _ _ _ H' Hl)
          as [[Hlast _]|(before & after & E & Hn & Hb & Hm')].
        - rewrite last_item_snoc in Hlast. inversion Hlast; subst.
          exists [], rest. repeat split; try assumption. intros v [].
        - exists (x :: before), after. subst rest.
          assert (Hvx : List.length (domain domains var)
                        < List.length (domain domains x)) by lia.
          repeat split; try assumption.
          + intros v [<-|Hv] Hv'; [assumption|auto].
          + intros Hpos. specialize (Hlt Hpos). lia. }
      destruct (Z.ltb_spec minCount 0) as [Hneg|Hpos].
      * right. apply Happ; [assumption|lia].
      * destruct (Z.ltb_spec (Z.of_nat (List.length (domain domains x)))
                             minCount) as [Hlt|Hge].
        -- right. apply Happ; [assumption|lia].
        -- destruct (IH _ _ _ _ H Hl)
             as [[Hlast Hmin]|(before & after & E & Hn & Hb & Hm')].
           ++ left. split; [assumption|].
              intros v [<-|Hv] Hv'; [assumption|auto].
           ++ right. exists (x :: before), after. subst rest.
              specialize (Hm' Hpos).
              repeat split; try assumption; [|lia].
              intros v [<-|Hv] Hv'; [lia|auto].
Qed.

(** X6: the variable that [select_unassigned_variable] returns is the first
    unassigned variable, in the iteration order of the set of variables,
    whose domain is smallest: no unassigned variable has a smaller domain,
    and every unassigned variable before it has a strictly larger one. *)
Theorem select_first_smallest_domain (cw : Crossword) (domains : Domains)
        (a : Assignment) (var : Var.t) :
  select_unassigned_variable cw domains a = Ok var ->
  ~ In var (keys a)
  /\ (forall v, In v (variables cw) -> ~ In v (keys a) ->
                List.length (domain domains var)
                <= List.length (domain domains v))
  /\ exists before after,
      variables cw = before ++ var :: after
      /\ forall v, In v before -> ~ In v (keys a) ->
                   List.length (domain domains var)
                   < List.length (domain domains v).
Proof.
  intros H. destruct (select_minimal_domain _ _ _ _ H) as (_ & Hn & Hmin).
  split; [assumption|]. split; [assumption|].
  unfold select_unassigned_variable in H. ok_inv H.
  destruct (select_loop_first _ _ _ _ _ _ _ Hm H)
    as [[Hlast _]|(before & after & E & _ & Hb & _)]; [discriminate|].
  exists before, after. auto.
Qed.

Lemma select_first_smallest_domain_witness :
  ~ In slot_B (keys (@nil (Var.t * string)))
  /\ (forall v, In v (variables four_slots) ->
                ~ In v (keys (@nil (Var.t * string))) ->
                List.length (domain four_slots_propagated slot_B)
                <= List.length (domain four_slots_propagated v))
  /\ exists before after,
      variables four_slots = before ++ slot_B :: after
      /\ forall v, In v before -> ~ In v (keys (@nil (Var.t * string))) ->
                   List.length (domain four_slots_propagated slot_B)
                   < List.length (domain four_slots_propagated v).
Proof.
  apply (select_first_smallest_domain four_slots four_slots_propagated []
           slot_B).
  reflexivity.
Defined.





(** ** What the search does to its dict *)

Lemma get_del_neq {K V : Type} (K_eq_dec : forall a b : K, {a = b} + {a <> b})
      (d : list (K * V)) (k k' : K) :
  k' <> k -> get K_eq_dec (del K_eq_dec d k) k' = get K_eq_dec d k'.
Proof.
  intros N. induction d as [|[k0 v0] d IH]; simpl; [reflexivity|].
  destruct (K_eq_dec k k0) as [E|E]; simpl.
  - subst. destruct (K_eq_dec k' k0); congruence.
  - destruct (K_eq_dec k' k0); congruence.
Qed.

Lemma try_values_keeps_entries (cw : Crossword)
      (recur : Assignment -> result (bool * Assignment))
      (base : Assignment) (var : Var.t) :
  ~ In var (keys base) ->
  (forall a r, recur a = Ok r ->
               forall k v, get Var.eq_dec a k = Some v ->
                           get Var.eq_dec (snd r) k = Some v) ->
  forall values s r,
    (forall k v, get Var.eq_dec base k = Some v ->
                 get Var.eq_dec s k = Some v) ->
    try_values cw recur var values s = Ok r ->
    forall k v, get Var.eq_dec base k = Some v ->
                get Var.eq_dec (snd r) k = Some v.
Proof.
  intros Hn Hrec.
  assert (Hvar : forall k v, get Var.eq_dec base k = Some v -> k <> var).
  { intros k v Hk ->. apply Hn. apply (get_in_keys Var.eq_dec). eauto. }
  induction values as [|value rest IH]; simpl; intros s r Hs H k v Hk.
  - inversion H; subst. auto.
  - assert (Hs1 : forall k v, get Var.eq_dec base k = Some v ->
                              get Var.eq_dec (set Var.eq_dec s var value) k
                              = Some v).
    { intros k0 v0 Hk0. rewrite get_set_neq by eauto. auto. }
    ok_inv H. destruct a.
    + ok_inv H. destruct b.
      * inversion H; subst. simpl. apply (Hrec _ _ Hm0). auto.
      * apply (IH _ _ (fun k0 v0 Hk0 =>
                         eq_trans (get_del_neq Var.eq_dec a var k0
                                               (Hvar _ _ Hk0))
                                  (Hrec _ _ Hm0 _ _ (Hs1 _ _ Hk0))) H k v Hk).
    + apply (IH _ _ Hs1 H k v Hk).
Qed.

(** X8: whatever [backtrack] returns, every entry that the dict had when the
    call was made is still there with the same word: the search only adds
    entries for variables that were unassigned, and only those are
    overwritten or deleted (and possibly left behind). *)
Theorem backtrack_keeps_entries (cw : Crossword) (domains : Domains) :
  forall fuel a r,
    backtrack cw domains fuel a = Ok r ->
    forall k v, get Var.eq_dec a k = Some v ->
                get Var.eq_dec (snd r) k = Some v.
Proof.
  induction fuel as [|fuel IH]; simpl; intros a r H k v Hk; [discriminate|].
  destruct (assignment_complete cw a).
  - inversion H; subst. assumption.
  - ok_inv H. apply select_unassigned in Hm. destruct Hm as [_ Hn].
    apply (try_values_keeps_entries cw (backtrack cw domains fuel) a a0 Hn IH
             a1 a r (fun _ _ E => E) H k v Hk).
Qed.

Lemma backtrack_keeps_entries_witness :
  get Var.eq_dec [(across_B, "CAT"); (down_4, "BATS")] across_B = Some "CAT".
Proof.
  apply (backtrack_keeps_entries mixed mixed_propagated 3
           [(across_B, "CAT")] (true, [(across_B, "CAT"); (down_4, "BATS")])).
  - reflexivity.
  - reflexivity.
Defined.

(** ** Where the words of a solution come from *)

Lemma in_set_entry {K V : Type} (K_eq_dec : forall a b : K, {a = b} + {a <> b})
      (d : list (K * V)) (k : K) (v : V) (e : K * V) :
  In e (set K_eq_dec d k v) -> e = (k, v) \/ In e d.
Proof.
  induction d as [|[k0 v0] d IH]; simpl.
  - intros [<-|[]]; auto.
  - destruct (K_eq_dec k k0) as [E|E]; simpl.
    + subst. intros [<-|H]; auto.
    + intros [<-|H]; auto. destruct (IH H); auto.
Qed.

Lemma order_values_in_domain (cw : Crossword) (domains : Domains)
      (var : Var.t) (a : Assignment) (values : list string) :
  order_domain_values cw domains var a = Ok values ->
  forall value, In value values -> In value (domain domains var).
Proof.
  intros H value Hv. rewrite (order_domain_values_inv _ _ _ _ _ H) in Hv.
  apply in_map_iff in Hv. destruct Hv as ([k w] & <- & Hin).
  apply (Permutation_in _ (sort_by_count_perm _)) in Hin.
  apply in_map_iff in Hin. destruct Hin as (w' & E & Hw').
  inversion E; subst. assumption.
Qed.

Lemma try_values_from_domain (cw : Crossword) (d : Domains)
      (recur : Assignment -> result (bool * Assignment)) (var : Var.t) :
  (forall a r, recur a = Ok r ->
               Forall (fun e => In (snd e) (domain d (fst e))) a ->
               Forall (fun e => In (snd e) (domain d (fst e))) (snd r)) ->
  forall values s r,
    (forall value, In value values -> In value (domain d var)) ->
    Forall (fun e => In (snd e) (domain d (fst e))) s ->
    try_values cw recur var values s = Ok r ->
    Forall (fun e => In (snd e) (domain d (fst e))) (snd r).
Proof.
  intros Hrec. induction values as [|value rest IH]; simpl;
    intros s r Hvals Hs H.
  - inversion H; subst. assumption.
  - assert (Hs1 : Forall (fun e => In (snd e) (domain d (fst e)))
                         (set Var.eq_dec s var value)).
    { apply Forall_forall. intros e He.
      apply in_set_entry in He. destruct He as [->|He]; simpl; [auto|].
      rewrite Forall_forall in Hs. auto. }
    ok_inv H. destruct a.
    + ok_inv H. pose proof (Hrec _ _ Hm0 Hs1) as Hs2. simpl in Hs2.
      destruct b.
      * inversion H; subst. assumption.
      * apply (IH _ _ (fun v Hv => Hvals v (or_intror Hv))) with (2 := H).
        apply Forall_forall. intros e He. apply in_del in He.
        rewrite Forall_forall in Hs2. auto.
    + apply (IH _ _ (fun v Hv => Hvals v (or_intror Hv)) Hs1 H).
Qed.

Lemma backtrack_from_domain (cw : Crossword) (d : Domains) :
  forall fuel a r,
    backtrack cw d fuel a = Ok r ->
    Forall (fun e => In (snd e) (domain d (fst e))) a ->
    Forall (fun e => In (snd e) (domain d (fst e))) (snd r).
Proof.
  induction fuel as [|fuel IH]; simpl; intros a r H Ha; [discriminate|].
  destruct (assignment_complete cw a).
  - inversion H; subst. assumption.
  - ok_inv H.
    apply (try_values_from_domain cw d (backtrack cw d fuel) a0 IH a1 a r);
      try assumption.
    intros value Hv. apply (order_values_in_domain _ _ _ _ _ Hm0 value Hv).
Qed.

Lemma in_domain_init (cw : Crossword) (x : Var.t) (w : string) :
  In w (domain (init_domains cw) x) -> In w (words cw).
Proof.
  unfold domain, init_domains.
  induction (variables cw) as [|v rest IH]; simpl; [tauto|].
  destruct (Var.eq_dec x v); [tauto|exact IH].
Qed.

Lemma solve_dict_from_domains (cw : Crossword) (domains domains' : Domains)
      (res : option Assignment) (a : Assignment) :
  solve cw domains = Ok (res, a, domains') ->
  forall x w, get Var.eq_dec a x = Some w ->
              In w (domain domains' x) /\ In w (domain domains x).
Proof.
  intros H x w Hg.
  destruct (solve_inv _ _ _ _ _ H) as (ret & r & Hac & Hbt & _ & ->).
  pose proof (backtrack_from_domain _ _ _ _ _ Hbt (Forall_nil _)) as Hall.
  rewrite Forall_forall in Hall.
  specialize (Hall (x, w) (get_in Var.eq_dec _ _ _ Hg)). simpl in Hall.
  split; [assumption|].
  apply (proj2 (enforce_shrinks domains)).
  apply (proj2 (ac3_shrinks _ _ _ _ _ Hac)). assumption.
Qed.

Lemma solve_returns_dict (cw : Crossword) (domains domains' : Domains)
      (sol a : Assignment) :
  solve cw domains = Ok (Some sol, a, domains') -> sol = a.
Proof.
  intros H. destruct (solve_inv _ _ _ _ _ H) as (ret & r & _ & _ & Hres & ->).
  unfold returned in Hres. destruct (fst r); [|discriminate].
  inversion Hres; reflexivity.
Qed.

(** X9: every word of an assignment that [solve] returns is in the domain of
    its variable, after propagation and before; with the store that
    [__init__] builds, every word comes from the vocabulary. *)
Theorem solution_words_from_domains (cw : Crossword) :
  (forall domains domains' sol a,
      solve cw domains = Ok (Some sol, a, domains') ->
      forall x w, get Var.eq_dec sol x = Some w ->
                  In w (domain domains' x) /\ In w (domain domains x))
  /\ (forall domains' sol a,
         solve cw (init_domains cw) = Ok (Some sol, a, domains') ->
         forall x w, get Var.eq_dec sol x = Some w -> In w (words cw)).
Proof.
  split.
  - intros domains domains' sol a H x w Hg.
    rewrite (solve_returns_dict _ _ _ _ _ H) in Hg.
    apply (solve_dict_from_domains _ _ _ _ _ H x w Hg).
  - intros domains' sol a H x w Hg.
    rewrite (solve_returns_dict _ _ _ _ _ H) in Hg.
    apply (in_domain_init cw x).
    apply (solve_dict_from_domains _ _ _ _ _ H x w Hg).
Qed.

Lemma solution_words_from_domains_witness : In "BATS" (words mixed).
Proof.
  apply (proj2 (solution_words_from_domains mixed)
           mixed_propagated mixed_solution mixed_solution eq_refl down_4).
  reflexivity.
Defined.

(** X10: when the domain of some variable is empty after propagation,
    [solve] returns no assignment. *)
Theorem empty_domain_no_solution (cw : Crossword) (domains domains' : Domains)
        (res : option Assignment) (a : Assignment) (x : Var.t) :
  NoDup (variables cw) ->
  solve cw domains = Ok (res, a, domains') ->
  In x (variables cw) -> domain domains' x = [] ->
  res = None.
Proof.
  intros NDv H Hx Hempty. destruct res as [sol|]; [exfalso|reflexivity].
  pose proof (solve_returns_dict _ _ _ _ _ H) as ->.
  destruct (solve_inv _ _ _ _ _ H) as (ret & r & _ & Hbt & Hres & ->).
  destruct (backtrack_sound cw domains' _ _ _ (well_keyed_empty cw)
              (fun _ => eq_refl) Hbt) as [Hwk Hgood].
  unfold returned in Hres. destruct (fst r); [|discriminate].
  destruct (Hgood eq_refl) as [Hc _].
  destruct (complete_covers cw (snd r) NDv Hwk Hc x Hx) as [w Hw].
  destruct (solve_dict_from_domains _ _ _ _ _ H x w Hw) as [Hin _].
  rewrite Hempty in Hin. destruct Hin.
Qed.

Lemma empty_domain_no_solution_witness : @None Assignment = None.
Proof.
  apply (empty_domain_no_solution clash
           (init_domains clash) [(across_B, []); (down_4, ["DOGS"])]
           None [] across_B).
  - repeat constructor; simpl; intuition discriminate.
  - reflexivity.
  - simpl; auto.
  - reflexivity.
Defined.

(** ** The fixpoint that propagation reaches *)

Lemma revise_consistent_arc (cw : Crossword) (d d' : Domains) (x y : Var.t)
      (revised : bool) :
  arc_consistent cw d x y ->
  revise cw d x y = Ok (revised, d') -> revised = false /\ d' = d.
Proof.
  intros Hac H.
  assert (Hr : revised = false).
  { destruct revised; [exfalso|reflexivity].
    destruct (overlaps cw x y) as [[ix iy]|] eqn:Ho.
    - destruct (revise_spec _ _ _ _ _ _ _ _ Ho H) as (_ & _ & _ & Hrev).
      destruct (proj1 Hrev eq_refl) as (w & Hw & Hn).
      apply Hn. apply (Hac ix iy Ho w Hw).
    - rewrite (revise_no_overlap _ _ _ _ Ho) in H. discriminate. }
  subst revised. split; [reflexivity|].
  apply (revise_effect _ _ _ _ _ _ H).
Qed.

Lemma ac3_loop_noop (cw : Crossword) :
  forall fuel d queue changes ret d',
    ac3_loop cw fuel d queue changes = Ok (ret, d') ->
    Forall (fun arc : Arc => arc_consistent cw d (fst arc) (snd arc)) queue ->
    d' = d /\ ret = negb (changes =? 0).
Proof.
  apply (ac3_loop_ind cw (fun d queue changes ret d' =>
    Forall (fun arc : Arc => arc_consistent cw d (fst arc) (snd arc)) queue ->
    d' = d /\ ret = negb (changes =? 0))).
  - auto.
  - intros d arc queue changes ret d' _ IH Hq. inversion Hq; subst. auto.
  - intros d arc queue changes d1 Hrev _ _ Hq. inversion Hq; subst.
    destruct (revise_consistent_arc _ _ _ _ _ _ H1 Hrev). discriminate.
  - intros d arc queue changes d1 ret d' Hrev _ _ Hq. inversion Hq; subst.
    destruct (revise_consistent_arc _ _ _ _ _ _ H1 Hrev). discriminate.
Qed.

(** X11: on a store in which every arc is already consistent, [ac3] (with
    any initial arc list) changes nothing and returns false whenever it
    returns.  In particular a second run of [ac3] after a run that emptied no
    domain changes nothing and returns false. *)
Theorem ac3_fixpoint (cw : Crossword) (domains : Domains) :
  ((forall x y, arc_consistent cw domains x y) ->
   forall arcs ret domains',
     ac3 cw domains arcs = Ok (ret, domains') ->
     ret = false /\ domains' = domains)
  /\ (same_elements (keys domains) (variables cw) ->
      forall ret1 domains1 ret2 domains2,
        ac3 cw domains None = Ok (ret1, domains1) ->
        none_emptied domains domains1 ->
        ac3 cw domains1 None = Ok (ret2, domains2) ->
        ret2 = false /\ domains2 = domains1).
Proof.
  split.
  - intros Hall arcs ret domains' H.
    destruct (ac3_loop_noop _ _ _ _ _ _ _ H) as [-> ->]; [|auto].
    apply Forall_forall. intros arc _. apply Hall.
  - intros Hk ret1 d1 ret2 d2 H1 Hne H2.
    pose proof (ac3_shrinks _ _ _ _ _ H1) as [Hk1 _].
    destruct (ac3_loop_noop _ _ _ _ _ _ _ H2) as [-> ->]; [|auto].
    unfold push_all. rewrite app_nil_r. apply Forall_rev.
    apply Forall_forall. intros arc Harc.
    apply in_all_arcs in Harc. destruct Harc as (v & n & Hv & Hn & E).
    apply in_neighbors in Hn. destruct Hn as (Hn & N & _).
    rewrite Hk1 in Hv.
    assert (Hvv : In v (variables cw)) by (apply Hk; assumption).
    assert (Hnk : In n (keys domains)) by (apply Hk; assumption).
    destruct E as [->| ->]; simpl.
    + apply (ac3_loop_arc_consistent cw _ _ _ _ _ _ H1
               (covered_seed cw domains) Hne v n Hvv Hnk (not_eq_sym N)).
    + apply (ac3_loop_arc_consistent cw _ _ _ _ _ _ H1
               (covered_seed cw domains) Hne n v Hn Hv N).
Qed.

Lemma ac3_fixpoint_witness :
  false = false
  /\ [(across_B, ["CAT"]); (down_B, ["BAT"])]
     = [(across_B, ["CAT"]); (down_B, ["BAT"])].
Proof.
  apply (proj2 (ac3_fixpoint scenario_B pruned_B))
    with (ret1 := true) (domains1 := [(across_B, ["CAT"]); (down_B, ["BAT"])]).
  - intros x. simpl. tauto.
  - reflexivity.
  - intros v. unfold domain, pruned_B. simpl.
    destruct (Var.eq_dec v across_B); [discriminate|].
    destruct (Var.eq_dec v down_B); [discriminate|auto].
  - reflexivity.
Defined.

(** A family of sub-domains in which every arc between variables is
    consistent. *)
Lemma revise_keeps_substore (cw : Crossword) (d d' e : Domains) (arc : Arc)
      (revised : bool) :
  (forall x y, In x (variables cw) -> In y (variables cw) -> x <> y ->
               arc_consistent cw e x y) ->
  (forall x w, In w (domain e x) -> In w (domain d x)) ->
  proper_arc cw arc ->
  revise cw d (fst arc) (snd arc) = Ok (revised, d') ->
  forall x w, In w (domain e x) -> In w (domain d' x).
Proof.
  intros Hac Hsub (N & Hx & Hy) Hrev z w Hz.
  destruct arc as [x y]. simpl in *.
  destruct (Var.eq_dec z x) as [->|Nz].
  - destruct (overlaps cw x y) as [[ix iy]|] eqn:Ho.
    + destruct (revise_spec _ _ _ _ _ _ _ _ Ho Hrev) as (Hin & _).
      apply Hin. split; [auto|].
      destruct (Hac x y Hx Hy N ix iy Ho w Hz) as (c & w' & Hc & Hw' & Hc').
      exists c, w'. auto.
    + rewrite (revise_no_overlap _ _ _ _ Ho) in Hrev. inversion Hrev; subst.
      auto.
  - pose proof (revise_effect _ _ _ _ _ _ Hrev) as (_ & Hsame & _).
    rewrite Hsame by assumption. auto.
Qed.

Lemma ac3_loop_keeps_substore (cw : Crossword) (e : Domains) :
  (forall x y, In x (variables cw) -> In y (variables cw) -> x <> y ->
               arc_consistent cw e x y) ->
  forall fuel d queue changes ret d',
    ac3_loop cw fuel d queue changes = Ok (ret, d') ->
    Forall (proper_arc cw) queue ->
    (forall x w, In w (domain e x) -> In w (domain d x)) ->
    forall x w, In w (domain e x) -> In w (domain d' x).
Proof.
  intros Hac.
  apply (ac3_loop_ind cw (fun d queue _ _ d' =>
    Forall (proper_arc cw) queue ->
    (forall x w, In w (domain e x) -> In w (domain d x)) ->
    forall x w, In w (domain e x) -> In w (domain d' x))).
  - auto.
  - intros d arc queue _ _ d' _ IH Hq. inversion Hq; subst. auto.
  - intros d arc queue _ d1 Hrev _ _ Hq Hsub. inversion Hq; subst.
    apply (revise_keeps_substore cw d d1 e arc true); assumption.
  - intros d arc queue _ d1 _ d' Hrev _ IH Hq Hsub. inversion Hq; subst.
    apply IH.
    + apply proper_push_all; [|assumption].
      apply proper_arcs_around. apply H1.
    + apply (revise_keeps_substore cw d d1 e arc true); assumption.
Qed.

Lemma ac3_keeps_substore (cw : Crossword) (d d' e : Domains) (ret : bool) :
  (forall x, In x (keys d) -> In x (variables cw)) ->
  (forall x y, In x (variables cw) -> In y (variables cw) -> x <> y ->
               arc_consistent cw e x y) ->
  (forall x w, In w (domain e x) -> In w (domain d x)) ->
  ac3 cw d None = Ok (ret, d') ->
  forall x w, In w (domain e x) -> In w (domain d' x).
Proof.
  intros Hk Hac Hsub H.
  apply (ac3_loop_keeps_substore cw e Hac _ _ _ _ _ _ H); [|assumption].
  apply proper_push_all; [|constructor]. apply proper_all_arcs. assumption.
Qed.

(** X12: [ac3] with the default seed removes no word of any family of
    sub-domains in which every arc between two variables is consistent: what
    it leaves is the largest such family. *)
Theorem ac3_keeps_every_consistent_substore
        (cw : Crossword) (domains domains' substore : Domains) (ret : bool) :
  (forall x, In x (keys domains) -> In x (variables cw)) ->
  (forall x y, In x (variables cw) -> In y (variables cw) -> x <> y ->
               arc_consistent cw substore x y) ->
  (forall x w, In w (domain substore x) -> In w (domain domains x)) ->
  ac3 cw domains None = Ok (ret, domains') ->
  forall x w, In w (domain substore x) -> In w (domain domains' x).
Proof. exact (fun Hk Hac Hsub H => ac3_keeps_substore cw _ _ _ _ Hk Hac Hsub H). Qed.

Lemma ac3_keeps_every_consistent_substore_witness :
  In "CAT" (domain [(across_B, ["CAT"]); (down_B, ["BAT"])] across_B).
Proof.
  apply (ac3_keeps_every_consistent_substore scenario_B pruned_B
           [(across_B, ["CAT"]); (down_B, ["BAT"])]
           [(across_B, ["CAT"]); (down_B, ["BAT"])] true).
  - intros x H. exact H.
  - intros x y [<-|[<-|[]]] [<-|[<-|[]]] N ix iy Ho w Hw;
      try congruence; inversion Ho; subst;
      destruct Hw as [<-|[]].
    + exists "A"%char, "BAT". simpl. auto.
    + exists "A"%char, "CAT". simpl. auto.
  - intros x w. unfold domain, pruned_B. simpl.
    destruct (Var.eq_dec x across_B); [simpl; tauto|].
    destruct (Var.eq_dec x down_B); simpl; tauto.
  - reflexivity.
  - simpl; auto.
Defined.

Lemma arc_consistent_same_overlaps (cw1 cw2 : Crossword) (d : Domains)
      (x y : Var.t) :
  (forall u v, overlaps cw1 u v = overlaps cw2 u v) ->
  arc_consistent cw1 d x y -> arc_consistent cw2 d x y.
Proof.
  intros Ho Hac ix iy H. apply Hac. rewrite Ho. assumption.
Qed.

Lemma ac3_order_included (cw1 cw2 : Crossword) (d1 d2 e1 e2 : Domains)
      (r1 r2 : bool) :
  (forall u v, overlaps cw1 u v = overlaps cw2 u v) ->
  same_elements (variables cw1) (variables cw2) ->
  same_elements (keys d1) (variables cw1) ->
  same_elements (keys d2) (variables cw2) ->
  (forall x, same_elements (domain d1 x) (domain d2 x)) ->
  ac3 cw1 d1 None = Ok (r1, e1) -> ac3 cw2 d2 None = Ok (r2, e2) ->
  none_emptied d1 e1 ->
  forall x w, In w (domain e1 x) -> In w (domain e2 x).
Proof.
  intros Ho Hv Hk1 Hk2 Hd H1 H2 Hne.
  apply (ac3_keeps_substore cw2 d2 e2 e1 r2).
  - intros x Hx. apply Hk2. assumption.
  - intros x y Hx Hy N.
    apply (arc_consistent_same_overlaps cw1 cw2 e1 x y Ho).
    apply (ac3_loop_arc_consistent cw1 _ _ _ _ _ _ H1 (covered_seed cw1 d1)
             Hne x y).
    + apply Hv. assumption.
    + apply Hk1, Hv. assumption.
    + assumption.
  - intros x w Hw. apply Hd.
    apply (proj2 (ac3_shrinks _ _ _ _ _ H1)). assumption.
  - assumption.
Qed.

(** X13: the domains that [ac3] leaves do not depend on the order in which
    the sets are iterated or the arcs are processed: two runs with the
    default seed, on the same variables, overlaps and domains listed in any
    orders, that both return without emptying a domain, leave the same words
    in every domain. *)
Theorem ac3_order_independent (cw1 cw2 : Crossword) (d1 d2 e1 e2 : Domains)
        (r1 r2 : bool) :
  (forall u v, overlaps cw1 u v = overlaps cw2 u v) ->
  same_elements (variables cw1) (variables cw2) ->
  same_elements (keys d1) (variables cw1) ->
  same_elements (keys d2) (variables cw2) ->
  (forall x, same_elements (domain d1 x) (domain d2 x)) ->
  ac3 cw1 d1 None = Ok (r1, e1) -> ac3 cw2 d2 None = Ok (r2, e2) ->
  none_emptied d1 e1 -> none_emptied d2 e2 ->
  forall x, same_elements (domain e1 x) (domain e2 x).
Proof.
  intros Ho Hv Hk1 Hk2 Hd H1 H2 Hne1 Hne2 x w. split.
  - apply (ac3_order_included cw1 cw2 d1 d2 e1 e2 r1 r2); assumption.
  - apply (ac3_order_included cw2 cw1 d2 d1 e2 e1 r2 r1); try assumption.
    + intros u v. symmetry. apply Ho.
    + intros v. symmetry. apply Hv.
    + intros y v. symmetry. apply Hd.
Qed.

Ltac by_slot x :=
  unfold domain, pruned_B, pruned_B_reversed; simpl;
  destruct (Var.eq_dec x across_B); destruct (Var.eq_dec x down_B);
  simpl; try tauto; try discriminate; auto;
  try (exfalso; subst; discriminate).

Lemma ac3_order_independent_witness :
  In "CAT" (domain [(across_B, ["CAT"]); (down_B, ["BAT"])] across_B)
  <-> In "CAT" (domain [(down_B, ["BAT"]); (across_B, ["CAT"])] across_B).
Proof.
  apply (ac3_order_independent scenario_B scenario_B_reversed
           pruned_B pruned_B_reversed
           [(across_B, ["CAT"]); (down_B, ["BAT"])]
           [(down_B, ["BAT"]); (across_B, ["CAT"])] true true).
  - reflexivity.
  - intros v. simpl. tauto.
  - intros v. simpl. tauto.
  - intros v. simpl. tauto.
  - intros x w. by_slot x.
  - reflexivity.
  - reflexivity.
  - intros x. by_slot x.
  - intros x. by_slot x.
Defined.

(** ** Propagation and search do not raise on a well-formed crossword *)

(** X14: when overlap indices lie inside the variables' lengths and every
    variable has a domain, [ac3] run after [enforce_node_consistency]
    returns: no lookup or indexing in it raises. *)
Theorem propagation_does_not_raise (cw : Crossword) (domains : Domains) :
  overlaps_in_range cw ->
  (forall v, In v (variables cw) -> In v (keys domains)) ->
  exists ret domains',
    ac3 cw (enforce_node_consistency domains) None = Ok (ret, domains').
Proof. exact (ac3_after_node_consistency_returns cw domains). Qed.

Lemma propagation_does_not_raise_witness :
  exists ret domains',
    ac3 mixed (enforce_node_consistency (init_domains mixed)) None
    = Ok (ret, domains').
Proof.
  apply (propagation_does_not_raise mixed (init_domains mixed)).
  - apply grid_overlaps_in_range.
  - intros v H. exact H.
Defined.

(** X15: on a crossword without duplicate variables, whose overlap indices
    lie inside the variables' lengths and whose overlaps are defined in both
    directions or in neither, [solve] started from the store of [__init__]
    returns, with an assignment or with [None]: nothing in propagation or
    search raises. *)
Theorem solve_does_not_raise (cw : Crossword) :
  NoDup (variables cw) -> overlaps_in_range cw -> overlaps_symmetric cw ->
  exists res a domains',
    solve cw (init_domains cw) = Ok (res, a, domains').
Proof. exact (solve_returns cw). Qed.

Lemma solve_does_not_raise_witness :
  exists res a domains',
    solve four_slots (init_domains four_slots) = Ok (res, a, domains').
Proof.
  apply (solve_does_not_raise four_slots).
  - repeat constructor; simpl; intuition discriminate.
  - apply grid_overlaps_in_range.
  - apply grid_overlaps_symmetric.
Defined.

(** ** The letter grid *)

Lemma store_spec {A : Type} (l : list A) (n : nat) (a : A) :
  (n < List.length l ->
   exists l', store l n a = Ok l'
              /\ List.length l' = List.length l
              /\ nth_error l' n = Some a
              /\ forall m, m <> n -> nth_error l' m = nth_error l m)
  /\ (List.length l <= n -> store l n a = Raise IndexError).
Proof.
  revert n. induction l as [|b rest IH]; intros n; simpl.
  - split; [lia|]. destruct n; reflexivity.
  - destruct n as [|n].
    + split; [|lia]. intros _. exists (a :: rest).
      repeat split. intros [|m] Hm; [congruence|reflexivity].
    + destruct (IH n) as [Hok Hbad]. split.
      * intros Hn. destruct Hok as (l' & Hs & Hlen & Hnth & Hoth); [lia|].
        rewrite Hs. simpl. exists (b :: l'). repeat split; simpl; auto.
        intros [|m] Hm; [reflexivity|]. apply Hoth. congruence.
      * intros Hn. rewrite Hbad by lia. reflexivity.
Qed.

Lemma item_spec {A : Type} (l : list A) (n : nat) :
  (n < List.length l -> exists a, item l n = Ok a /\ nth_error l n = Some a)
  /\ (List.length l <= n -> item l n = Raise IndexError).
Proof.
  unfold item. split; intros H.
  - destruct (nth_error l n) as [a|] eqn:E; [eauto|].
    apply nth_error_None in E. lia.
  - apply nth_error_None in H. rewrite H. reflexivity.
Qed.

Lemma rectangular_row (height width : nat) (letters : Grid)
      (i : nat) (row : list (option ascii)) :
  rectangular height width letters -> nth_error letters i = Some row ->
  List.length row = width.
Proof.
  intros [_ Hall] H. rewrite Forall_forall in Hall.
  apply Hall. apply (nth_error_In _ _ H).
Qed.

Lemma rectangular_blank (height width : nat) :
  rectangular height width (repeat (repeat None width) height).
Proof.
  split; [apply repeat_length|].
  apply Forall_forall. intros row H. apply repeat_spec in H. subst.
  apply repeat_length.
Qed.

Lemma letter_at_blank (height width : nat) (cell : nat * nat) :
  letter_at (repeat (repeat None width) height) cell = None.
Proof.
  unfold letter_at.
  destruct (nth_error (repeat (repeat None width) height) (fst cell))
    as [row|] eqn:E; [|reflexivity].
  apply nth_error_In, repeat_spec in E. subst row.
  destruct (nth_error (repeat None width) (snd cell)) as [content|] eqn:E;
    [|reflexivity].
  apply nth_error_In, repeat_spec in E. exact E.
Qed.

(** One write: inside the array it changes that cell only; outside it
    raises. *)
Lemma store_letter_spec (height width : nat) (letters : Grid)
      (i j : nat) (c : ascii) :
  rectangular height width letters ->
  (i < height /\ j < width ->
   exists letters',
     store_letter letters i j c = Ok letters'
     /\ rectangular height width letters'
     /\ letter_at letters' (i, j) = Some c
     /\ forall cell, cell <> (i, j) ->
                     letter_at letters' cell = letter_at letters cell)
  /\ (~ (i < height /\ j < width) ->
      store_letter letters i j c = Raise IndexError).
Proof.
  intros Hrect. pose proof Hrect as [Hh Hrows]. unfold store_letter. split.
  - intros [Hi Hj].
    destruct (proj1 (item_spec letters i)) as (row & Hitem & Hrow); [lia|].
    rewrite Hitem. simpl.
    pose proof (rectangular_row _ _ _ _ _ Hrect Hrow) as Hlen.
    destruct (proj1 (store_spec row j (Some c))) as (row' & Hs & Hl & Hn & Ho);
      [lia|].
    rewrite Hs. simpl.
    destruct (proj1 (store_spec letters i row'))
      as (g' & Hs' & Hl' & Hn' & Ho'); [lia|].
    exists g'. split; [assumption|]. split; [|split].
    + split; [lia|]. apply Forall_forall. intros r Hr.
      apply In_nth_error in Hr. destruct Hr as [m Hm].
      destruct (Nat.eq_dec m i) as [->|N].
      * rewrite Hn' in Hm. inversion Hm; subst. lia.
      * rewrite (Ho' m N) in Hm.
        apply (rectangular_row _ _ _ _ _ Hrect Hm).
    + unfold letter_at. simpl. rewrite Hn', Hn. reflexivity.
    + intros [i' j'] Hc. unfold letter_at. simpl.
      destruct (Nat.eq_dec i' i) as [->|N].
      * rewrite Hn', Hrow. rewrite Ho by congruence. reflexivity.
      * rewrite (Ho' i' N). reflexivity.
  - intros Hout. destruct (Nat.lt_ge_cases i height) as [Hi|Hi].
    + destruct (proj1 (item_spec letters i)) as (row & Hitem & Hrow); [lia|].
      rewrite Hitem. simpl.
      pose proof (rectangular_row _ _ _ _ _ Hrect Hrow) as Hlen.
      rewrite (proj2 (store_spec row j (Some c))) by lia. reflexivity.
    + rewrite (proj2 (item_spec letters i)) by lia. reflexivity.
Qed.

Lemma cell_of_injective (v : Var.t) (k k' : nat) :
  cell_of v k = cell_of v k' -> k = k'.
Proof.
  unfold cell_of. destruct (Var.direction v); intros H; inversion H; lia.
Qed.

(** Writing one word: either every letter falls inside the array, the word
    can be read back and the other cells are untouched, or some letter falls
    outside and the write raises. *)
Lemma write_word_cases (height width : nat) (v : Var.t) (word : string)
      (ks : list nat) (letters : Grid) :
  rectangular height width letters ->
  (forall k, In k ks -> k < String.length word) ->
  (exists letters',
      write_word letters v word ks = Ok letters'
      /\ rectangular height width letters'
      /\ (forall k, In k ks ->
                    fst (cell_of v k) < height /\ snd (cell_of v k) < width)
      /\ (forall k c, In k ks -> String.get k word = Some c ->
                      letter_at letters' (cell_of v k) = Some c)
      /\ (forall cell, (forall k, In k ks -> cell_of v k <> cell) ->
                       letter_at letters' cell = letter_at letters cell))
  \/ (write_word letters v word ks = Raise IndexError
      /\ exists k, In k ks
                   /\ ~ (fst (cell_of v k) < height
                         /\ snd (cell_of v k) < width)).
Proof.
  revert letters. induction ks as [|k rest IH]; intros letters Hrect Hks.
  - left. exists letters. simpl. split; [reflexivity|].
    split; [exact Hrect|]. split; [intros k []|].
    split; [intros k c []|reflexivity].
  - cbn [write_word].
    destruct (get_in_range word k) as [c Hc]; [apply Hks; left; reflexivity|].
    rewrite (proj2 (index_ok word k c) Hc). cbn [bind].
    destruct (store_letter_spec height width letters (fst (cell_of v k))
                (snd (cell_of v k)) c Hrect) as [Hin Hout].
    destruct (lt_dec (fst (cell_of v k)) height) as [Hi|Hi];
      [destruct (lt_dec (snd (cell_of v k)) width) as [Hj|Hj]|].
    + destruct Hin as (g1 & Hs & Hr1 & Hat & Hoth); [tauto|].
      rewrite Hs. cbn [bind].
      destruct (IH g1 Hr1) as [(g' & Hw & Hr' & Hfit & Hread & Hkeep)
                              |(Hw & k' & Hk' & Hbad)].
      * intros k' Hk'. apply Hks. right. exact Hk'.
      * left. exists g'. split; [exact Hw|]. split; [exact Hr'|].
        split; [|split].
        -- intros k' [<-|Hk']; [tauto|auto].
        -- intros k' c' Hk' Hc'.
           destruct (in_dec Nat.eq_dec k' rest) as [Hr|Hr]; [eauto|].
           destruct Hk' as [<-|Hk']; [|contradiction].
           rewrite Hkeep.
           ++ rewrite <- surjective_pairing in Hat. congruence.
           ++ intros k' Hk' E. apply cell_of_injective in E. congruence.
        -- intros cell Hcell. rewrite Hkeep.
           ++ apply Hoth. rewrite <- surjective_pairing.
              intros E. apply (Hcell k); [left; reflexivity|congruence].
           ++ intros k' Hk'. apply Hcell. right. exact Hk'.
      * right. split; [exact Hw|]. exists k'. split; [right; exact Hk'|exact Hbad].
    + right. rewrite Hout by tauto. split; [reflexivity|].
      exists k. split; [left; reflexivity|tauto].
    + right. rewrite Hout by tauto. split; [reflexivity|].
      exists k. split; [left; reflexivity|tauto].
Qed.

(** Whether some letter of the entries lands on [cell]. *)
Lemma covered_or_free (entries : list (Var.t * string)) (cell : nat * nat) :
  (exists v w k c, In (v, w) entries /\ String.get k w = Some c
                   /\ cell_of v k = cell)
  \/ (forall v w k, In (v, w) entries -> k < String.length w ->
                    cell_of v k <> cell).
Proof.
  assert (Hword : forall v n,
             (exists k, k < n /\ cell_of v k = cell)
             \/ (forall k, k < n -> cell_of v k <> cell)).
  { intros v n. induction n as [|n IH].
    - right. intros k Hk. lia.
    - destruct IH as [(k & Hk & E)|IH]; [left; exists k; split; [lia|exact E]|].
      assert (D : {cell_of v n = cell} + {cell_of v n <> cell})
        by repeat decide equality.
      destruct D as [E|N].
      + left. exists n. split; [lia|exact E].
      + right. intros k Hk. destruct (Nat.eq_dec k n) as [->|Hn]; [exact N|].
        apply IH. lia. }
  induction entries as [|[v w] rest IH].
  - right. intros v w k [].
  - destruct (Hword v (String.length w)) as [(k & Hk & E)|Hfree].
    + left. destruct (get_in_range w k Hk) as [c Hc].
      exists v, w, k, c. split; [left; reflexivity|tauto].
    + destruct IH as [(v' & w' & k & c & Hin & Hc & E)|IH].
      * left. exists v', w', k, c. split; [right; exact Hin|tauto].
      * right. intros v' w' k [E|Hin] Hk.
        -- inversion E; subst. apply Hfree. exact Hk.
        -- apply (IH v' w' k Hin Hk).
Qed.

Lemma letters_agree_tail (e : Var.t * string) (rest : Assignment) :
  letters_agree (e :: rest) -> letters_agree rest.
Proof.
  intros H v w v' w' k k' c c' Hin Hin'.
  apply (H v w v' w' k k' c c'); right; assumption.
Qed.

(** Writing all words: either they all fit, and then the result is as
    described, or one does not and the write raises. *)
Lemma write_words_cases (height width : nat) (entries : list (Var.t * string))
      (letters : Grid) :
  rectangular height width letters ->
  (exists letters',
      write_words letters entries = Ok letters'
      /\ rectangular height width letters'
      /\ fits height width entries
      /\ (forall cell,
             (forall v w k, In (v, w) entries -> k < String.length w ->
                            cell_of v k <> cell) ->
             letter_at letters' cell = letter_at letters cell)
      /\ (letters_agree entries ->
          forall v w k c, In (v, w) entries -> String.get k w = Some c ->
                          letter_at letters' (cell_of v k) = Some c))
  \/ (write_words letters entries = Raise IndexError
      /\ ~ fits height width entries).
Proof.
  revert letters. induction entries as [|[v0 w0] rest IH]; intros letters Hrect.
  - left. exists letters. simpl. split; [reflexivity|].
    split; [exact Hrect|]. split; [intros v w k []|].
    split; [reflexivity|]. intros _ v w k c [].
  - simpl.
    destruct (write_word_cases height width v0 w0 (seq 0 (String.length w0))
                letters Hrect)
      as [(g1 & Hw & Hr1 & Hfit0 & Hread0 & Hkeep0)|(Hw & k & Hk & Hbad)].
    { intros k Hk. apply in_seq in Hk. lia. }
    + rewrite Hw. simpl.
      destruct (IH g1 Hr1) as [(g' & Hws & Hr' & Hfit & Hkeep & Hread)
                              |(Hws & Hbad)].
      * left. exists g'. split; [exact Hws|]. split; [exact Hr'|].
        split; [|split].
        -- intros v w k [E|Hin] Hk.
           ++ inversion E; subst. apply Hfit0. apply in_seq. lia.
           ++ apply (Hfit v w k Hin Hk).
        -- intros cell Hcell. rewrite Hkeep.
           ++ apply Hkeep0. intros k Hk. apply in_seq in Hk.
              apply (Hcell v0 w0 k); [left; reflexivity|lia].
           ++ intros v w k Hin Hk. apply (Hcell v w k); [right; exact Hin|exact Hk].
        -- intros Hagree v w k c Hin Hc.
           pose proof (letters_agree_tail _ _ Hagree) as Hagree'.
           destruct Hin as [E|Hin]; [|apply (Hread Hagree' v w k c Hin Hc)].
           inversion E; subst v0 w0.
           destruct (covered_or_free rest (cell_of v k))
             as [(v' & w' & k' & c' & Hin' & Hc' & Ecell)|Hfree].
           ++ rewrite <- Ecell.
              rewrite (Hread Hagree' v' w' k' c' Hin' Hc').
              f_equal. symmetry.
              apply (Hagree v w v' w' k k' c c');
                [left; reflexivity|right; exact Hin'|exact Hc|exact Hc'|].
              symmetry. exact Ecell.
           ++ rewrite (Hkeep _ Hfree).
              apply Hread0; [|exact Hc].
              apply in_seq. apply get_some_in_range in Hc. lia.
      * right. split; [exact Hws|]. intros Hfit. apply Hbad.
        intros v w k Hin Hk. apply (Hfit v w k); [right; exact Hin|exact Hk].
    + right. rewrite Hw. simpl. split; [reflexivity|].
      intros Hfit. apply Hbad. apply (Hfit v0 w0 k); [left; reflexivity|].
      apply in_seq in Hk. lia.
Qed.

(** X16: [letter_grid] returns exactly when every letter of every assigned
    word falls inside the [height] x [width] array; otherwise it raises
    IndexError. What it returns has [height] rows of [width] cells. *)
Theorem letter_grid_bounds (height width : nat) (a : Assignment) :
  (fits height width a <-> exists letters, letter_grid height width a = Ok letters)
  /\ (~ fits height width a -> letter_grid height width a = Raise IndexError)
  /\ (forall letters, letter_grid height width a = Ok letters ->
                      rectangular height width letters).
Proof.
  unfold letter_grid.
  destruct (write_words_cases height width a
              (repeat (repeat None width) height)
              (rectangular_blank height width))
    as [(g & Hw & Hr & Hfit & _)|(Hw & Hbad)].
  - split; [split; [eauto|intros _; exact Hfit]|].
    split; [tauto|]. intros g' E. congruence.
  - rewrite Hw. split; [split; [tauto|intros [g E]; discriminate]|].
    split; [reflexivity|]. intros g E. discriminate.
Qed.

Lemma letter_grid_bounds_witness :
  letter_grid 2 3 mixed_solution = Raise IndexError.
Proof.
  apply (proj1 (proj2 (letter_grid_bounds 2 3 mixed_solution))).
  intros H. destruct (H down_4 "BATS" 3) as [Hi _].
  - right. left. reflexivity.
  - simpl. lia.
  - simpl in Hi. lia.
Defined.

(** X17: when letters that land on the same cell are equal, every letter of
    every assigned word can be read in the returned array at its cell:
    [letters[i][j] == word[k]] with [(i, j)] the cell of the [k]-th letter. *)
Theorem letter_grid_shows_words (height width : nat) (a : Assignment)
        (letters : Grid) :
  letter_grid height width a = Ok letters ->
  letters_agree a ->
  forall v w k c, In (v, w) a -> String.get k w = Some c ->
                  letter_at letters (cell_of v k) = Some c.
Proof.
  unfold letter_grid. intros H Hagree.
  destruct (write_words_cases height width a
              (repeat (repeat None width) height)
              (rectangular_blank height width))
    as [(g & Hw & _ & _ & _ & Hread)|(Hw & _)]; [|congruence].
  assert (g = letters) by congruence. subst g. apply Hread. exact Hagree.
Qed.

Lemma letters_agree_mixed_solution : letters_agree mixed_solution.
Proof.
  intros v w v' w' k k' c c' Hin Hin' Hc Hc' E.
  destruct Hin as [Hin|[Hin|[]]]; destruct Hin' as [Hin'|[Hin'|[]]];
    inversion Hin; inversion Hin'; subst;
    destruct k as [|[|[|[|k]]]]; simpl in Hc; try discriminate;
    destruct k' as [|[|[|[|k']]]]; simpl in Hc'; try discriminate;
    try (vm_compute in E; discriminate); congruence.
Qed.

Lemma letter_grid_shows_words_witness :
  exists letters,
    letter_grid 4 3 mixed_solution = Ok letters
    /\ letter_at letters (cell_of down_4 2) = Some "T"%char.
Proof.
  eexists. split; [reflexivity|].
  apply (letter_grid_shows_words 4 3 mixed_solution _ eq_refl
           letters_agree_mixed_solution down_4 "BATS" 2 "T"%char).
  - right. left. reflexivity.
  - reflexivity.
Defined.

(** X18: a cell on which no letter of an assigned word lands holds [None]
    in the returned array. *)
Theorem letter_grid_blank_elsewhere (height width : nat) (a : Assignment)
        (letters : Grid) (cell : nat * nat) :
  letter_grid height width a = Ok letters ->
  (forall v w k, In (v, w) a -> k < String.length w -> cell_of v k <> cell) ->
  letter_at letters cell = None.
Proof.
  unfold letter_grid. intros H Hfree.
  destruct (write_words_cases height width a
              (repeat (repeat None width) height)
              (rectangular_blank height width))
    as [(g & Hw & _ & _ & Hkeep & _)|(Hw & _)]; [|congruence].
  assert (g = letters) by congruence. subst g.
  rewrite (Hkeep cell Hfree). apply letter_at_blank.
Qed.

Lemma letter_grid_blank_elsewhere_witness :
  exists letters,
    letter_grid 4 3 mixed_solution = Ok letters
    /\ letter_at letters (0, 0) = None.
Proof.
  eexists. split; [reflexivity|].
  apply (letter_grid_blank_elsewhere 4 3 mixed_solution _ (0, 0) eq_refl).
  intros v w k [Hin|[Hin|[]]] _ E; inversion Hin; subst;
    unfold cell_of in E; simpl in E; inversion E.
Defined.
